(** * safari-post-convert: App Groups entitlements for the Safari Xcode project

    A shallow embedding of [scripts/safari-post-convert.ts] and the
    properties of its three stages: the identifier generator, the
    entitlements writer and the [project.pbxproj] patcher.

    Strings are JavaScript strings: finite sequences of UTF-16 code units.
    The library functions the script calls ([String.prototype.includes],
    [String.prototype.replace] with a string or a regular expression,
    [Math.random], [fs.readFile]/[fs.writeFile]/[fs.pathExists],
    [process.exit]) are modelled after ECMA-262 and the Node documentation;
    the script itself is translated line by line on top of them. *)

From Stdlib Require Import NArith Ascii String QArith Qround.
From stdpp Require Import base list strings gmap.

Local Open Scope nat_scope.

(** ** JavaScript strings *)

(** A string is a list of UTF-16 code units. *)
Abbreviation jsstring := (list N).

(** A source literal whose characters are all ASCII. *)
Fixpoint lit (s : string) : jsstring :=
  match s with
  | EmptyString => []
  | String a s' => N_of_ascii a :: lit s'
  end.

(** Characters that a Rocq literal cannot spell. *)
Definition dq : jsstring := [34%N].
Definition nl : jsstring := [10%N].
Definition tab : jsstring := [9%N].

(** [x.startsWith(p)], used by the string search below. *)
Fixpoint starts_with (p s : jsstring) : bool :=
  match p, s with
  | [], _ => true
  | _ :: _, [] => false
  | a :: p', b :: s' => (a =? b)%N && starts_with p' s'
  end.

(** [StringIndexOf(s, needle, 0)]: the smallest index at which [needle]
    occurs in [s], or [None] for the specification's -1. *)
Fixpoint index_of (needle s : jsstring) : option nat :=
  if starts_with needle s then Some 0
  else match s with
       | [] => None
       | _ :: s' => S <$> index_of needle s'
       end.

(** [s.includes(needle)]. *)
Definition includes (needle s : jsstring) : bool :=
  bool_decide (is_Some (index_of needle s)).

(** Number of indices at which [needle] occurs in [s] (overlapping
    occurrences are all counted). *)
Fixpoint count_occ (needle s : jsstring) : nat :=
  (if starts_with needle s then 1 else 0) +
  match s with
  | [] => 0
  | _ :: s' => count_occ needle s'
  end.

(** ** GetSubstitution (ECMA-262 22.1.3.19.1)

    Expansion of a replacement template: [$$], [$&], [$`], [$'], [$n] and
    [$nn] are interpreted, every other code unit is copied.  [captures]
    holds the capture groups 1, 2, ... ([None] for undefined); there are no
    named groups in this script, so [$<] is copied literally. *)

Definition dollar : N := 36%N.

Definition digit_val (c : N) : option nat :=
  if ((48 <=? c) && (c <=? 57))%N then Some (N.to_nat (c - 48)) else None.

Definition capture_text (captures : list (option jsstring)) (index : nat) : jsstring :=
  match captures !! (index - 1) with
  | Some (Some c) => c
  | _ => []
  end.

Fixpoint get_substitution (matched str : jsstring) (position : nat)
    (captures : list (option jsstring)) (template : jsstring) : jsstring :=
  match template with
  | [] => []
  | c :: rest =>
    if negb (c =? dollar)%N then c :: get_substitution matched str position captures rest
    else
      match rest with
      | [] => [c]
      | d :: rest1 =>
        if (d =? dollar)%N then
          dollar :: get_substitution matched str position captures rest1
        else if (d =? 38)%N then
          matched ++ get_substitution matched str position captures rest1
        else if (d =? 96)%N then
          take position str ++ get_substitution matched str position captures rest1
        else if (d =? 39)%N then
          drop (position + length matched) str
            ++ get_substitution matched str position captures rest1
        else
          match digit_val d with
          | None => c :: get_substitution matched str position captures rest
          | Some d1 =>
            let one_digit :=
              if (1 <=? d1) && (d1 <=? length captures) then
                capture_text captures d1
                  ++ get_substitution matched str position captures rest1
              else c :: get_substitution matched str position captures rest in
            match rest1 with
            | e :: rest2 =>
              match digit_val e with
              | Some d2 =>
                let index := 10 * d1 + d2 in
                if index <=? length captures then
                  if 1 <=? index then
                    capture_text captures index
                      ++ get_substitution matched str position captures rest2
                  else c :: get_substitution matched str position captures rest
                else one_digit
              | None => one_digit
              end
            | [] => one_digit
            end
          end
      end
  end.

(** [s.replace(search, template)] with a string [search]: the first
    occurrence only, the template expanded with no captures. *)
Definition replace_string (search template s : jsstring) : jsstring :=
  match index_of search s with
  | None => s
  | Some pos =>
    take pos s ++ get_substitution search s pos [] template
      ++ drop (pos + length search) s
  end.

(** ** Regular expressions (ECMA-262 22.2)

    The pattern language the script uses: literal characters, the class
    escape [\s], sequence, alternation, the greedy quantifiers [*] and [+]
    and capturing groups.  A matcher returns every way the pattern can match
    a prefix of the input, in the order the backtracking matcher of the
    standard tries them; the standard's result is the first one. *)

Inductive regex : Type :=
  | Eps
  | Chr (c : N)
  | Cls (p : N -> bool)
  | Seq (r1 r2 : regex)
  | Alt (r1 r2 : regex)
  | Star (r : regex)
  | Group (n : nat) (r : regex).

(** [r+] is [r] followed by [r*]. *)
Definition Plus (r : regex) : regex := Seq r (Star r).

(** A run of literal characters. *)
Fixpoint Lit (l : jsstring) : regex :=
  match l with
  | [] => Eps
  | c :: l' => Seq (Chr c) (Lit l')
  end.

(** [\s]: WhiteSpace and LineTerminator code points. *)
Definition is_space (c : N) : bool :=
  ((9 <=? c) && (c <=? 13) || (c =? 32) || (c =? 160) || (c =? 5760)
   || (8192 <=? c) && (c <=? 8202) || (c =? 8232) || (c =? 8233)
   || (c =? 8239) || (c =? 8287) || (c =? 12288) || (c =? 65279))%N.

(** The state of a match: the input not yet consumed and the captures. *)
Abbreviation mstate := (jsstring * list (option jsstring))%type.

(** The capture groups opened inside a pattern. *)
Fixpoint groups_of (r : regex) : list nat :=
  match r with
  | Eps | Chr _ | Cls _ => []
  | Seq r1 r2 | Alt r1 r2 => groups_of r1 ++ groups_of r2
  | Star r1 => groups_of r1
  | Group n r1 => n :: groups_of r1
  end.

Definition clear_groups (gs : list nat) (caps : list (option jsstring)) :
    list (option jsstring) :=
  foldr (fun n acc => <[n - 1 := None]> acc) caps gs.

(** RepeatMatcher for a greedy [*]: one more iteration of [step] is tried
    first, then stopping here.  An iteration that consumes nothing is
    rejected, so the length of the input bounds the number of iterations. *)
Fixpoint repeat_matcher (step : mstate -> list mstate) (fuel : nat) (st : mstate) :
    list mstate :=
  match fuel with
  | 0 => [st]
  | S fuel' =>
    (st1 ← step st;
     if bool_decide (length st1.1 < length st.1) then repeat_matcher step fuel' st1
     else [])
    ++ [st]
  end.

Fixpoint run (r : regex) (st : mstate) {struct r} : list mstate :=
  match r with
  | Eps => [st]
  | Chr c =>
    match st.1 with
    | x :: s' => if (x =? c)%N then [(s', st.2)] else []
    | [] => []
    end
  | Cls p =>
    match st.1 with
    | x :: s' => if p x then [(s', st.2)] else []
    | [] => []
    end
  | Seq r1 r2 => st1 ← run r1 st; run r2 st1
  | Alt r1 r2 => run r1 st ++ run r2 st
  | Star r1 =>
    repeat_matcher
      (fun st => run r1 (st.1, clear_groups (groups_of r1) st.2))
      (length st.1) st
  | Group n r1 =>
    (fun st1 : mstate =>
       (st1.1, <[n - 1 := Some (take (length st.1 - length st1.1) st.1)]> st1.2))
    <$> run r1 st
  end.

(** A regular expression object: pattern, number of capture groups, and
    the [g] flag. *)
Record RegExp := {
  pattern : regex;
  ngroups : nat;
  global : bool
}.

(** The matcher applied at the start of [s]: the first way to match. *)
Definition match_here (rx : RegExp) (s : jsstring) : option mstate :=
  head (run (pattern rx) (s, replicate (ngroups rx) None)).

(** [RegExpBuiltinExec] from index 0: the smallest index at which the
    pattern matches, with the state after the match. *)
Fixpoint exec (rx : RegExp) (s : jsstring) : option (nat * mstate) :=
  match match_here rx s with
  | Some st => Some (0, st)
  | None =>
    match s with
    | [] => None
    | _ :: s' => prod_map S id <$> exec rx s'
    end
  end.

(** [RegExp.prototype[@@replace]] with the [g] flag.  [s] is [str] from
    index [pos] on; [skip] counts the characters of [s] that the previous
    match consumed.  Matches are searched left to right; after a match the
    search resumes at its end, and after an empty match one character
    further (AdvanceStringIndex). *)
Fixpoint replace_all_from (rx : RegExp) (template str : jsstring)
    (pos : nat) (s : jsstring) (skip : nat) {struct s} : jsstring :=
  match skip with
  | S k =>
    match s with
    | [] => []
    | _ :: s' => replace_all_from rx template str (S pos) s' k
    end
  | 0 =>
    match match_here rx s with
    | None =>
      match s with
      | [] => []
      | c :: s' => c :: replace_all_from rx template str (S pos) s' 0
      end
    | Some st =>
      let n := length s - length st.1 in
      get_substitution (take n s) str pos st.2 template ++
      match s with
      | [] => []
      | c :: s' =>
        match n with
        | 0 => c :: replace_all_from rx template str (S pos) s' 0
        | S k => replace_all_from rx template str (S pos) s' k
        end
      end
    end
  end.

(** [s.replace(rx, template)]. *)
Definition replace_regexp (rx : RegExp) (template s : jsstring) : jsstring :=
  if global rx then replace_all_from rx template s 0 s 0
  else
    match exec rx s with
    | None => s
    | Some (pos, st) =>
      let n := length s - pos - length st.1 in
      take pos s ++ get_substitution (take n (drop pos s)) s pos st.2 template
        ++ drop (pos + n) s
    end.

(** ** The process and its environment *)

(** An I/O failure, as an exception value. *)
Inductive error :=
  | ENOENT (path : string)
  | EIO (path : string).

(** The lines the script prints, in the order of the source. *)
Inductive line :=
  | LAdding
  | LCreated (path : string)
  | LAlreadyConfigured
  | LUpdated (path : string)
  | LCompleted
  | LAppGroup (group : jsstring)
  | LNextSteps
  | LOpenXcode
  | LConfigure
  | LRegister (group : jsstring)
  | LEnable
  | LVerify
  | LNotFound (dir : string)
  | LRunConvert
  | LError (e : error).

(** What the process does to the outside. *)
Inductive event :=
  | Log (l : line)                            (* console.log *)
  | LogError (l : line)                       (* console.error *)
  | Written (path : string) (data : jsstring) (* fs.writeFile *).

(** A value of [Math.random()]: a number in [0, 1).  Every such double is
    a rational, and its product with 16 is exact. *)
Record unit_draw := {
  value : Q;
  in_range : Qle_bool 0 value && negb (Qle_bool 1 value) = true
}.

(** What the script cannot control: the successive values of
    [Math.random()] and the paths at which a write fails. *)
Record env := {
  random : nat -> unit_draw;
  write_fails : string -> option error
}.

(** The files as text, what was printed and written so far, and how many
    random numbers were drawn. *)
Record world := {
  files : gmap string jsstring;
  trace : list event;
  draws : nat
}.

(** How a computation ends: with a value, with an exception, or with
    [process.exit(code)]. *)
Inductive outcome (A : Type) :=
  | Ret (a : A)
  | Throw (e : error)
  | Exit (code : Z).
Arguments Ret {A} a.
Arguments Throw {A} e.
Arguments Exit {A} code.

Definition prog (A : Type) : Type := world -> outcome A * world.

#[global] Instance prog_ret : MRet prog := fun A a w => (Ret a, w).

#[global] Instance prog_bind : MBind prog := fun A B k m w =>
  match m w with
  | (Ret a, w') => k a w'
  | (Throw e, w') => (Throw e, w')
  | (Exit c, w') => (Exit c, w')
  end.

(** [try { body } catch (error) { handler(error) }]. *)
Definition try_catch {A} (body : prog A) (handler : error -> prog A) : prog A :=
  fun w =>
    match body w with
    | (Throw e, w') => handler e w'
    | r => r
    end.

(** The world after one more event. *)
Definition logged (e : event) (w : world) : world :=
  {| files := files w; trace := trace w ++ [e]; draws := draws w |}.

(** The world after [data] was written to [path]. *)
Definition stored (path : string) (data : jsstring) (w : world) : world :=
  {| files := <[path := data]> (files w);
     trace := trace w ++ [Written path data];
     draws := draws w |}.

Definition emit (e : event) : prog unit := fun w => (Ret (), logged e w).

Definition console_log (l : line) : prog unit := emit (Log l).
Definition console_error (l : line) : prog unit := emit (LogError l).

Definition process_exit {A} (code : Z) : prog A := fun w => (Exit code, w).

(** The exit status of the process when the top-level call ends with
    outcome [o]: an exception that nothing catches is an unhandled
    rejection, status 1. *)
Definition exit_status {A} (o : outcome A) : Z :=
  match o with
  | Ret _ => 0
  | Throw _ => 1
  | Exit c => c
  end.

Section Script.

Variable E : env.

Definition math_random : prog Q :=
  fun w => (Ret (value (random E (draws w))),
            {| files := files w; trace := trace w; draws := S (draws w) |}).

Definition fs_pathExists (path : string) : prog bool :=
  fun w => (Ret (bool_decide (is_Some (files w !! path))), w).

Definition fs_readFile (path : string) : prog jsstring :=
  fun w =>
    match files w !! path with
    | Some data => (Ret data, w)
    | None => (Throw (ENOENT path), w)
    end.

Definition fs_writeFile (path : string) (data : jsstring) : prog unit :=
  fun w =>
    match write_fails E path with
    | Some e => (Throw e, w)
    | None => (Ret (), stored path data w)
    end.

(** ** The script *)

(** [path.join(dir, name)] for the arguments of this script: the segments
    joined with a slash and normalised, which drops a leading [./]. *)
Definition path_join (dir name : string) : string :=
  (match dir with
   | String "." (String "/" d) => d
   | d => d
   end ++ "/" ++ name)%string.

Definition BUNDLE_IDENTIFIER : jsstring := lit "com.hankun.BewlyCat".
Definition APP_GROUP : jsstring := lit "group." ++ BUNDLE_IDENTIFIER.

Definition XCODE_PROJECT_DIR : string := "./extension-safari-xcode/BewlyCat".
Definition APP_DIR : string := path_join XCODE_PROJECT_DIR "BewlyCat".
Definition EXT_DIR : string := path_join XCODE_PROJECT_DIR "BewlyCat Extension".
Definition PBXPROJ_PATH : string :=
  path_join XCODE_PROJECT_DIR "BewlyCat.xcodeproj/project.pbxproj".

Definition APP_ENTITLEMENTS : jsstring :=
  lit "<?xml version=" ++ dq ++ lit "1.0" ++ dq ++ lit " encoding=" ++ dq
    ++ lit "UTF-8" ++ dq ++ lit "?>" ++ nl ++
  lit "<!DOCTYPE plist PUBLIC " ++ dq ++ lit "-//Apple//DTD PLIST 1.0//EN" ++ dq
    ++ lit " " ++ dq ++ lit "http://www.apple.com/DTDs/PropertyList-1.0.dtd"
    ++ dq ++ lit ">" ++ nl ++
  lit "<plist version=" ++ dq ++ lit "1.0" ++ dq ++ lit ">" ++ nl ++
  lit "<dict>" ++ nl ++
  lit "    <key>com.apple.security.app-sandbox</key>" ++ nl ++
  lit "    <true/>" ++ nl ++
  lit "    <key>com.apple.security.network.client</key>" ++ nl ++
  lit "    <true/>" ++ nl ++
  lit "    <key>com.apple.security.application-groups</key>" ++ nl ++
  lit "    <array>" ++ nl ++
  lit "        <string>" ++ APP_GROUP ++ lit "</string>" ++ nl ++
  lit "    </array>" ++ nl ++
  lit "</dict>" ++ nl ++
  lit "</plist>" ++ nl.

Definition EXT_ENTITLEMENTS : jsstring :=
  lit "<?xml version=" ++ dq ++ lit "1.0" ++ dq ++ lit " encoding=" ++ dq
    ++ lit "UTF-8" ++ dq ++ lit "?>" ++ nl ++
  lit "<!DOCTYPE plist PUBLIC " ++ dq ++ lit "-//Apple//DTD PLIST 1.0//EN" ++ dq
    ++ lit " " ++ dq ++ lit "http://www.apple.com/DTDs/PropertyList-1.0.dtd"
    ++ dq ++ lit ">" ++ nl ++
  lit "<plist version=" ++ dq ++ lit "1.0" ++ dq ++ lit ">" ++ nl ++
  lit "<dict>" ++ nl ++
  lit "    <key>com.apple.security.app-sandbox</key>" ++ nl ++
  lit "    <true/>" ++ nl ++
  lit "    <key>com.apple.security.network.client</key>" ++ nl ++
  lit "    <true/>" ++ nl ++
  lit "    <key>com.apple.security.application-groups</key>" ++ nl ++
  lit "    <array>" ++ nl ++
  lit "        <string>" ++ APP_GROUP ++ lit "</string>" ++ nl ++
  lit "    </array>" ++ nl ++
  lit "</dict>" ++ nl ++
  lit "</plist>" ++ nl.

(** [chars[k]] appended to a string: the character at index [k], or the
    text of [undefined] when [k] is not an index of [chars]. *)
Definition char_at (chars : jsstring) (k : Z) : jsstring :=
  match (if bool_decide (0 <= k)%Z then chars !! Z.to_nat k else None) with
  | Some c => [c]
  | None => lit "undefined"
  end.

(** The body of the [for] loop of [generateUUID], [n] iterations to go. *)
Fixpoint generateUUID_loop (chars : jsstring) (n : nat) (result : jsstring) :
    prog jsstring :=
  match n with
  | 0 => mret result
  | S n' =>
    r ← math_random;
    generateUUID_loop chars n' (result ++ char_at chars (Qfloor (r * 16)))
  end.

Definition generateUUID : prog jsstring :=
  let chars := lit "0123456789ABCDEF" in
  generateUUID_loop chars 24 [].

Definition createEntitlementsFiles : prog (string * string) :=
  let appEntPath := path_join APP_DIR "BewlyCat.entitlements" in
  let extEntPath := path_join EXT_DIR "BewlyCat Extension.entitlements" in
  fs_writeFile appEntPath APP_ENTITLEMENTS;;
  console_log (LCreated appEntPath);;
  fs_writeFile extEntPath EXT_ENTITLEMENTS;;
  console_log (LCreated extEntPath);;
  mret (appEntPath, extEntPath).

(** The regular expressions of [updatePbxproj]. *)
Definition appBuildPattern : RegExp := {|
  pattern :=
    Seq (Group 1 (Lit (lit "PRODUCT_BUNDLE_IDENTIFIER = com.hankun.BewlyCat;")))
      (Seq (Group 2 (Plus (Cls is_space)))
         (Group 3 (Alt (Lit (lit "PRODUCT_NAME")) (Lit (lit "REGISTER_APP_GROUPS")))));
  ngroups := 3;
  global := true
|}.

Definition extBuildPattern : RegExp := {|
  pattern :=
    Seq (Group 1 (Lit (lit "PRODUCT_BUNDLE_IDENTIFIER = com.hankun.BewlyCat.Extension;")))
      (Seq (Group 2 (Plus (Cls is_space)))
         (Group 3 (Alt (Lit (lit "PRODUCT_NAME")) (Lit (lit "SKIP_INSTALL")))));
  ngroups := 3;
  global := true
|}.

Definition appGroupPattern : RegExp := {|
  pattern :=
    Group 1
      (Seq (Lit (lit "/* BewlyCat */ = {"))
         (Seq (Star (Cls is_space))
            (Seq (Lit (lit "isa = PBXGroup;"))
               (Seq (Star (Cls is_space)) (Lit (lit "children = ("))))));
  ngroups := 1;
  global := false
|}.

Definition extGroupPattern : RegExp := {|
  pattern :=
    Group 1
      (Seq (Lit (lit "/* BewlyCat Extension */ = {"))
         (Seq (Star (Cls is_space))
            (Seq (Lit (lit "isa = PBXGroup;"))
               (Seq (Star (Cls is_space)) (Lit (lit "children = ("))))));
  ngroups := 1;
  global := false
|}.

Definition marker : jsstring := lit "BewlyCat.entitlements".

Definition fileRefEndMarker : jsstring := lit "/* End PBXFileReference section */".

Definition fileRefAddition (appEntFileRef extEntFileRef : jsstring) : jsstring :=
  tab ++ tab ++ appEntFileRef
    ++ lit " /* BewlyCat.entitlements */ = {isa = PBXFileReference; lastKnownFileType = text.plist.entitlements; path = BewlyCat.entitlements; sourceTree = "
    ++ dq ++ lit "<group>" ++ dq ++ lit "; };" ++ nl ++
  tab ++ tab ++ extEntFileRef
    ++ lit " /* BewlyCat Extension.entitlements */ = {isa = PBXFileReference; lastKnownFileType = text.plist.entitlements; path = "
    ++ dq ++ lit "BewlyCat Extension.entitlements" ++ dq ++ lit "; sourceTree = "
    ++ dq ++ lit "<group>" ++ dq ++ lit "; };" ++ nl ++
  fileRefEndMarker.

Definition appBuildTemplate : jsstring :=
  lit "$1$2CODE_SIGN_ENTITLEMENTS = BewlyCat/BewlyCat.entitlements;$2$3".

Definition extBuildTemplate : jsstring :=
  lit "$1$2CODE_SIGN_ENTITLEMENTS = " ++ dq
    ++ lit "BewlyCat Extension/BewlyCat Extension.entitlements" ++ dq ++ lit ";$2$3".

Definition appGroupTemplate (appEntFileRef : jsstring) : jsstring :=
  lit "$1" ++ nl ++ tab ++ tab ++ tab ++ tab ++ appEntFileRef
    ++ lit " /* BewlyCat.entitlements */,".

Definition extGroupTemplate (extEntFileRef : jsstring) : jsstring :=
  lit "$1" ++ nl ++ tab ++ tab ++ tab ++ tab ++ extEntFileRef
    ++ lit " /* BewlyCat Extension.entitlements */,".

(** The five assignments to [content], in the order of the source. *)
Definition addFileReferences (appEntFileRef extEntFileRef content : jsstring) : jsstring :=
  replace_string fileRefEndMarker (fileRefAddition appEntFileRef extEntFileRef) content.

Definition addAppBuildSetting (content : jsstring) : jsstring :=
  replace_regexp appBuildPattern appBuildTemplate content.

Definition addExtBuildSetting (content : jsstring) : jsstring :=
  replace_regexp extBuildPattern extBuildTemplate content.

Definition addAppGroupChild (appEntFileRef content : jsstring) : jsstring :=
  replace_regexp appGroupPattern (appGroupTemplate appEntFileRef) content.

Definition addExtGroupChild (extEntFileRef content : jsstring) : jsstring :=
  replace_regexp extGroupPattern (extGroupTemplate extEntFileRef) content.

Definition patch (appEntFileRef extEntFileRef content : jsstring) : jsstring :=
  let content := addFileReferences appEntFileRef extEntFileRef content in
  let content := addAppBuildSetting content in
  let content := addExtBuildSetting content in
  let content := addAppGroupChild appEntFileRef content in
  let content := addExtGroupChild extEntFileRef content in
  content.

Definition updatePbxproj : prog unit :=
  content ← fs_readFile PBXPROJ_PATH;
  if includes marker content then
    console_log LAlreadyConfigured
  else
    appEntFileRef ← generateUUID;
    extEntFileRef ← generateUUID;
    let content := patch appEntFileRef extEntFileRef content in
    fs_writeFile PBXPROJ_PATH content;;
    console_log (LUpdated PBXPROJ_PATH).

Definition main : prog unit :=
  console_log LAdding;;
  found ← fs_pathExists PBXPROJ_PATH;
  (if negb found then
     console_error (LNotFound XCODE_PROJECT_DIR);;
     console_error LRunConvert;;
     process_exit 1
   else mret ());;
  try_catch
    (createEntitlementsFiles;;
     updatePbxproj;;
     console_log LCompleted;;
     console_log (LAppGroup APP_GROUP);;
     console_log LNextSteps;;
     console_log LOpenXcode;;
     console_log LConfigure;;
     console_log (LRegister APP_GROUP);;
     console_log LEnable;;
     console_log LVerify)
    (fun error =>
       console_error (LError error);;
       process_exit 1).

End Script.

(** ** Notions used in the statements *)

(** [needle] occurs in [s] as a contiguous block. *)
Definition occurs_in (needle s : jsstring) : Prop :=
  exists a b, s = a ++ needle ++ b.

Fixpoint take_while (p : N -> bool) (s : jsstring) : jsstring :=
  match s with
  | x :: s' => if p x then x :: take_while p s' else []
  | [] => []
  end.

Fixpoint drop_while (p : N -> bool) (s : jsstring) : jsstring :=
  match s with
  | x :: s' => if p x then drop_while p s' else s
  | [] => []
  end.

(** The alphabet of [generateUUID]. *)
Definition hex_chars : jsstring := lit "0123456789ABCDEF".

Definition is_hex (c : N) : bool := bool_decide (c ∈ hex_chars).

(** The index that one draw selects, and the character appended for it. *)
Definition digit_index (r : unit_draw) : Z := Qfloor (value r * 16).

Definition digit_of (r : unit_draw) : jsstring := char_at hex_chars (digit_index r).

(** The characters appended by [n] successive draws, from draw [d] on. *)
Fixpoint digits (E : env) (d n : nat) : jsstring :=
  match n with
  | 0 => []
  | S n' => digit_of (random E d) ++ digits E (S d) n'
  end.

(** The identifier that [generateUUID] returns when [d] draws were made
    before the call. *)
Definition token (E : env) (d : nat) : jsstring := digits E d 24.

(** The world after [n] more draws. *)
Definition advance (n : nat) (w : world) : world :=
  {| files := files w; trace := trace w; draws := n + draws w |}.

(** Lines 85-86 of the script: the two identifiers of one run. *)
Definition generate_refs (E : env) : prog (jsstring * jsstring) :=
  appEntFileRef ← generateUUID E;
  extEntFileRef ← generateUUID E;
  mret (appEntFileRef, extEntFileRef).

(** An environment whose draws are all 0 and whose writes all succeed. *)
Definition draw_zero : unit_draw := {| value := 0; in_range := eq_refl |}.

Definition env_zero : env :=
  {| random := fun _ => draw_zero; write_fails := fun _ => None |}.

(** Draws that walk through the sixteenths: draw [n] is [(n mod 16) / 16]. *)
Definition sixteenth (k : N) : unit_draw :=
  match k with
  | 0%N => {| value := 0; in_range := eq_refl |}
  | 1%N => {| value := 1 # 16; in_range := eq_refl |}
  | 2%N => {| value := 2 # 16; in_range := eq_refl |}
  | 3%N => {| value := 3 # 16; in_range := eq_refl |}
  | 4%N => {| value := 4 # 16; in_range := eq_refl |}
  | 5%N => {| value := 5 # 16; in_range := eq_refl |}
  | 6%N => {| value := 6 # 16; in_range := eq_refl |}
  | 7%N => {| value := 7 # 16; in_range := eq_refl |}
  | 8%N => {| value := 8 # 16; in_range := eq_refl |}
  | 9%N => {| value := 9 # 16; in_range := eq_refl |}
  | 10%N => {| value := 10 # 16; in_range := eq_refl |}
  | 11%N => {| value := 11 # 16; in_range := eq_refl |}
  | 12%N => {| value := 12 # 16; in_range := eq_refl |}
  | 13%N => {| value := 13 # 16; in_range := eq_refl |}
  | 14%N => {| value := 14 # 16; in_range := eq_refl |}
  | _ => {| value := 15 # 16; in_range := eq_refl |}
  end.

Definition env_cycle : env :=
  {| random := fun n => sixteenth (N.of_nat n mod 16); write_fails := fun _ => None |}.

(** A world that holds only the project descriptor. *)
Definition world_of (content : jsstring) : world :=
  {| files := {[ PBXPROJ_PATH := content ]}; trace := []; draws := 0 |}.

Definition empty_world : world := {| files := ∅; trace := []; draws := 0 |}.

(** The two paths that [createEntitlementsFiles] writes to. *)
Definition appEntPath : string := path_join APP_DIR "BewlyCat.entitlements".
Definition extEntPath : string := path_join EXT_DIR "BewlyCat Extension.entitlements".

(** The XML document of the source with the App Group identifier left
    open. *)
Definition entitlements_template (group : jsstring) : jsstring :=
  lit "<?xml version=" ++ dq ++ lit "1.0" ++ dq ++ lit " encoding=" ++ dq
    ++ lit "UTF-8" ++ dq ++ lit "?>" ++ nl ++
  lit "<!DOCTYPE plist PUBLIC " ++ dq ++ lit "-//Apple//DTD PLIST 1.0//EN" ++ dq
    ++ lit " " ++ dq ++ lit "http://www.apple.com/DTDs/PropertyList-1.0.dtd"
    ++ dq ++ lit ">" ++ nl ++
  lit "<plist version=" ++ dq ++ lit "1.0" ++ dq ++ lit ">" ++ nl ++
  lit "<dict>" ++ nl ++
  lit "    <key>com.apple.security.app-sandbox</key>" ++ nl ++
  lit "    <true/>" ++ nl ++
  lit "    <key>com.apple.security.network.client</key>" ++ nl ++
  lit "    <true/>" ++ nl ++
  lit "    <key>com.apple.security.application-groups</key>" ++ nl ++
  lit "    <array>" ++ nl ++
  lit "        <string>" ++ group ++ lit "</string>" ++ nl ++
  lit "    </array>" ++ nl ++
  lit "</dict>" ++ nl ++
  lit "</plist>" ++ nl.

(** What a run prints after the patcher has returned. *)
Definition report : list event :=
  [Log LCompleted; Log (LAppGroup APP_GROUP); Log LNextSteps; Log LOpenXcode;
   Log LConfigure; Log (LRegister APP_GROUP); Log LEnable; Log LVerify].

(** What a pattern of the form [(l)(\s+)(k1|k2)] matches at the start of
    [s]: the literal, the longest run of white space, which must not be
    empty, and then [k1] or else [k2]. *)
Definition match_setting (l k1 k2 s : jsstring) : option mstate :=
  if starts_with l s then
    let s1 := drop (length l) s in
    let s2 := drop_while is_space s1 in
    match take_while is_space s1 with
    | [] => None
    | w =>
      if starts_with k1 s2 then Some (drop (length k1) s2, [Some l; Some w; Some k1])
      else if starts_with k2 s2 then Some (drop (length k2) s2, [Some l; Some w; Some k2])
      else None
    end
  else None.

(** What a pattern of the form [(l0\s*l1\s*l2)] matches at the start of
    [s]. *)
Definition match_group (l0 l1 l2 s : jsstring) : option mstate :=
  if starts_with l0 s then
    let s2 := drop_while is_space (drop (length l0) s) in
    if starts_with l1 s2 then
      let s4 := drop_while is_space (drop (length l1) s2) in
      if starts_with l2 s4 then
        let s5 := drop (length l2) s4 in
        Some (s5, [Some (take (length s - length s5) s)])
      else None
    else None
  else None.

(** The states a greedy [p*] offers, longest run first. *)
Fixpoint star_states (p : N -> bool) (s : jsstring) (caps : list (option jsstring)) :
    list mstate :=
  match s with
  | x :: s' => if p x then star_states p s' caps ++ [(s, caps)] else [(s, caps)]
  | [] => [([], caps)]
  end.

(** The first character of [k] exists and is not white space. *)
Definition starts_solid (k : jsstring) : bool :=
  match k with
  | c :: _ => negb (is_space c)
  | [] => false
  end.

(** The literals of the four patterns. *)
Definition appBundleLine : jsstring :=
  lit "PRODUCT_BUNDLE_IDENTIFIER = com.hankun.BewlyCat;".
Definition extBundleLine : jsstring :=
  lit "PRODUCT_BUNDLE_IDENTIFIER = com.hankun.BewlyCat.Extension;".
Definition appGroupHeader : jsstring := lit "/* BewlyCat */ = {".
Definition extGroupHeader : jsstring := lit "/* BewlyCat Extension */ = {".
Definition isaGroup : jsstring := lit "isa = PBXGroup;".
Definition childrenOpen : jsstring := lit "children = (".

(** What the patcher inserts: the two file reference lines, the two build
    setting lines and the two group children. *)
Definition fileRefMiddle : jsstring :=
  lit " /* BewlyCat.entitlements */ = {isa = PBXFileReference; lastKnownFileType = text.plist.entitlements; path = BewlyCat.entitlements; sourceTree = "
    ++ dq ++ lit "<group>" ++ dq ++ lit "; };" ++ nl ++ tab ++ tab.

Definition fileRefTail : jsstring :=
  lit " /* BewlyCat Extension.entitlements */ = {isa = PBXFileReference; lastKnownFileType = text.plist.entitlements; path = "
    ++ dq ++ lit "BewlyCat Extension.entitlements" ++ dq ++ lit "; sourceTree = "
    ++ dq ++ lit "<group>" ++ dq ++ lit "; };" ++ nl.

Definition fileRefLines (appEntFileRef extEntFileRef : jsstring) : jsstring :=
  (tab ++ tab) ++ appEntFileRef ++ fileRefMiddle ++ extEntFileRef ++ fileRefTail.

Definition appBuildLine : jsstring :=
  lit "CODE_SIGN_ENTITLEMENTS = BewlyCat/BewlyCat.entitlements;".

Definition extBuildLine : jsstring :=
  lit "CODE_SIGN_ENTITLEMENTS = " ++ dq
    ++ lit "BewlyCat Extension/BewlyCat Extension.entitlements" ++ dq ++ lit ";".

Definition appGroupChild (appEntFileRef : jsstring) : jsstring :=
  (nl ++ tab ++ tab ++ tab ++ tab) ++ appEntFileRef
    ++ lit " /* BewlyCat.entitlements */,".

Definition extGroupChild (extEntFileRef : jsstring) : jsstring :=
  (nl ++ tab ++ tab ++ tab ++ tab) ++ extEntFileRef
    ++ lit " /* BewlyCat Extension.entitlements */,".

(** The direct matchers of the four patterns. *)
Definition match_appBuild : jsstring -> option mstate :=
  match_setting appBundleLine (lit "PRODUCT_NAME") (lit "REGISTER_APP_GROUPS").
Definition match_extBuild : jsstring -> option mstate :=
  match_setting extBundleLine (lit "PRODUCT_NAME") (lit "SKIP_INSTALL").
Definition match_appGroup : jsstring -> option mstate :=
  match_group appGroupHeader isaGroup childrenOpen.
Definition match_extGroup : jsstring -> option mstate :=
  match_group extGroupHeader isaGroup childrenOpen.

(** No [$] in a template: nothing to expand. *)
Definition plain (t : jsstring) : bool := forallb (fun c => negb (c =? dollar)%N) t.

(** The words that the two kinds of pattern match. *)
Definition setting_word (l k1 k2 m : jsstring) : Prop :=
  exists w k, m = l ++ w ++ k /\ w <> [] /\ forallb is_space w = true /\
              (k = k1 \/ k = k2).

Definition group_word (l0 l1 l2 m : jsstring) : Prop :=
  exists w1 w2, m = l0 ++ w1 ++ l1 ++ w2 ++ l2 /\
                forallb is_space w1 = true /\ forallb is_space w2 = true.

(** The effect of a global replacement with a pattern [(l)(\s+)(k1|k2)] and
    the template [$1$2 line $2$3]: scanning from the left, every match has
    [line] and a copy of its white space inserted before its keyword, and
    the scan resumes behind the match. *)
Inductive settings_patched (l k1 k2 line : jsstring) : jsstring -> jsstring -> Prop :=
  | sp_nil : settings_patched l k1 k2 line [] []
  | sp_skip c s s' :
      match_setting l k1 k2 (c :: s) = None ->
      settings_patched l k1 k2 line s s' ->
      settings_patched l k1 k2 line (c :: s) (c :: s')
  | sp_hit s w k rest rest' :
      match_setting l k1 k2 s = Some (rest, [Some l; Some w; Some k]) ->
      settings_patched l k1 k2 line rest rest' ->
      settings_patched l k1 k2 line s (l ++ w ++ line ++ w ++ k ++ rest').

(** The effect of a replacement of the first match only, with a pattern
    whose single group spans the match and the template [$1 child]: [child]
    is inserted behind the first place at which the pattern matches, and
    nothing else changes.  [W] describes the matched words. *)
Inductive child_inserted (rx : RegExp) (W : jsstring -> Prop) (child : jsstring) :
    jsstring -> jsstring -> Prop :=
  | ci_none s :
      (forall i, match_here rx (drop i s) = None) ->
      child_inserted rx W child s s
  | ci_first before m after :
      match_here rx (m ++ after) = Some (after, [Some m]) ->
      W m ->
      (forall i, i < length before ->
                 match_here rx (drop i (before ++ m ++ after)) = None) ->
      child_inserted rx W child (before ++ m ++ after) (before ++ m ++ child ++ after).

(** ** Insertions and what survives them *)

(** Some word of [W] occurs in [s]. *)
Definition occurs (W : jsstring -> Prop) (s : jsstring) : Prop :=
  exists a m b, s = a ++ m ++ b /\ W m.

(** One insertion of a block at a place whose surroundings satisfy [Ctx]. *)
Definition insert1 (Ctx : jsstring -> jsstring -> Prop) (s s' : jsstring) : Prop :=
  exists a b block, s = a ++ b /\ s' = a ++ block ++ b /\ Ctx a b.

(** No place that satisfies [Ctx] lies strictly inside a word of [W]. *)
Definition safe (Ctx : jsstring -> jsstring -> Prop) (W : jsstring -> Prop) : Prop :=
  forall a0 m1 m2 b0,
    m1 <> [] -> m2 <> [] -> W (m1 ++ m2) -> ~ Ctx (a0 ++ m1) (m2 ++ b0).

(** The places at which the patcher inserts: in front of [beta], between
    the white space and the keyword of a build setting, and behind
    [alpha]. *)
Definition ctx_before (beta : jsstring) (a b : jsstring) : Prop :=
  beta `prefix_of` b.

Definition ctx_setting (l k1 k2 : jsstring) (a b : jsstring) : Prop :=
  exists a' w k r, a = a' ++ l ++ w /\ w <> [] /\ forallb is_space w = true /\
                   (k = k1 \/ k = k2) /\ b = k ++ r.

Definition ctx_after (alpha : jsstring) (a b : jsstring) : Prop :=
  alpha `suffix_of` a.

Definition ends_on (P : N -> bool) (s : jsstring) : bool :=
  match last s with Some x => P x | None => false end.

Definition begins_on (Q : N -> bool) (s : jsstring) : bool :=
  match s with x :: _ => Q x | [] => false end.

(** Two adjacent characters of [s], the first in [P] and the second in [Q]. *)
Fixpoint has_pair (P Q : N -> bool) (s : jsstring) : bool :=
  match s with
  | x :: t => P x && begins_on Q t || has_pair P Q t
  | [] => false
  end.

(** [m] has no place strictly inside it at which [c0] stands, followed by
    [c1] or by the end of [m]. *)
Definition cut_free (c0 c1 : N) (m : jsstring) : bool :=
  negb (has_pair (N.eqb c0) (N.eqb c1) (tail m)) && negb (ends_on (N.eqb c0) (tail m)).

(** A descriptor with the header of the app group twice and that of the
    extension group twice. *)
Definition two_headers : jsstring :=
  lit "/* BewlyCat */ = {isa = PBXGroup; children = (); /* BewlyCat */ = {isa = PBXGroup; children = (); "
  ++ lit "/* BewlyCat Extension */ = {isa = PBXGroup; children = (); /* BewlyCat Extension */ = {isa = PBXGroup; children = ();".

(** The words of the four patterns. *)
Definition app_setting_word : jsstring -> Prop :=
  setting_word appBundleLine (lit "PRODUCT_NAME") (lit "REGISTER_APP_GROUPS").
Definition ext_setting_word : jsstring -> Prop :=
  setting_word extBundleLine (lit "PRODUCT_NAME") (lit "SKIP_INSTALL").
Definition app_group_word : jsstring -> Prop :=
  group_word appGroupHeader isaGroup childrenOpen.

(** The places of the five insertions. *)
Definition ctx_fileRef : jsstring -> jsstring -> Prop := ctx_before fileRefEndMarker.
Definition ctx_appBuild : jsstring -> jsstring -> Prop :=
  ctx_setting appBundleLine (lit "PRODUCT_NAME") (lit "REGISTER_APP_GROUPS").
Definition ctx_extBuild : jsstring -> jsstring -> Prop :=
  ctx_setting extBundleLine (lit "PRODUCT_NAME") (lit "SKIP_INSTALL").
Definition ctx_group : jsstring -> jsstring -> Prop := ctx_after childrenOpen.

(** A literal that the pair [c0 c1] does not cut, by itself. *)
Definition piece_free (c0 c1 : N) (l : jsstring) : bool :=
  negb (has_pair (N.eqb c0) (N.eqb c1) l) && negb (ends_on (N.eqb c0) l).

Definition no_char (c : N) (l : jsstring) : bool :=
  forallb (fun x => negb (c =? x)%N) l.

(** A small descriptor with all five anchors. *)
Definition small_descriptor : jsstring :=
  lit "/* Begin PBXFileReference section */" ++ nl ++
  lit "/* End PBXFileReference section */" ++ nl ++
  lit "/* BewlyCat */ = {" ++ nl ++ tab ++ lit "isa = PBXGroup;" ++ nl ++ tab
    ++ lit "children = (" ++ nl ++ tab ++ lit ");" ++ nl ++
  lit "/* BewlyCat Extension */ = {" ++ nl ++ tab ++ lit "isa = PBXGroup;" ++ nl
    ++ tab ++ lit "children = (" ++ nl ++ tab ++ lit ");" ++ nl ++
  lit "PRODUCT_BUNDLE_IDENTIFIER = com.hankun.BewlyCat;" ++ nl ++ tab
    ++ lit "PRODUCT_NAME = BewlyCat;" ++ nl ++
  lit "PRODUCT_BUNDLE_IDENTIFIER = com.hankun.BewlyCat.Extension;" ++ nl ++ tab
    ++ lit "SKIP_INSTALL = YES;" ++ nl.

(** A descriptor whose only anchor is the header of the extension group. *)
Definition extension_group_only : jsstring :=
  lit "/* BewlyCat Extension */ = {isa = PBXGroup; children = ();".

(** ** Counting occurrences *)

(** The number of positions of [s], its end included, at whose suffix [M]
    holds. *)
Fixpoint count_at (M : jsstring -> bool) (s : jsstring) : nat :=
  (if M s then 1 else 0) +
  match s with
  | [] => 0
  | _ :: s' => count_at M s'
  end.

(** The same count restricted to the positions inside [y], in [y ++ t]. *)
Fixpoint count_in (M : jsstring -> bool) (y t : jsstring) : nat :=
  match y with
  | [] => 0
  | _ :: y' => (if M (y ++ t) then 1 else 0) + count_in M y' t
  end.

(** The direct matcher of a build setting pattern, as a test. *)
Definition setting_matches (l k1 k2 s : jsstring) : bool :=
  match match_setting l k1 k2 s with Some _ => true | None => false end.

(** The pattern matches at the start of [s]. *)
Definition matches_here (rx : RegExp) (s : jsstring) : bool :=
  match match_here rx s with Some _ => true | None => false end.

(** Some word of [W] is a prefix of [s]; [M] decides it. *)
Definition starts (W : jsstring -> Prop) (s : jsstring) : Prop :=
  exists m r, s = m ++ r /\ W m.

Definition decides (M : jsstring -> bool) (W : jsstring -> Prop) : Prop :=
  forall s, M s = true <-> starts W s.

(** One insertion of [block] between [a] and [b], the three related by [R]. *)
Definition insert3 (R : jsstring -> jsstring -> jsstring -> Prop) (s s' : jsstring) :
    Prop :=
  exists a block b, s = a ++ b /\ s' = a ++ block ++ b /\ R a block b.


Definition at_setting (l k1 k2 line : jsstring) (a block b : jsstring) : Prop :=
  exists a' w k r, a = a' ++ l ++ w /\ w <> [] /\ forallb is_space w = true /\
                   (k = k1 \/ k = k2) /\ b = k ++ r /\ block = line ++ w.


(** One of two strings is a prefix of the other. *)
Definition compat (x y : jsstring) : bool := starts_with x y || starts_with y x.

(** No proper suffix of [k] can be continued to a string that starts
    with [l]. *)
Definition no_restart (l k : jsstring) : bool :=
  forallb (fun j => negb (compat l (drop j k))) (seq 0 (length k)).


Definition is_extBuildLine : jsstring -> bool := starts_with extBuildLine.
Definition is_appContext : jsstring -> bool := matches_here appBuildPattern.
Definition is_extContext : jsstring -> bool := matches_here extBuildPattern.

(** The three kinds of insertion of the patcher, instantiated. *)
Definition at_appBuild : jsstring -> jsstring -> jsstring -> Prop :=
  at_setting appBundleLine (lit "PRODUCT_NAME") (lit "REGISTER_APP_GROUPS") appBuildLine.

(** A descriptor with two contexts of the app and three of the extension,
    one of which already has its line. *)
Definition several_contexts : jsstring :=
  lit "PRODUCT_BUNDLE_IDENTIFIER = com.hankun.BewlyCat;" ++ nl ++ tab
    ++ lit "PRODUCT_NAME = a; "
  ++ lit "PRODUCT_BUNDLE_IDENTIFIER = com.hankun.BewlyCat; REGISTER_APP_GROUPS = YES; "
  ++ lit "PRODUCT_BUNDLE_IDENTIFIER = com.hankun.BewlyCat.Extension; PRODUCT_NAME = b; "
  ++ lit "PRODUCT_BUNDLE_IDENTIFIER = com.hankun.BewlyCat.Extension;" ++ nl
    ++ lit "SKIP_INSTALL = YES; "
  ++ lit "PRODUCT_BUNDLE_IDENTIFIER = com.hankun.BewlyCat.Extension; " ++ extBuildLine
    ++ lit " PRODUCT_NAME = c; "
  ++ lit "PRODUCT_BUNDLE_IDENTIFIER = com.hankun.BewlyCat.Extension; SKIP_INSTALL = NO;"
  ++ lit "PRODUCT_BUNDLE_IDENTIFIER = com.hankun.BewlyCat; SKIP_INSTALL = NO;".

(** Side conditions on the literals of the script are settled by
    evaluation. *)
Ltac by_compute := solve [ vm_compute; done ].

(** ** Environments with a failing write *)

(** Draws that are all 0; every write to [path] fails with [e], every other
    write succeeds. *)
Definition env_failing (path : string) (e : error) : env :=
  {| random := fun _ => draw_zero;
     write_fails := fun p => if bool_decide (p = path) then Some e else None |}.

(** The three paths the script writes to. *)
Definition script_paths : list string := [appEntPath; extEntPath; PBXPROJ_PATH].

(** What a run prints and writes while [createEntitlementsFiles] succeeds. *)
Definition entitlements_events : list event :=
  [Written appEntPath APP_ENTITLEMENTS; Log (LCreated appEntPath);
   Written extEntPath EXT_ENTITLEMENTS; Log (LCreated extEntPath)].

(** A descriptor that a previous run has patched. *)
Definition configured_descriptor : jsstring :=
  lit "path = BewlyCat.entitlements;" ++ nl ++ lit "/* End PBXFileReference section */".

(** Membership of a write in a trace that is spelled out: the write is
    either old or one of those listed. *)
Ltac written_cases :=
  simpl; rewrite ?elem_of_app, ?elem_of_cons, ?elem_of_nil;
  intros ?;
  repeat match goal with H : _ \/ _ |- _ => destruct H as [H|H] end;
  simplify_eq; solve [ by left | right; auto | done ].

(** ** Draws that select a given character *)

(** The index of the first [c] in [chars]. *)
Fixpoint position (c : N) (chars : jsstring) : nat :=
  match chars with
  | [] => 0
  | x :: chars' => if (x =? c)%N then 0 else S (position c chars')
  end.

(** A value of [Math.random()] for which [generateUUID] appends [c]. *)
Definition draw_for (c : N) : unit_draw := sixteenth (N.of_nat (position c hex_chars)).

(** An environment whose draws, from draw [d] on, select the characters of
    [t] one after the other. *)
Definition env_for (t : jsstring) (d : nat) : env :=
  {| random := fun n => draw_for (nth (n - d) t 0%N); write_fails := fun _ => None |}.

(** No occurrence of [l] starts inside [y], whatever follows [y]. *)
Definition start_free (l y : jsstring) : Prop :=
  forall t d, d < length y -> starts_with l (drop d (y ++ t)) = false.

(** * Properties *)

(** ** String search *)

Lemma starts_with_prefix p s : starts_with p s = true <-> p `prefix_of` s.
Proof.
  revert s; induction p as [|a p IH]; intros s; simpl.
  - split; [intros _; apply prefix_nil | done].
  - destruct s as [|b s].
    + split; [done | intros [k Hk]; discriminate].
    + rewrite andb_true_iff, N.eqb_eq, IH. split.
      * intros [-> Hp]. by apply prefix_cons.
      * intros [k Hk]. simplify_eq/=. split; [done | by exists k].
Qed.

Lemma starts_with_app p t : starts_with p (p ++ t) = true.
Proof. apply starts_with_prefix. by exists t. Qed.

Lemma starts_with_drop p s :
  starts_with p s = true -> s = p ++ drop (length p) s.
Proof.
  intros [k ->]%starts_with_prefix. by rewrite drop_app_length.
Qed.

Lemma index_of_Some needle s i :
  index_of needle s = Some i ->
  exists a b, s = a ++ needle ++ b /\ length a = i.
Proof.
  revert i; induction s as [|c s IH]; intros i; simpl.
  - destruct (starts_with needle []) eqn:Hp; [|done].
    intros [= <-]. apply starts_with_prefix in Hp as [k Hk]. by exists [], k.
  - destruct (starts_with needle (c :: s)) eqn:Hp.
    + intros [= <-]. apply starts_with_prefix in Hp as [k Hk]. by exists [], k.
    + destruct (index_of needle s) as [j|] eqn:Hj; [|done].
      intros [= <-]. destruct (IH j eq_refl) as (a & b & -> & <-).
      by exists (c :: a), b.
Qed.

Lemma index_of_None needle s :
  index_of needle s = None -> ~ occurs_in needle s.
Proof.
  induction s as [|c s IH]; simpl.
  - destruct (starts_with needle []) eqn:Hp; [done|]. intros _ (a & b & Hab).
    destruct a; [|done]. simpl in Hab.
    assert (starts_with needle [] = true) by (apply starts_with_prefix; by exists b).
    congruence.
  - destruct (starts_with needle (c :: s)) eqn:Hp; [done|].
    destruct (index_of needle s) eqn:Hj; [done|]. intros _ (a & b & Hab).
    destruct a as [|x a]; simpl in Hab.
    + assert (starts_with needle (c :: s) = true)
        by (apply starts_with_prefix; by exists b).
      congruence.
    + simplify_eq. apply IH; [done|]. by exists a, b.
Qed.

Lemma includes_occurs needle s : includes needle s = true <-> occurs_in needle s.
Proof.
  unfold includes. rewrite bool_decide_eq_true. split.
  - intros [i Hi]. destruct (index_of_Some _ _ _ Hi) as (a & b & -> & _).
    by exists a, b.
  - intros Hocc. destruct (index_of needle s) eqn:Hi; [done|].
    by apply index_of_None in Hi.
Qed.

Lemma includes_false needle s : includes needle s = false <-> ~ occurs_in needle s.
Proof. rewrite <- includes_occurs. by destruct (includes needle s). Qed.

(** ** The identifier generator *)

Lemma draw_bounds (r : unit_draw) : (0 <= value r)%Q /\ (value r < 1)%Q.
Proof.
  destruct r as [v Hv]; simpl. apply andb_true_iff in Hv as [H0 H1].
  split; [by apply Qle_bool_iff|].
  apply Qnot_le_lt. intros Hle%Qle_bool_iff. by rewrite Hle in H1.
Qed.

Lemma digit_index_bounds (r : unit_draw) : (0 <= digit_index r < 16)%Z.
Proof.
  destruct (draw_bounds r) as [H0 H1]. unfold digit_index. split.
  - change 0%Z with (Qfloor 0). apply Qfloor_resp_le.
    apply Qmult_le_0_compat; [done | by compute].
  - rewrite Zlt_Qlt. eapply Qle_lt_trans; [apply Qfloor_le|].
    change (inject_Z 16) with (1 * 16)%Q.
    apply Qmult_lt_compat_r; [reflexivity | done].
Qed.

Lemma digit_of_lookup (r : unit_draw) :
  exists c, digit_of r = [c] /\ hex_chars !! Z.to_nat (digit_index r) = Some c.
Proof.
  pose proof (digit_index_bounds r) as [H0 H16]. unfold digit_of, char_at.
  rewrite bool_decide_true by done.
  destruct (hex_chars !! Z.to_nat (digit_index r)) as [c|] eqn:Hc; [by exists c|].
  apply lookup_ge_None in Hc. change (length hex_chars) with 16 in Hc. lia.
Qed.

Lemma digit_of_hex (r : unit_draw) :
  exists c, digit_of r = [c] /\ is_hex c = true.
Proof.
  destruct (digit_of_lookup r) as (c & Hc & Hl). exists c. split; [done|].
  apply bool_decide_eq_true. by eapply list_elem_of_lookup_2.
Qed.

Lemma digits_length E d n : length (digits E d n) = n.
Proof.
  revert d; induction n as [|n IH]; intros d; simpl; [done|].
  destruct (digit_of_hex (random E d)) as (c & -> & _). simpl. by rewrite IH.
Qed.

Lemma digits_hex E d n : forallb is_hex (digits E d n) = true.
Proof.
  revert d; induction n as [|n IH]; intros d; simpl; [done|].
  destruct (digit_of_hex (random E d)) as (c & -> & Hc). simpl. by rewrite Hc, IH.
Qed.

Lemma generateUUID_loop_run E chars n result w :
  chars = hex_chars ->
  generateUUID_loop E chars n result w
  = (Ret (result ++ digits E (draws w) n), advance n w).
Proof.
  intros ->. revert result w; induction n as [|n IH]; intros result w; simpl.
  - rewrite app_nil_r. by destruct w.
  - unfold mbind, prog_bind, math_random at 1. rewrite IH. simpl.
    rewrite <- app_assoc. f_equal.
    unfold advance; simpl. f_equal. lia.
Qed.

Lemma generateUUID_run E w :
  generateUUID E w = (Ret (token E (draws w)), advance 24 w).
Proof. unfold generateUUID. by rewrite generateUUID_loop_run. Qed.

Lemma generate_refs_run E w :
  generate_refs E w
  = (Ret (token E (draws w), token E (24 + draws w)), advance 48 w).
Proof.
  unfold generate_refs, mbind, prog_bind. rewrite generateUUID_run.
  rewrite generateUUID_run. simpl. unfold mret, prog_ret. do 2 f_equal.
Qed.

(** C5: every call of [generateUUID] returns, whatever the draws are, a
    string of exactly 24 characters, each one of [0-9A-F]. *)
Theorem generateUUID_24_hex (E : env) (w : world) :
  exists result w',
    generateUUID E w = (Ret result, w') /\
    length result = 24 /\
    Forall (fun c => c ∈ lit "0123456789ABCDEF") result.
Proof.
  exists (token E (draws w)), (advance 24 w). split; [apply generateUUID_run|].
  split; [apply digits_length|].
  apply Forall_forall. intros c Hc.
  pose proof (digits_hex E (draws w) 24) as Hall.
  rewrite forallb_forall in Hall. apply list_elem_of_In in Hc.
  specialize (Hall c Hc). by apply bool_decide_eq_true in Hall.
Qed.

Lemma hex_chars_NoDup : NoDup hex_chars.
Proof. apply (bool_decide_unpack _). by vm_compute. Qed.

Lemma digit_of_inj (r r' : unit_draw) :
  digit_of r = digit_of r' <-> digit_index r = digit_index r'.
Proof.
  split; [|unfold digit_of; by intros ->].
  destruct (digit_of_lookup r) as (c & -> & Hc).
  destruct (digit_of_lookup r') as (c' & -> & Hc'). intros [= <-].
  pose proof (NoDup_lookup _ _ _ _ hex_chars_NoDup Hc Hc') as Heq.
  pose proof (digit_index_bounds r). pose proof (digit_index_bounds r'). lia.
Qed.

Lemma digits_eq_iff E d d' n :
  digits E d n = digits E d' n <->
  forall i, i < n ->
    digit_index (random E (d + i)) = digit_index (random E (d' + i)).
Proof.
  revert d d'; induction n as [|n IH]; intros d d'; simpl.
  - split; [intros _ i Hi; lia | done].
  - destruct (digit_of_lookup (random E d)) as (c & Hc & _).
    destruct (digit_of_lookup (random E d')) as (c' & Hc' & _).
    split.
    + intros Heq i Hi. rewrite Hc, Hc' in Heq. simplify_eq/=.
      destruct i as [|i].
      * rewrite !Nat.add_0_r. apply digit_of_inj. by rewrite Hc, Hc'.
      * replace (d + S i) with (S d + i) by lia.
        replace (d' + S i) with (S d' + i) by lia.
        apply IH; [done | lia].
    + intros Hall. f_equal.
      * apply digit_of_inj. specialize (Hall 0). rewrite !Nat.add_0_r in Hall.
        apply Hall. lia.
      * apply IH. intros i Hi. specialize (Hall (S i)).
        replace (d + S i) with (S d + i) in Hall by lia.
        replace (d' + S i) with (S d' + i) in Hall by lia.
        apply Hall. lia.
Qed.

(** C9, as the specification states it, fails: when the draws of the second
    call repeat those of the first, the two identifiers of a run are equal. *)
Lemma refs_distinct_fails :
  ~ (forall E w a b w', generate_refs E w = (Ret (a, b), w') -> a <> b).
Proof.
  intros Hdistinct.
  apply (Hdistinct env_zero empty_world _ _ _ (generate_refs_run _ _)).
  reflexivity.
Qed.

(** C9, amended: the two identifiers of a run are strings of 24 characters
    each, and they are equal exactly when each draw of the second call
    selects the same character as the corresponding draw of the first; the
    script does nothing to prevent that. *)
Theorem refs_equal_iff (E : env) (w : world) :
  exists a b w',
    generate_refs E w = (Ret (a, b), w') /\
    length a = 24 /\ length b = 24 /\
    (a = b <->
     forall i, i < 24 ->
       digit_index (random E (draws w + i))
       = digit_index (random E (24 + draws w + i))).
Proof.
  exists (token E (draws w)), (token E (24 + draws w)), (advance 48 w).
  split; [apply generate_refs_run|].
  split; [apply digits_length|]. split; [apply digits_length|].
  apply digits_eq_iff.
Qed.

(** ** The stages as state transformers *)

Lemma createEntitlementsFiles_run E w :
  createEntitlementsFiles E w =
  match write_fails E appEntPath with
  | Some e => (Throw e, w)
  | None =>
    let w1 := logged (Log (LCreated appEntPath)) (stored appEntPath APP_ENTITLEMENTS w) in
    match write_fails E extEntPath with
    | Some e => (Throw e, w1)
    | None =>
      (Ret (appEntPath, extEntPath),
       logged (Log (LCreated extEntPath)) (stored extEntPath EXT_ENTITLEMENTS w1))
    end
  end.
Proof.
  unfold createEntitlementsFiles, mbind, prog_bind, fs_writeFile.
  fold appEntPath extEntPath.
  destruct (write_fails E appEntPath); [done|]. simpl.
  destruct (write_fails E extEntPath); done.
Qed.

Lemma updatePbxproj_run E w :
  updatePbxproj E w =
  match files w !! PBXPROJ_PATH with
  | None => (Throw (ENOENT PBXPROJ_PATH), w)
  | Some content =>
    if includes marker content then (Ret (), logged (Log LAlreadyConfigured) w)
    else
      let content' := patch (token E (draws w)) (token E (24 + draws w)) content in
      match write_fails E PBXPROJ_PATH with
      | Some e => (Throw e, advance 48 w)
      | None =>
        (Ret (), logged (Log (LUpdated PBXPROJ_PATH))
                   (stored PBXPROJ_PATH content' (advance 48 w)))
      end
  end.
Proof.
  unfold updatePbxproj, mbind, prog_bind, fs_readFile.
  destruct (files w !! PBXPROJ_PATH) as [content|]; [|done].
  destruct (includes marker content); [done|].
  rewrite generateUUID_run, generateUUID_run. unfold fs_writeFile. simpl.
  destruct (write_fails E PBXPROJ_PATH); done.
Qed.

Lemma paths_distinct :
  appEntPath <> extEntPath /\ appEntPath <> PBXPROJ_PATH /\ extEntPath <> PBXPROJ_PATH.
Proof. by vm_compute. Qed.

(** ** The orchestrator *)

(** C2: when the project descriptor does not exist the process exits with
    status 1, and no file is created or modified: the files are those of
    the start and nothing was written. *)
Theorem main_missing_descriptor (E : env) (w : world) :
  files w !! PBXPROJ_PATH = None ->
  exists w',
    main E w = (Exit 1, w') /\
    exit_status (main E w).1 = 1%Z /\
    files w' = files w /\
    trace w' = trace w ++ [Log LAdding; LogError (LNotFound XCODE_PROJECT_DIR);
                           LogError LRunConvert] /\
    forall path data, Written path data ∈ trace w' -> Written path data ∈ trace w.
Proof.
  intros Hnone.
  assert (main E w = (Exit 1, logged (LogError LRunConvert)
            (logged (LogError (LNotFound XCODE_PROJECT_DIR)) (logged (Log LAdding) w))))
    as Hrun.
  { unfold main, mbind, prog_bind, fs_pathExists, console_log, console_error, emit.
    simpl. rewrite Hnone. by rewrite bool_decide_false by (by intros [? ?]). }
  eexists. split; [exact Hrun|]. rewrite Hrun. simpl.
  split; [done|]. split; [done|]. split; [by rewrite <- !app_assoc|].
  intros path data Hin. rewrite !elem_of_app in Hin.
  destruct Hin as [[[Hin|Hin]|Hin]|Hin]; [done|..];
    by apply list_elem_of_singleton in Hin.
Qed.

Lemma main_missing_descriptor_witness :
  files empty_world !! PBXPROJ_PATH = None /\
  exists w',
    main env_zero empty_world = (Exit 1, w') /\
    exit_status (main env_zero empty_world).1 = 1%Z /\
    files w' = files empty_world /\
    trace w' = trace empty_world ++ [Log LAdding; LogError (LNotFound XCODE_PROJECT_DIR);
                           LogError LRunConvert] /\
    forall path data, Written path data ∈ trace w' -> Written path data ∈ trace empty_world.
Proof.
  split; [reflexivity|].
  apply (main_missing_descriptor env_zero empty_world). reflexivity.
Defined.

Lemma main_run E w :
  main E w =
  let w0 := logged (Log LAdding) w in
  match files w !! PBXPROJ_PATH with
  | None =>
    (Exit 1, logged (LogError LRunConvert)
               (logged (LogError (LNotFound XCODE_PROJECT_DIR)) w0))
  | Some _ =>
    match createEntitlementsFiles E w0 with
    | (Ret _, w1) =>
      match updatePbxproj E w1 with
      | (Ret _, w2) => (Ret (), foldl (fun w e => logged e w) w2 report)
      | (Throw e, w2) => (Exit 1, logged (LogError (LError e)) w2)
      | (Exit c, w2) => (Exit c, w2)
      end
    | (Throw e, w1) => (Exit 1, logged (LogError (LError e)) w1)
    | (Exit c, w1) => (Exit c, w1)
    end
  end.
Proof.
  unfold main, mbind, prog_bind, fs_pathExists, console_log, console_error, emit,
    try_catch, process_exit.
  simpl. destruct (files w !! PBXPROJ_PATH) as [content|] eqn:Hc.
  - rewrite bool_decide_true by done. simpl.
    destruct (createEntitlementsFiles E _) as [[?|?|?] w1]; [|done..].
    destruct (updatePbxproj E w1) as [[?|?|?] w2]; done.
  - by rewrite bool_decide_false by (by intros [? ?]).
Qed.

(** ** The entitlements documents *)

(** C6: after a run that ends with status 0 both entitlements files exist
    at their fixed paths, whatever was there before, and the content of
    each contains the App Group identifier [group.com.hankun.BewlyCat]
    exactly once. *)
Theorem successful_run_entitlements (E : env) (w w' : world) (o : outcome unit) :
  main E w = (o, w') ->
  exit_status o = 0%Z ->
  APP_GROUP = lit "group.com.hankun.BewlyCat" /\
  (exists app, files w' !! appEntPath = Some app /\
               app = APP_ENTITLEMENTS /\ count_occ APP_GROUP app = 1) /\
  (exists ext, files w' !! extEntPath = Some ext /\
               ext = EXT_ENTITLEMENTS /\ count_occ APP_GROUP ext = 1).
Proof.
  intros Hrun Hok. split; [done|].
  destruct paths_distinct as (Hae & Hap & Hep).
  assert (files w' !! appEntPath = Some APP_ENTITLEMENTS /\
          files w' !! extEntPath = Some EXT_ENTITLEMENTS) as [Happ Hext].
  { rewrite main_run in Hrun. simpl in Hrun.
    destruct (files w !! PBXPROJ_PATH) as [content|] eqn:Hc;
      [|by inversion Hrun; subst].
    rewrite createEntitlementsFiles_run in Hrun.
    destruct (write_fails E appEntPath); [by inversion Hrun; subst|].
    simpl in Hrun.
    destruct (write_fails E extEntPath); [by inversion Hrun; subst|].
    rewrite updatePbxproj_run in Hrun. simpl in Hrun.
    rewrite !lookup_insert_ne in Hrun by done. rewrite Hc in Hrun.
    destruct (includes marker content).
    - inversion Hrun; subst; simpl.
      rewrite lookup_insert_ne, lookup_insert_eq, lookup_insert_eq by done. done.
    - destruct (write_fails E PBXPROJ_PATH); [by inversion Hrun; subst|].
      inversion Hrun; subst; simpl.
      rewrite !(lookup_insert_ne _ PBXPROJ_PATH) by done.
      rewrite lookup_insert_ne, lookup_insert_eq, lookup_insert_eq by done. done. }
  split.
  - exists APP_ENTITLEMENTS. split; [done|]. split; [done|]. by vm_compute.
  - exists EXT_ENTITLEMENTS. split; [done|]. split; [done|]. by vm_compute.
Qed.

Lemma successful_run_entitlements_witness :
  let r := main env_zero (world_of (lit "// !$*UTF8*$!")) in
  exit_status r.1 = 0%Z /\
  APP_GROUP = lit "group.com.hankun.BewlyCat" /\
  (exists app, files r.2 !! appEntPath = Some app /\
               app = APP_ENTITLEMENTS /\ count_occ APP_GROUP app = 1) /\
  (exists ext, files r.2 !! extEntPath = Some ext /\
               ext = EXT_ENTITLEMENTS /\ count_occ APP_GROUP ext = 1).
Proof.
  split; [vm_compute; reflexivity|].
  apply (successful_run_entitlements env_zero (world_of (lit "// !$*UTF8*$!"))
           _ (main env_zero (world_of (lit "// !$*UTF8*$!"))).1).
  - apply surjective_pairing.
  - vm_compute; reflexivity.
Defined.

(** C8, as the specification states it, fails: there is no textual
    difference between the two documents. *)
Lemma entitlements_differ_fails : ~ (APP_ENTITLEMENTS <> EXT_ENTITLEMENTS).
Proof. intros Hdiff. by apply Hdiff. Qed.

(** C8, amended: the two entitlements documents are the same instance of
    one XML template, filled with the App Group identifier; they are equal
    character for character and differ only in the path each one is written
    to. *)
Theorem entitlements_identical :
  APP_ENTITLEMENTS = entitlements_template APP_GROUP /\
  EXT_ENTITLEMENTS = entitlements_template APP_GROUP /\
  APP_ENTITLEMENTS = EXT_ENTITLEMENTS /\
  appEntPath <> extEntPath.
Proof. repeat split; try reflexivity. apply paths_distinct. Qed.

(** ** Searching for a match *)

Lemma exec_None rx s :
  exec rx s = None <-> forall j, match_here rx (drop j s) = None.
Proof.
  induction s as [|c s IH]; simpl.
  - destruct (match_here rx []) eqn:Hm.
    + split; [done|]. intros Hall. specialize (Hall 0). simpl in Hall. congruence.
    + split; [|done]. intros _ j. by rewrite drop_nil.
  - destruct (match_here rx (c :: s)) eqn:Hm.
    + split; [done|]. intros Hall. specialize (Hall 0). simpl in Hall. congruence.
    + destruct (exec rx s) as [[i st]|] eqn:He; simpl.
      * split; [done|]. intros Hall.
        assert (Some (i, st) = @None (nat * mstate)) as Habs; [|done].
        apply IH. intros j. apply (Hall (S j)).
      * split; [|done]. intros _ [|j]; [done|]. simpl. by apply IH.
Qed.

Lemma exec_Some rx s i st :
  exec rx s = Some (i, st) <->
  match_here rx (drop i s) = Some st /\ i <= length s /\
  forall j, j < i -> match_here rx (drop j s) = None.
Proof.
  revert i; induction s as [|c s IH]; intros i; simpl.
  - destruct (match_here rx []) eqn:Hm.
    + split.
      * intros [= <- <-]. simpl. split; [done|]. split; [done|]. intros j Hj; lia.
      * intros (Hst & Hi & _). assert (i = 0) as -> by lia. simpl in Hst. congruence.
    + split; [done|]. intros (Hst & _ & _). rewrite drop_nil in Hst. congruence.
  - destruct (match_here rx (c :: s)) eqn:Hm.
    + split.
      * intros [= <- <-]. simpl. split; [done|]. split; [lia|]. intros j Hj; lia.
      * intros (Hst & Hi & Hlt). destruct i as [|i]; [simpl in Hst; congruence|].
        specialize (Hlt 0 ltac:(lia)). simpl in Hlt. congruence.
    + destruct (exec rx s) as [[i' st']|] eqn:He; simpl.
      * split.
        -- intros [= <- <-]. destruct (proj1 (IH i') eq_refl) as (Hst & Hi & Hlt).
           simpl.
           split; [done|]. split; [lia|]. intros [|j] Hj; [done|].
           simpl. apply Hlt. lia.
        -- intros (Hst & Hi & Hlt). destruct i as [|i]; [simpl in Hst; congruence|].
           simpl in Hst.
           assert (Some (i', st') = Some (i, st)) as [= -> ->]; [|done].
           apply IH. split; [done|]. split; [lia|].
           intros j Hj. apply (Hlt (S j)). lia.
      * split; [done|]. intros (Hst & Hi & Hlt).
        destruct i as [|i]; [simpl in Hst; congruence|]. simpl in Hst.
        rewrite exec_None in He. specialize (He i). congruence.
Qed.

Lemma replace_all_absent rx template str pos s :
  (forall j, match_here rx (drop j s) = None) ->
  replace_all_from rx template str pos s 0 = s.
Proof.
  revert pos; induction s as [|c s IH]; intros pos Hall; simpl.
  - specialize (Hall 0). simpl in Hall. by rewrite Hall.
  - pose proof (Hall 0) as H0. simpl in H0. rewrite H0. f_equal.
    apply IH. intros j. apply (Hall (S j)).
Qed.



(** ** A descriptor without anchors *)



(** ** The matcher on the patterns of the script *)

Lemma take_drop_while p s : take_while p s ++ drop_while p s = s.
Proof. induction s as [|x s IH]; simpl; [done|]. destruct (p x); simpl; by f_equal. Qed.

Lemma take_while_all p s : forallb p (take_while p s) = true.
Proof.
  induction s as [|x s IH]; simpl; [done|].
  destruct (p x) eqn:Hx; simpl; [by rewrite Hx|done].
Qed.

Lemma take_while_length p s :
  take (length s - length (drop_while p s)) s = take_while p s.
Proof.
  rewrite <- (take_drop_while p s) at 1 3. rewrite length_app.
  replace (_ + _ - _) with (length (take_while p s)) by lia.
  apply take_app_length.
Qed.

Lemma span_unique p w t :
  forallb p w = true -> (match t with x :: _ => p x = false | [] => True end) ->
  take_while p (w ++ t) = w /\ drop_while p (w ++ t) = t.
Proof.
  intros Hw Ht. induction w as [|y w IH]; simpl in *.
  - destruct t as [|x t]; [done|]. simpl. by rewrite Ht.
  - apply andb_true_iff in Hw as [Hy Hw]. rewrite Hy.
    destruct (IH Hw) as [-> ->]. done.
Qed.

Lemma take_match_length k t :
  starts_with k t = true -> take (length t - length (drop (length k) t)) t = k.
Proof.
  intros [r ->]%starts_with_prefix. rewrite drop_app_length, length_app.
  replace (_ + _ - _) with (length k) by lia. apply take_app_length.
Qed.

Lemma run_Lit l s caps :
  run (Lit l) (s, caps) = if starts_with l s then [(drop (length l) s, caps)] else [].
Proof.
  revert s; induction l as [|c l IH]; intros s; [done|].
  simpl. destruct s as [|x s]; simpl; [done|].
  rewrite (N.eqb_sym c x). destruct (x =? c)%N; simpl; [|done].
  rewrite IH. by rewrite app_nil_r.
Qed.

Lemma repeat_matcher_Cls p fuel s caps :
  length s <= fuel ->
  repeat_matcher (fun st => run (Cls p) (st.1, clear_groups [] st.2)) fuel (s, caps)
  = star_states p s caps.
Proof.
  revert s; induction fuel as [|fuel IH]; intros s Hlen.
  - destruct s; [done | simpl in Hlen; lia].
  - simpl. destruct s as [|x s]; simpl; [done|].
    destruct (p x); simpl; [|done].
    rewrite bool_decide_true by lia. rewrite app_nil_r.
    rewrite IH by (simpl in Hlen; lia). done.
Qed.

Lemma run_Star_Cls p s caps : run (Star (Cls p)) (s, caps) = star_states p s caps.
Proof. simpl. by apply repeat_matcher_Cls. Qed.

Lemma star_states_bind {B} p (k : mstate -> list B) s caps :
  (forall x t, p x = true -> k (x :: t, caps) = []) ->
  star_states p s caps ≫= k = k (drop_while p s, caps).
Proof.
  intros Hk. induction s as [|x s IH]; simpl.
  - by rewrite app_nil_r.
  - destruct (p x) eqn:Hx.
    + rewrite bind_app, IH. simpl. by rewrite Hk, !app_nil_r.
    + simpl. by rewrite app_nil_r.
Qed.

Lemma run_Plus_space_bind {B} (k : mstate -> list B) s caps :
  (forall x t, is_space x = true -> k (x :: t, caps) = []) ->
  run (Plus (Cls is_space)) (s, caps) ≫= k
  = match take_while is_space s with
    | [] => []
    | _ => k (drop_while is_space s, caps)
    end.
Proof.
  intros Hk. unfold Plus.
  change (run (Seq ?a ?b) ?st) with (run a st ≫= run b).
  destruct s as [|x s]; [done|].
  change (run (Cls is_space) (x :: s, caps))
    with (if is_space x then [(s, caps)] else []).
  cbn [take_while drop_while].
  destruct (is_space x); [|done].
  rewrite bind_singleton, run_Star_Cls. by apply star_states_bind.
Qed.

Lemma starts_solid_not_space k x t :
  starts_solid k = true -> is_space x = true -> starts_with k (x :: t) = false.
Proof.
  destruct k as [|c k]; simpl; [done|]. intros Hc Hx.
  destruct (c =? x)%N eqn:Hcx; [|done].
  apply N.eqb_eq in Hcx as ->. by rewrite Hx in Hc.
Qed.

Lemma match_here_setting l k1 k2 g s :
  starts_solid k1 = true -> starts_solid k2 = true ->
  match_here
    {| pattern :=
         Seq (Group 1 (Lit l))
           (Seq (Group 2 (Plus (Cls is_space))) (Group 3 (Alt (Lit k1) (Lit k2))));
       ngroups := 3; global := g |} s
  = match_setting l k1 k2 s.
Proof.
  intros Hk1 Hk2. unfold match_here, match_setting. simpl pattern. simpl ngroups.
  change (run (Seq ?a ?b) ?st) with (run a st ≫= run b).
  change (run (Group ?n ?r) ?st) with
    ((fun st1 : mstate =>
        (st1.1, <[n - 1 := Some (take (length st.1 - length st1.1) st.1)]> st1.2))
     <$> run r st).
  rewrite run_Lit. destruct (starts_with l s) eqn:Hl; [|done].
  apply starts_with_drop in Hl. set (s1 := drop (length l) s) in *.
  clearbody s1. subst s.
  rewrite fmap_cons, fmap_nil, bind_singleton. cbn [fst snd].
  rewrite length_app.
  replace (length l + length s1 - length s1) with (length l) by lia.
  rewrite take_app_length. change (1 - 1) with 0.
  change (<[0:=Some l]> (replicate 3 None)) with [Some l; None; None].
  change (run (Seq ?a ?b)) with (fun st => run a st ≫= run b).
  change (run (Group ?n ?r)) with
    (fun st : mstate => (fun st1 : mstate =>
        (st1.1, <[n - 1 := Some (take (length st.1 - length st1.1) st.1)]> st1.2))
     <$> run r st).
  cbv beta. rewrite list_fmap_bind.
  rewrite run_Plus_space_bind.
  2:{ intros x t Hx. simpl. rewrite !run_Lit.
      by rewrite !starts_solid_not_space. }
  destruct (take_while is_space s1) as [|y w] eqn:Hw; [done|].
  simpl. rewrite !run_Lit. simpl.
  rewrite take_while_length, Hw.
  destruct (starts_with k1 (drop_while is_space s1)) eqn:H1.
  - simpl. by rewrite take_match_length.
  - simpl. destruct (starts_with k2 (drop_while is_space s1)) eqn:H2; [|done].
    simpl. by rewrite take_match_length.
Qed.

Lemma match_here_group l0 l1 l2 g s :
  starts_solid l1 = true -> starts_solid l2 = true ->
  match_here
    {| pattern :=
         Group 1
           (Seq (Lit l0)
              (Seq (Star (Cls is_space))
                 (Seq (Lit l1) (Seq (Star (Cls is_space)) (Lit l2)))));
       ngroups := 1; global := g |} s
  = match_group l0 l1 l2 s.
Proof.
  intros H1 H2. unfold match_here, match_group. simpl pattern. simpl ngroups.
  change (run (Group ?n ?r) ?st) with
    ((fun st1 : mstate =>
        (st1.1, <[n - 1 := Some (take (length st.1 - length st1.1) st.1)]> st1.2))
     <$> run r st).
  change (run (Seq ?a ?b) ?st) with (run a st ≫= run b).
  rewrite run_Lit. destruct (starts_with l0 s) eqn:Hl0; [|done].
  rewrite bind_singleton.
  change (run (Seq ?a ?b) ?st) with (run a st ≫= run b).
  rewrite run_Star_Cls, star_states_bind.
  2:{ intros x t Hx. change (run (Seq ?a ?b) ?st) with (run a st ≫= run b).
      rewrite run_Lit. by rewrite starts_solid_not_space. }
  change (run (Seq ?a ?b) ?st) with (run a st ≫= run b).
  rewrite run_Lit.
  destruct (starts_with l1 (drop_while is_space (drop (length l0) s))) eqn:Hl1;
    [|done].
  rewrite bind_singleton.
  change (run (Seq ?a ?b) ?st) with (run a st ≫= run b).
  rewrite run_Star_Cls, star_states_bind.
  2:{ intros x t Hx. rewrite run_Lit. by rewrite starts_solid_not_space. }
  rewrite run_Lit.
  destruct (starts_with l2 _) eqn:Hl2; done.
Qed.

Lemma match_here_appBuild s : match_here appBuildPattern s = match_appBuild s.
Proof. by apply match_here_setting. Qed.

Lemma match_here_extBuild s : match_here extBuildPattern s = match_extBuild s.
Proof. by apply match_here_setting. Qed.

Lemma match_here_appGroup s : match_here appGroupPattern s = match_appGroup s.
Proof. by apply match_here_group. Qed.

Lemma match_here_extGroup s : match_here extGroupPattern s = match_extGroup s.
Proof. by apply match_here_group. Qed.

(** ** Replacement templates *)

Lemma get_substitution_plain matched str pos caps t :
  plain t = true -> get_substitution matched str pos caps t = t.
Proof.
  induction t as [|c t IH]; simpl; [done|].
  intros [Hc Ht]%andb_true_iff. rewrite Hc. f_equal. by apply IH.
Qed.

Lemma get_substitution_plain_app matched str pos caps t1 t2 :
  plain t1 = true ->
  get_substitution matched str pos caps (t1 ++ t2)
  = t1 ++ get_substitution matched str pos caps t2.
Proof.
  induction t1 as [|c t IH]; simpl; [done|].
  intros [Hc Ht]%andb_true_iff. rewrite Hc. f_equal. by apply IH.
Qed.

Lemma plain_app t1 t2 : plain (t1 ++ t2) = plain t1 && plain t2.
Proof. apply forallb_app. Qed.

Lemma hex_forallb (P : N -> bool) u :
  forallb P hex_chars = true -> forallb is_hex u = true -> forallb P u = true.
Proof.
  intros HP Hu. rewrite forallb_forall in *. intros c Hc.
  specialize (Hu c Hc). apply bool_decide_eq_true in Hu.
  apply HP. by apply list_elem_of_In.
Qed.

Lemma token_forallb (P : N -> bool) E d :
  forallb P hex_chars = true -> forallb P (token E d) = true.
Proof. intros HP. eapply hex_forallb; [done | apply digits_hex]. Qed.

Lemma appBuildTemplate_expand matched str pos g1 g2 g3 :
  get_substitution matched str pos [Some g1; Some g2; Some g3] appBuildTemplate
  = g1 ++ g2 ++ appBuildLine ++ g2 ++ g3.
Proof.
  trans (g1 ++ g2 ++ appBuildLine ++ g2 ++ g3 ++ []); [|by rewrite app_nil_r].
  vm_compute. reflexivity.
Qed.

Lemma extBuildTemplate_expand matched str pos g1 g2 g3 :
  get_substitution matched str pos [Some g1; Some g2; Some g3] extBuildTemplate
  = g1 ++ g2 ++ extBuildLine ++ g2 ++ g3.
Proof.
  trans (g1 ++ g2 ++ extBuildLine ++ g2 ++ g3 ++ []); [|by rewrite app_nil_r].
  vm_compute. reflexivity.
Qed.

Lemma appGroupTemplate_expand matched str pos g1 u :
  plain u = true ->
  get_substitution matched str pos [Some g1] (appGroupTemplate u)
  = g1 ++ appGroupChild u.
Proof.
  intros Hu. unfold appGroupTemplate, appGroupChild.
  change (lit "$1" ++ nl ++ ?t) with (36%N :: 49%N :: 10%N :: t).
  cbn [get_substitution]. simpl. do 6 f_equal.
  rewrite get_substitution_plain_app by done. f_equal.
Qed.

Lemma extGroupTemplate_expand matched str pos g1 u :
  plain u = true ->
  get_substitution matched str pos [Some g1] (extGroupTemplate u)
  = g1 ++ extGroupChild u.
Proof.
  intros Hu. unfold extGroupTemplate, extGroupChild.
  change (lit "$1" ++ nl ++ ?t) with (36%N :: 49%N :: 10%N :: t).
  cbn [get_substitution]. simpl. do 6 f_equal.
  rewrite get_substitution_plain_app by done. f_equal.
Qed.

Lemma fileRefAddition_lines a b :
  fileRefAddition a b = fileRefLines a b ++ fileRefEndMarker.
Proof.
  unfold fileRefAddition, fileRefLines, fileRefMiddle, fileRefTail.
  by rewrite <- !app_assoc.
Qed.

Lemma fileRefAddition_plain a b :
  plain a = true -> plain b = true -> plain (fileRefAddition a b) = true.
Proof.
  intros Ha Hb. unfold fileRefAddition. rewrite !plain_app, Ha, Hb. reflexivity.
Qed.

(** ** The words of the patterns *)

Lemma take_app_minus (s m r : jsstring) :
  s = m ++ r -> take (length s - length r) s = m.
Proof.
  intros ->. rewrite length_app.
  replace (_ + _ - _) with (length m) by lia. apply take_app_length.
Qed.

Lemma match_setting_Some l k1 k2 s rest caps :
  match_setting l k1 k2 s = Some (rest, caps) ->
  exists w k, s = l ++ w ++ k ++ rest /\ caps = [Some l; Some w; Some k] /\
              w <> [] /\ forallb is_space w = true /\ (k = k1 \/ k = k2).
Proof.
  unfold match_setting. destruct (starts_with l s) eqn:Hl; [|done].
  apply starts_with_drop in Hl. set (s1 := drop (length l) s) in *.
  pose proof (take_drop_while is_space s1) as Hs1.
  pose proof (take_while_all is_space s1) as Hw.
  destruct (take_while is_space s1) as [|y w] eqn:Htw; [done|].
  destruct (starts_with k1 (drop_while is_space s1)) eqn:H1.
  - intros [= <- <-]. exists (y :: w), k1. apply starts_with_drop in H1.
    split; [by rewrite Hl, <- Hs1, H1 at 1|]. by auto.
  - destruct (starts_with k2 (drop_while is_space s1)) eqn:H2; [|done].
    intros [= <- <-]. exists (y :: w), k2. apply starts_with_drop in H2.
    split; [by rewrite Hl, <- Hs1, H2 at 1|]. by auto.
Qed.

Lemma match_setting_word l k1 k2 m r :
  starts_solid k1 = true -> starts_solid k2 = true ->
  setting_word l k1 k2 m -> is_Some (match_setting l k1 k2 (m ++ r)).
Proof.
  intros Hk1 Hk2 (w & k & -> & Hne & Hw & Hk). unfold match_setting.
  rewrite <- !app_assoc, starts_with_app, drop_app_length.
  assert (starts_solid k = true) as Hks by (by destruct Hk as [-> | ->]).
  destruct (span_unique is_space w (k ++ r) Hw) as [-> ->].
  { destruct k as [|c k]; [done|]. simpl in *. by apply negb_true_iff. }
  destruct w as [|y w]; [done|].
  destruct Hk as [-> | ->].
  - by rewrite starts_with_app.
  - destruct (starts_with k1 (k2 ++ r)); [done|]. by rewrite starts_with_app.
Qed.

Lemma match_group_Some l0 l1 l2 s rest caps :
  match_group l0 l1 l2 s = Some (rest, caps) ->
  exists m, s = m ++ rest /\ caps = [Some m] /\ group_word l0 l1 l2 m.
Proof.
  unfold match_group. destruct (starts_with l0 s) eqn:H0; [|done].
  apply starts_with_drop in H0. set (s1 := drop (length l0) s) in *.
  destruct (starts_with l1 (drop_while is_space s1)) eqn:H1; [|done].
  apply starts_with_drop in H1.
  set (s3 := drop (length l1) (drop_while is_space s1)) in *.
  destruct (starts_with l2 (drop_while is_space s3)) eqn:H2; [|done].
  apply starts_with_drop in H2.
  set (s5 := drop (length l2) (drop_while is_space s3)) in *.
  intros [= <- <-].
  pose proof (take_drop_while is_space s1) as Hs1.
  pose proof (take_drop_while is_space s3) as Hs3.
  set (w1 := take_while is_space s1) in *.
  set (w2 := take_while is_space s3) in *.
  assert (s = (l0 ++ w1 ++ l1 ++ w2 ++ l2) ++ s5) as Hs.
  { rewrite H0, <- Hs1, H1, <- Hs3, H2. by rewrite <- !app_assoc. }
  exists (l0 ++ w1 ++ l1 ++ w2 ++ l2). split; [done|]. split.
  - by rewrite (take_app_minus _ _ _ Hs).
  - exists w1, w2. split; [done|]. split; apply take_while_all.
Qed.

Lemma match_group_word l0 l1 l2 m r :
  starts_solid l1 = true -> starts_solid l2 = true ->
  group_word l0 l1 l2 m -> match_group l0 l1 l2 (m ++ r) = Some (r, [Some m]).
Proof.
  intros H1 H2 (w1 & w2 & -> & Hw1 & Hw2). unfold match_group.
  rewrite <- !app_assoc, starts_with_app, drop_app_length.
  destruct (span_unique is_space w1 (l1 ++ w2 ++ l2 ++ r) Hw1) as [_ ->].
  { destruct l1 as [|c l1]; [done|]. simpl in *. by apply negb_true_iff. }
  rewrite starts_with_app, drop_app_length.
  destruct (span_unique is_space w2 (l2 ++ r) Hw2) as [_ ->].
  { destruct l2 as [|c l2]; [done|]. simpl in *. by apply negb_true_iff. }
  rewrite starts_with_app, drop_app_length. do 4 f_equal.
  apply take_app_minus. by rewrite <- !app_assoc.
Qed.

(** ** The replacements of the patcher *)

Lemma replace_all_skip rx template str k s pos :
  k <= length s ->
  replace_all_from rx template str pos s k
  = replace_all_from rx template str (pos + k) (drop k s) 0.
Proof.
  revert s pos; induction k as [|k IH]; intros s pos Hk.
  - by rewrite Nat.add_0_r.
  - destruct s as [|c s]; [simpl in Hk; lia|]. simpl in Hk.
    change (replace_all_from rx template str pos (c :: s) (S k))
      with (replace_all_from rx template str (S pos) s k).
    rewrite IH by lia. simpl. f_equal. lia.
Qed.

Lemma replace_all_hit rx template str pos s rest caps :
  match_here rx s = Some (rest, caps) ->
  length rest < length s ->
  replace_all_from rx template str pos s 0
  = get_substitution (take (length s - length rest) s) str pos caps template
    ++ replace_all_from rx template str (pos + (length s - length rest))
         (drop (length s - length rest) s) 0.
Proof.
  intros Hm Hlt. destruct s as [|c s]; [simpl in Hlt; lia|].
  cbn [replace_all_from]. rewrite Hm. cbn [fst snd]. f_equal.
  destruct (length (c :: s) - length rest) as [|k] eqn:Hn; [lia|].
  rewrite replace_all_skip by (simpl in Hn; lia). simpl. f_equal. lia.
Qed.

Lemma replace_all_miss rx template str pos c s :
  match_here rx (c :: s) = None ->
  replace_all_from rx template str pos (c :: s) 0
  = c :: replace_all_from rx template str (S pos) s 0.
Proof. intros Hm. cbn [replace_all_from]. by rewrite Hm. Qed.

Section SettingReplace.

Variables (rx : RegExp) (template l k1 k2 line : jsstring).
Hypothesis rx_match : forall s, match_here rx s = match_setting l k1 k2 s.
Hypothesis template_expand : forall matched str pos g1 g2 g3,
  get_substitution matched str pos [Some g1; Some g2; Some g3] template
  = g1 ++ g2 ++ line ++ g2 ++ g3.

Lemma replace_all_settings_patched s str pos :
  settings_patched l k1 k2 line s (replace_all_from rx template str pos s 0).
Proof.
  remember (length s) as n eqn:Hn. revert s str pos Hn.
  induction n as [n IH] using lt_wf_ind. intros s str pos ->.
  destruct (match_setting l k1 k2 s) as [[rest caps]|] eqn:Hm.
  - destruct (match_setting_Some _ _ _ _ _ _ Hm) as (w & k & Hs & -> & Hne & _ & _).
    assert (length s = length (l ++ w ++ k) + length rest) as Hlen
      by (rewrite Hs at 1; rewrite !length_app; lia).
    assert (0 < length w) by (destruct w; [done | simpl; lia]).
    rewrite (replace_all_hit _ _ _ _ _ rest [Some l; Some w; Some k])
      by (rewrite ?rx_match, ?length_app in *; done || lia).
    rewrite template_expand.
    replace (drop (length s - length rest) s) with rest.
    2:{ replace (_ - _) with (length (l ++ w ++ k)) by lia.
        assert (s = (l ++ w ++ k) ++ rest) as ->
          by (rewrite Hs at 1; by rewrite <- !app_assoc).
        by rewrite drop_app_length. }
    rewrite <- !app_assoc. apply (sp_hit _ _ _ _ s w k rest); [done|].
    eapply IH; [|done]. rewrite !length_app in Hlen. lia.
  - destruct s as [|c s].
    + cbn [replace_all_from]. rewrite rx_match, Hm. constructor.
    + rewrite replace_all_miss by (by rewrite rx_match).
      apply sp_skip; [done|]. eapply IH; [|done]. simpl; lia.
Qed.

End SettingReplace.

Lemma addAppBuildSetting_patched s :
  settings_patched appBundleLine (lit "PRODUCT_NAME") (lit "REGISTER_APP_GROUPS")
    appBuildLine s (addAppBuildSetting s).
Proof.
  apply (replace_all_settings_patched appBuildPattern appBuildTemplate).
  - apply match_here_appBuild.
  - apply appBuildTemplate_expand.
Qed.

Lemma addExtBuildSetting_patched s :
  settings_patched extBundleLine (lit "PRODUCT_NAME") (lit "SKIP_INSTALL")
    extBuildLine s (addExtBuildSetting s).
Proof.
  apply (replace_all_settings_patched extBuildPattern extBuildTemplate).
  - apply match_here_extBuild.
  - apply extBuildTemplate_expand.
Qed.

Section GroupReplace.

Variables (rx : RegExp) (template l0 l1 l2 child : jsstring).
Hypothesis rx_match : forall s, match_here rx s = match_group l0 l1 l2 s.
Hypothesis rx_first : global rx = false.
Hypothesis template_expand : forall matched str pos g1,
  get_substitution matched str pos [Some g1] template = g1 ++ child.

Lemma replace_first_child_inserted s :
  child_inserted rx (group_word l0 l1 l2) child s (replace_regexp rx template s).
Proof.
  unfold replace_regexp. rewrite rx_first.
  destruct (exec rx s) as [[pos [rest caps]]|] eqn:He.
  - apply exec_Some in He as (Hm & Hpos & Hlt).
    pose proof Hm as Hm'. rewrite rx_match in Hm'.
    destruct (match_group_Some _ _ _ _ _ _ Hm') as (m & Hd & -> & HW).
    assert (s = take pos s ++ m ++ rest) as Hs
      by (by rewrite <- Hd, take_drop).
    assert (length s = pos + length m + length rest) as Hlen.
    { rewrite Hs at 1. rewrite !length_app, length_take. lia. }
    cbn [fst snd].
    replace (length s - pos - length rest) with (length m) by lia.
    rewrite Hd, take_app_length, template_expand.
    replace (drop (pos + length m) s) with rest.
    2:{ rewrite <- drop_drop, Hd. by rewrite drop_app_length. }
    rewrite Hs at 1. rewrite <- app_assoc. constructor.
    + by rewrite <- Hd.
    + done.
    + intros i Hi. rewrite <- Hs. apply Hlt. rewrite length_take in Hi. lia.
  - constructor. by apply exec_None.
Qed.

End GroupReplace.

Lemma addAppGroupChild_inserted u s :
  plain u = true ->
  child_inserted appGroupPattern (group_word appGroupHeader isaGroup childrenOpen)
    (appGroupChild u) s (addAppGroupChild u s).
Proof.
  intros Hu.
  apply (replace_first_child_inserted _ _ appGroupHeader isaGroup childrenOpen).
  - apply match_here_appGroup.
  - done.
  - intros. by apply appGroupTemplate_expand.
Qed.

Lemma addExtGroupChild_inserted u s :
  plain u = true ->
  child_inserted extGroupPattern (group_word extGroupHeader isaGroup childrenOpen)
    (extGroupChild u) s (addExtGroupChild u s).
Proof.
  intros Hu.
  apply (replace_first_child_inserted _ _ extGroupHeader isaGroup childrenOpen).
  - apply match_here_extGroup.
  - done.
  - intros. by apply extGroupTemplate_expand.
Qed.

Lemma token_plain E d : plain (token E d) = true.
Proof. by apply token_forallb. Qed.

Lemma token_length E d : length (token E d) = 24.
Proof. apply digits_length. Qed.

(** ** Group membership *)



(** On a descriptor with each header twice, the second header of each group
    receives no child. *)
Example two_headers_patched :
  files (updatePbxproj env_cycle (world_of two_headers)).2 !! PBXPROJ_PATH
  = Some
      (lit "/* BewlyCat */ = {isa = PBXGroup; children = ("
       ++ appGroupChild (lit "0123456789ABCDEF01234567")
       ++ lit "); /* BewlyCat */ = {isa = PBXGroup; children = (); "
       ++ lit "/* BewlyCat Extension */ = {isa = PBXGroup; children = ("
       ++ extGroupChild (lit "89ABCDEF0123456789ABCDEF")
       ++ lit "); /* BewlyCat Extension */ = {isa = PBXGroup; children = ();").
Proof. vm_compute. reflexivity. Qed.

(** ** Insertions preserve what they do not cut *)

Lemma occurs_in_occurs needle s : occurs_in needle s <-> occurs (eq needle) s.
Proof.
  split.
  - intros (a & b & ->). by exists a, needle, b.
  - intros (a & m & b & -> & <-). by exists a, b.
Qed.

Lemma occurs_insert1 Ctx W s s' :
  safe Ctx W -> insert1 Ctx s s' -> occurs W s -> occurs W s'.
Proof.
  intros Hsafe (a & b & block & -> & -> & Hctx) (a0 & m & b0 & Heq & HW).
  apply app_eq_app in Heq as [z [[-> Hz] | [-> Hz]]].
  - (* the word starts at or before the place *)
    symmetry in Hz. apply app_eq_app in Hz as [z' [[-> Hz'] | [-> Hz']]].
    + (* the place lies behind the word *)
      subst b0. exists a0, m, (z' ++ block ++ b). by rewrite <- !app_assoc.
    + subst b. destruct z as [|x z].
      * exists (a0 ++ block), z', b0. split; [|done].
        simpl. by rewrite app_nil_r, <- !app_assoc.
      * destruct z' as [|y z'].
        -- exists a0, (x :: z), (block ++ b0). split; [|by rewrite app_nil_r in HW].
           by rewrite <- !app_assoc.
        -- exfalso. by apply (Hsafe a0 (x :: z) (y :: z') b0).
  - (* the place lies in front of the word *)
    subst b. exists (a ++ block ++ z), m, b0. by rewrite <- !app_assoc.
Qed.

Lemma occurs_inserted Ctx W s s' :
  safe Ctx W -> rtc (insert1 Ctx) s s' -> occurs W s -> occurs W s'.
Proof.
  intros Hsafe Hrtc. induction Hrtc as [|s s1 s' H1 _ IH]; [done|].
  intros Hocc. apply IH. by eapply occurs_insert1.
Qed.

Lemma insert1_sublist Ctx s s' : insert1 Ctx s s' -> s `sublist_of` s'.
Proof.
  intros (a & b & block & -> & -> & _).
  apply sublist_app; [done|]. by apply sublist_inserts_l.
Qed.

Lemma inserted_sublist Ctx s s' : rtc (insert1 Ctx) s s' -> s `sublist_of` s'.
Proof.
  induction 1 as [|s s1 s' H1 _ IH]; [done|].
  etrans; [by eapply insert1_sublist | done].
Qed.

Lemma inserted_lift Ctx p s s' :
  (forall a b, Ctx a b -> Ctx (p ++ a) b) ->
  rtc (insert1 Ctx) s s' -> rtc (insert1 Ctx) (p ++ s) (p ++ s').
Proof.
  intros Hext. induction 1 as [|s s1 s' H1 _ IH]; [done|].
  eapply rtc_l; [|exact IH].
  destruct H1 as (a & b & block & -> & -> & Hctx).
  exists (p ++ a), b, block. rewrite <- !app_assoc. by auto.
Qed.

Lemma ctx_setting_lift l k1 k2 p a b :
  ctx_setting l k1 k2 a b -> ctx_setting l k1 k2 (p ++ a) b.
Proof.
  intros (a' & w & k & r & -> & Hne & Hw & Hk & ->).
  exists (p ++ a'), w, k, r. by rewrite <- !app_assoc.
Qed.

Lemma settings_patched_inserted l k1 k2 line s s' :
  settings_patched l k1 k2 line s s' ->
  rtc (insert1 (ctx_setting l k1 k2)) s s'.
Proof.
  induction 1 as [|c s s' _ _ IH|s w k rest rest' Hm _ IH]; [done|..].
  - apply (inserted_lift _ [c]); [|done]. intros. by apply ctx_setting_lift.
  - destruct (match_setting_Some _ _ _ _ _ _ Hm) as (w' & k' & -> & [= <- <-] & Hne & Hw & Hk).
    apply (rtc_r _ (l ++ w ++ k ++ rest')).
    + replace (l ++ w ++ k ++ rest) with ((l ++ w ++ k) ++ rest)
        by (by rewrite <- !app_assoc).
      replace (l ++ w ++ k ++ rest') with ((l ++ w ++ k) ++ rest')
        by (by rewrite <- !app_assoc).
      apply inserted_lift; [|exact IH].
      intros. by apply ctx_setting_lift.
    + exists (l ++ w), (k ++ rest'), (line ++ w). rewrite <- !app_assoc.
      split; [done|]. split; [done|].
      exists [], w, k, rest'. by auto.
Qed.

Lemma child_inserted_insert1 rx l0 l1 l2 child s s' :
  child_inserted rx (group_word l0 l1 l2) child s s' ->
  s = s' \/ insert1 (ctx_after l2) s s'.
Proof.
  destruct 1 as [s _|before m after _ (w1 & w2 & -> & _ & _) _]; [by left|].
  right. exists (before ++ l0 ++ w1 ++ l1 ++ w2 ++ l2), after, child.
  rewrite <- !app_assoc. split; [done|]. split; [done|].
  exists (before ++ l0 ++ w1 ++ l1 ++ w2). by rewrite <- !app_assoc.
Qed.

Lemma child_inserted_inserted rx l0 l1 l2 child s s' :
  child_inserted rx (group_word l0 l1 l2) child s s' ->
  rtc (insert1 (ctx_after l2)) s s'.
Proof.
  intros [-> | H1]%child_inserted_insert1; [done|]. by apply rtc_once.
Qed.

Lemma index_of_split needle s pos :
  index_of needle s = Some pos ->
  s = take pos s ++ needle ++ drop (pos + length needle) s.
Proof.
  intros (a & b & -> & <-)%index_of_Some.
  rewrite take_app_length, <- drop_drop, drop_app_length, drop_app_length. done.
Qed.

Lemma addFileReferences_spec a b s :
  plain a = true -> plain b = true ->
  (includes fileRefEndMarker s = false /\ addFileReferences a b s = s) \/
  (exists before after,
     s = before ++ fileRefEndMarker ++ after /\
     addFileReferences a b s
     = before ++ fileRefLines a b ++ fileRefEndMarker ++ after).
Proof.
  intros Ha Hb. unfold addFileReferences, replace_string, includes.
  destruct (index_of fileRefEndMarker s) as [pos|] eqn:Hi.
  - right. exists (take pos s), (drop (pos + length fileRefEndMarker) s).
    split; [by apply index_of_split|].
    rewrite get_substitution_plain by (by apply fileRefAddition_plain).
    by rewrite fileRefAddition_lines, <- app_assoc.
  - left. split; [|done]. apply bool_decide_eq_false. by intros [? ?].
Qed.

Lemma addFileReferences_inserted a b s :
  plain a = true -> plain b = true ->
  rtc (insert1 (ctx_before fileRefEndMarker)) s (addFileReferences a b s).
Proof.
  intros Ha Hb.
  destruct (addFileReferences_spec a b s Ha Hb)
    as [[_ ->] | (before & after & Hs & ->)]; [done|].
  apply rtc_once. exists before, (fileRefEndMarker ++ after), (fileRefLines a b).
  split; [done|]. split; [done|]. by exists after.
Qed.

(** ** Adjacent characters *)

Lemma begins_on_app Q x y :
  begins_on Q (x ++ y) = match x with [] => begins_on Q y | _ => begins_on Q x end.
Proof. by destruct x. Qed.

Lemma ends_on_snoc P x c : ends_on P (x ++ [c]) = P c.
Proof. unfold ends_on. by rewrite last_snoc. Qed.

Lemma ends_on_app_r P x y : y <> [] -> ends_on P (x ++ y) = ends_on P y.
Proof.
  intros Hy. unfold ends_on.
  destruct (exists_last Hy) as (y' & c & ->).
  by rewrite app_assoc, !last_snoc.
Qed.

Lemma has_pair_app P Q x y :
  has_pair P Q (x ++ y)
  = has_pair P Q x || has_pair P Q y || ends_on P x && begins_on Q y.
Proof.
  induction x as [|a x IH]; [simpl; by destruct (has_pair P Q y)|].
  change ((a :: x) ++ y) with (a :: (x ++ y)). cbn [has_pair].
  rewrite IH, begins_on_app. destruct x as [|b x].
  - unfold ends_on. simpl.
    destruct (P a), (begins_on Q y), (has_pair P Q y); done.
  - replace (ends_on P (a :: b :: x)) with (ends_on P (b :: x)) by done.
    destruct (P a), (begins_on Q (b :: x)), (has_pair P Q (b :: x)),
      (has_pair P Q y); done.
Qed.

Lemma has_pair_avoid P Q u :
  forallb (fun c => negb (P c)) u = true ->
  has_pair P Q u = false /\ ends_on P u = false.
Proof.
  induction u as [|a u IH]; [done|]. simpl. intros [Ha Hu]%andb_true_iff.
  destruct (IH Hu) as [IH1 IH2]. apply negb_true_iff in Ha.
  split; [by rewrite Ha, IH1|].
  destruct u as [|b u]; [by unfold ends_on; simpl | done].
Qed.

Lemma has_pair_run P Q x u y :
  forallb (fun c => negb (P c)) u = true ->
  ends_on P x = false ->
  has_pair P Q (x ++ u ++ y) = has_pair P Q x || has_pair P Q y.
Proof.
  intros Hu Hx. destruct (has_pair_avoid P Q u Hu) as [H1 H2].
  by rewrite !has_pair_app, H1, H2, Hx, !andb_false_l, !orb_false_r.
Qed.

Lemma has_pair_here P Q x c0 c1 y :
  P c0 = true -> Q c1 = true -> has_pair P Q (x ++ c0 :: c1 :: y) = true.
Proof.
  intros H0 H1. rewrite has_pair_app. simpl. rewrite H0, H1. simpl.
  by rewrite orb_true_r.
Qed.

Lemma spaces_avoid c w :
  is_space c = false -> forallb is_space w = true ->
  forallb (fun x => negb (c =? x)%N) w = true.
Proof.
  intros Hc Hw. rewrite forallb_forall in *. intros x Hx.
  apply negb_true_iff, N.eqb_neq. intros <-. specialize (Hw _ Hx). congruence.
Qed.

(** ** Places that cut no word *)

Lemma safe_before c0 c1 beta W :
  (forall m, W m -> cut_free c0 c1 m = true) ->
  safe (ctx_before (c0 :: c1 :: beta)) W.
Proof.
  intros Hfree a0 m1 m2 b0 Hm1 Hm2 HW [r Hr].
  specialize (Hfree _ HW). unfold cut_free in Hfree.
  apply andb_true_iff in Hfree as [Hp He].
  apply negb_true_iff in Hp, He.
  destruct m1 as [|x m1]; [done|]. destruct m2 as [|y m2]; [done|].
  simpl in Hr. injection Hr as -> Hr. simpl in Hp, He.
  destruct m2 as [|z m2].
  - by rewrite ends_on_snoc, N.eqb_refl in He.
  - simpl in Hr. injection Hr as -> Hr.
    by rewrite has_pair_here in Hp by apply N.eqb_refl.
Qed.

Lemma safe_setting l c0 c1 k1 d0 d1 k2 W :
  (forall m, W m -> cut_free c0 c1 m = true /\ cut_free d0 d1 m = true) ->
  safe (ctx_setting l (c0 :: c1 :: k1) (d0 :: d1 :: k2)) W.
Proof.
  intros Hfree a0 m1 m2 b0 Hm1 Hm2 HW (a' & w & k & r & _ & _ & _ & Hk & Hb).
  destruct Hk as [-> | ->].
  - apply (safe_before c0 c1 k1 W (fun m H => proj1 (Hfree m H)) a0 m1 m2 b0);
      [done..|]. by exists r.
  - apply (safe_before d0 d1 k2 W (fun m H => proj2 (Hfree m H)) a0 m1 m2 b0);
      [done..|]. by exists r.
Qed.

Lemma safe_after alpha c W :
  (forall m, W m -> no_char c (removelast m) = true) ->
  safe (ctx_after (alpha ++ [c])) W.
Proof.
  intros Hfree a0 m1 m2 b0 Hm1 Hm2 HW [r Hr].
  specialize (Hfree _ HW). unfold no_char in Hfree.
  rewrite removelast_app in Hfree by done.
  rewrite forallb_app in Hfree. apply andb_true_iff in Hfree as [Hfree _].
  destruct (exists_last Hm1) as (m1' & x & ->).
  rewrite !app_assoc in Hr. apply app_inj_tail in Hr as [_ ->].
  rewrite forallb_app in Hfree. simpl in Hfree.
  by rewrite N.eqb_refl, andb_false_r in Hfree.
Qed.

Lemma tail_app_ne (l r : jsstring) : l <> [] -> tail (l ++ r) = tail l ++ r.
Proof. by destruct l. Qed.

Lemma piece_free_run c0 c1 x u y :
  forallb (fun c => negb (c0 =? c)%N) u = true ->
  piece_free c0 c1 x = true -> piece_free c0 c1 y = true -> y <> [] ->
  piece_free c0 c1 (x ++ u ++ y) = true.
Proof.
  unfold piece_free. intros Hu [Hx1 Hx2]%andb_true_iff [Hy1 Hy2]%andb_true_iff Hy.
  apply negb_true_iff in Hx1, Hx2, Hy1, Hy2.
  rewrite has_pair_run, Hx1, Hy1 by done.
  rewrite app_assoc, ends_on_app_r, Hy2 by done. done.
Qed.

Lemma app_ne_r (x y : jsstring) : y <> [] -> x ++ y <> [].
Proof. intros Hy Hxy. by apply app_eq_nil in Hxy as [_ ?]. Qed.

Lemma cut_free_setting_word c0 c1 l k1 k2 m :
  is_space c0 = false ->
  piece_free c0 c1 (tail l) = true -> l <> [] ->
  piece_free c0 c1 k1 = true -> k1 <> [] ->
  piece_free c0 c1 k2 = true -> k2 <> [] ->
  setting_word l k1 k2 m -> cut_free c0 c1 m = true.
Proof.
  intros Hc Hl Hne H1 Hn1 H2 Hn2 (w & k & -> & _ & Hw & Hk).
  unfold cut_free. rewrite tail_app_ne by done.
  apply (piece_free_run c0 c1 (tail l) w k); [by apply spaces_avoid | done | |];
    by destruct Hk as [-> | ->].
Qed.

Lemma cut_free_group_word c0 c1 l0 l1 l2 m :
  is_space c0 = false ->
  piece_free c0 c1 (tail l0) = true -> l0 <> [] ->
  piece_free c0 c1 l1 = true -> l1 <> [] ->
  piece_free c0 c1 l2 = true -> l2 <> [] ->
  group_word l0 l1 l2 m -> cut_free c0 c1 m = true.
Proof.
  intros Hc H0 Hn0 H1 Hn1 H2 Hn2 (w1 & w2 & -> & Hw1 & Hw2).
  unfold cut_free. rewrite tail_app_ne by done.
  apply piece_free_run; [by apply spaces_avoid | done | |].
  - apply piece_free_run; [by apply spaces_avoid | done..].
  - by apply app_ne_r, app_ne_r.
Qed.

Lemma no_char_removelast c m : no_char c m = true -> no_char c (removelast m) = true.
Proof.
  unfold no_char. rewrite !forallb_forall. intros Hm x Hx. apply Hm.
  clear Hm. induction m as [|y m IH]; [done|]. simpl in Hx.
  destruct m as [|z m]; [done|]. destruct Hx as [-> | Hx]; [by left|].
  right. by apply IH.
Qed.

Lemma no_char_app c x y : no_char c (x ++ y) = no_char c x && no_char c y.
Proof. apply forallb_app. Qed.


(** ** The places of the patcher and the words they spare *)


Lemma safe_fileRef_app_setting : safe ctx_fileRef app_setting_word.
Proof.
  apply (safe_before 47 42 (lit " End PBXFileReference section */")).
  intros m Hm. eapply cut_free_setting_word; [..|exact Hm]; by_compute.
Qed.


Lemma safe_fileRef_app_group : safe ctx_fileRef app_group_word.
Proof.
  apply (safe_before 47 42 (lit " End PBXFileReference section */")).
  intros m Hm. eapply cut_free_group_word; [..|exact Hm]; by_compute.
Qed.


Lemma safe_appBuild_app_group : safe ctx_appBuild app_group_word.
Proof.
  apply (safe_setting _ 80 82 (lit "ODUCT_NAME") 82 69 (lit "GISTER_APP_GROUPS")).
  intros m Hm. split; (eapply cut_free_group_word; [..|exact Hm]; by_compute).
Qed.


Lemma safe_extBuild_app_group : safe ctx_extBuild app_group_word.
Proof.
  apply (safe_setting _ 80 82 (lit "ODUCT_NAME") 83 75 (lit "IP_INSTALL")).
  intros m Hm. split; (eapply cut_free_group_word; [..|exact Hm]; by_compute).
Qed.



Lemma hex_avoid c u :
  no_char c hex_chars = true -> forallb is_hex u = true -> no_char c u = true.
Proof. apply hex_forallb. Qed.

Lemma cut_free_fileRefLines c0 c1 a b :
  no_char c0 hex_chars = true ->
  piece_free c0 c1 tab = true ->
  piece_free c0 c1 fileRefMiddle = true ->
  piece_free c0 c1 fileRefTail = true ->
  forallb is_hex a = true -> forallb is_hex b = true ->
  cut_free c0 c1 (fileRefLines a b) = true.
Proof.
  intros Hc Ht Hm He Ha Hb. unfold cut_free, fileRefLines.
  change (tail ((tab ++ tab) ++ ?r)) with (tab ++ r).
  apply piece_free_run; [by apply hex_avoid | done | |].
  - apply piece_free_run; [by apply hex_avoid | done..].
  - by apply app_ne_r, app_ne_r.
Qed.

Lemma no_char_fileRefLines c a b :
  no_char c hex_chars = true ->
  no_char c (tab ++ tab ++ fileRefMiddle ++ fileRefTail) = true ->
  forallb is_hex a = true -> forallb is_hex b = true ->
  no_char c (fileRefLines a b) = true.
Proof.
  intros Hc Hl Ha Hb. unfold fileRefLines.
  rewrite !no_char_app in *.
  rewrite (hex_avoid c a), (hex_avoid c b) by done.
  destruct (no_char c tab), (no_char c fileRefMiddle), (no_char c fileRefTail); done.
Qed.

Section Refs.

Variables a b : jsstring.
Hypothesis a_hex : forallb is_hex a = true.
Hypothesis b_hex : forallb is_hex b = true.

Lemma safe_appBuild_fileRefLines : safe ctx_appBuild (eq (fileRefLines a b)).
Proof.
  apply (safe_setting _ 80 82 (lit "ODUCT_NAME") 82 69 (lit "GISTER_APP_GROUPS")).
  intros m <-. split; apply cut_free_fileRefLines; done || by_compute.
Qed.

Lemma safe_extBuild_fileRefLines : safe ctx_extBuild (eq (fileRefLines a b)).
Proof.
  apply (safe_setting _ 80 82 (lit "ODUCT_NAME") 83 75 (lit "IP_INSTALL")).
  intros m <-. split; apply cut_free_fileRefLines; done || by_compute.
Qed.

Lemma safe_group_fileRefLines : safe ctx_group (eq (fileRefLines a b)).
Proof.
  apply (safe_after (lit "children = ") 40).
  intros m <-. apply no_char_removelast, no_char_fileRefLines; done || by_compute.
Qed.

Lemma safe_group_appGroupChild : safe ctx_group (eq (appGroupChild a)).
Proof.
  apply (safe_after (lit "children = ") 40).
  intros m <-. apply no_char_removelast. unfold appGroupChild.
  rewrite !no_char_app, (hex_avoid 40 a) by (done || by_compute).
  reflexivity.
Qed.

End Refs.

Lemma safe_extBuild_appBuildLine : safe ctx_extBuild (eq appBuildLine).
Proof.
  apply (safe_setting _ 80 82 (lit "ODUCT_NAME") 83 75 (lit "IP_INSTALL")).
  intros m <-. split; by_compute.
Qed.

Lemma safe_group_appBuildLine : safe ctx_group (eq appBuildLine).
Proof.
  apply (safe_after (lit "children = ") 40). intros m <-. by_compute.
Qed.


Lemma strip_spaces (X Y w w' : jsstring) :
  X ++ w' = Y ++ w ->
  forallb is_space w = true -> forallb is_space w' = true ->
  ends_on is_space X = false -> X <> [] ->
  ends_on is_space Y = false -> Y <> [] ->
  X = Y /\ w' = w.
Proof.
  revert w. induction w' as [|s' w' IH] using rev_ind; intros w Heq Hw Hw' HX HXn HY HYn.
  - rewrite app_nil_r in Heq. destruct w as [|s0 w0] using rev_ind.
    + by rewrite app_nil_r in Heq.
    + rewrite forallb_app in Hw. apply andb_true_iff in Hw as [_ Hs]. simpl in Hs.
      rewrite Heq, app_assoc, ends_on_snoc in HX.
      by destruct (is_space s0).
  - destruct w as [|s0 w0 _] using rev_ind.
    + rewrite app_nil_r in Heq.
      rewrite forallb_app in Hw'. apply andb_true_iff in Hw' as [_ Hs]. simpl in Hs.
      rewrite <- Heq, app_assoc, ends_on_snoc in HY.
      by destruct (is_space s').
    + rewrite !app_assoc in Heq. apply app_inj_tail in Heq as [Heq ->].
      rewrite forallb_app in Hw, Hw'.
      apply andb_true_iff in Hw as [Hw _]. apply andb_true_iff in Hw' as [Hw' _].
      destruct (IH w0 Heq Hw Hw' HX HXn HY HYn) as [-> ->]. done.
Qed.

Lemma last_two_inj (X Y : jsstring) (x y x' y' : N) :
  X ++ [x; y] = Y ++ [x'; y'] -> x = x'.
Proof.
  change [x; y] with ([x] ++ [y]). change [x'; y'] with ([x'] ++ [y']).
  rewrite !app_assoc. intros [Heq _]%app_inj_tail.
  by apply app_inj_tail in Heq as [_ ?].
Qed.

Lemma safe_appBuild_ext_setting : safe ctx_appBuild ext_setting_word.
Proof.
  intros a0 m1 m2 b0 Hm1 Hm2 (w' & k' & HW & Hne' & Hw' & Hk')
    (a' & w & k & r & Ha & Hne & Hw & Hk & Hb).
  destruct m2 as [|y m2]; [done|].
  assert (is_space y = false /\ (y = 80 \/ y = 82)%N) as [Hy Hy'].
  { destruct Hk as [-> | ->]; simpl in Hb; injection Hb as -> _; by auto. }
  destruct (exists_last Hm1) as (m1' & x & ->).
  assert (is_space x = true) as Hx.
  { destruct (exists_last Hne) as (w0 & s & ->).
    rewrite !app_assoc in Ha. apply app_inj_tail in Ha as [_ ->].
    rewrite forallb_app in Hw. apply andb_true_iff in Hw as [_ Hs].
    simpl in Hs. by destruct (is_space s). }
  assert (m1' ++ [x] = extBundleLine ++ w' -> False) as Haligned.
  { intros Hal. rewrite Hal, !app_assoc in Ha.
    apply strip_spaces in Ha as [Ha _]; [|done|done| | | |].
    - change extBundleLine
        with (removelast (removelast extBundleLine) ++ [110; 59]%N) in Ha.
      change appBundleLine
        with (removelast (removelast appBundleLine) ++ [116; 59]%N) in Ha.
      rewrite !app_assoc in Ha. by apply last_two_inj in Ha.
    - by rewrite ends_on_app_r.
    - by apply app_ne_r.
    - by rewrite ends_on_app_r.
    - by apply app_ne_r. }
  assert (forallb (fun c => negb (is_space c)) k' = true) as Hk'solid
    by (by destruct Hk' as [-> | ->]).
  apply app_eq_app in HW as [z [[Hz1 Hz2] | [Hz1 Hz2]]].
  - apply app_eq_app in Hz2 as [z' [[-> Hz3] | [-> Hz3]]].
    + destruct z' as [|s z'].
      * apply Haligned. by rewrite app_nil_r.
      * simpl in Hz3. injection Hz3 as -> _.
        rewrite !forallb_app in Hw'. simpl in Hw'.
        apply andb_true_iff in Hw' as [_ [Hs _]%andb_true_iff]. congruence.
    + destruct z' as [|s z' _] using rev_ind.
      * rewrite app_nil_r in Hz1. by apply Haligned.
      * rewrite !app_assoc in Hz1. apply app_inj_tail in Hz1 as [_ ->].
        rewrite Hz3, !forallb_app in Hk'solid. simpl in Hk'solid.
        apply andb_true_iff in Hk'solid as [[_ [Hs _]%andb_true_iff]%andb_true_iff _].
        by rewrite Hx in Hs.
  - destruct z as [|y' z].
    + rewrite app_nil_r in Hz1.
      assert (ends_on is_space extBundleLine = false) as He by by_compute.
      by rewrite Hz1, ends_on_snoc, Hx in He.
    + simpl in Hz2. injection Hz2 as <- _.
      assert (has_pair is_space (fun c => (c =? 80) || (c =? 82))%N extBundleLine
              = false) as Hp by by_compute.
      rewrite Hz1, <- app_assoc in Hp. simpl in Hp.
      rewrite has_pair_here in Hp; [done|done|].
      destruct Hy' as [-> | ->]; done.
Qed.

(** ** Anchors and what is inserted at them *)

Lemma setting_word_solid l k1 k2 m : setting_word l k1 k2 m -> m <> [].
Proof.
  intros (w & k & -> & Hne & _ & _) Hnil.
  apply app_eq_nil in Hnil as [_ Hnil]. by apply app_eq_nil in Hnil as [? _].
Qed.

Section SettingAnchors.

Variables (rx : RegExp) (l k1 k2 : jsstring).
Hypothesis rx_match : forall s, match_here rx s = match_setting l k1 k2 s.
Hypothesis k1_solid : starts_solid k1 = true.
Hypothesis k2_solid : starts_solid k2 = true.

Lemma exec_occurs_setting s :
  is_Some (exec rx s) <-> occurs (setting_word l k1 k2) s.
Proof.
  split.
  - intros [[i [rest caps]] (Hm & _ & _)%exec_Some].
    rewrite rx_match in Hm.
    destruct (match_setting_Some _ _ _ _ _ _ Hm) as (w & k & Hd & _ & Hne & Hw & Hk).
    exists (take i s), (l ++ w ++ k), rest. split; [|by exists w, k].
    by rewrite <- !app_assoc, <- Hd, take_drop.
  - intros (a & m & b & -> & HW).
    destruct (exec rx (a ++ m ++ b)) eqn:He; [done|].
    rewrite exec_None in He. specialize (He (length a)).
    rewrite drop_app_length, rx_match in He.
    destruct (match_setting_word l k1 k2 m b k1_solid k2_solid HW) as [? Hs].
    congruence.
Qed.

Lemma settings_patched_line line s s' :
  settings_patched l k1 k2 line s s' ->
  occurs (setting_word l k1 k2) s -> occurs_in line s'.
Proof.
  induction 1 as [|c s s' Hnone _ IH|s w k rest rest' Hm _ _].
  - intros (a & m & b & Hs & HW%setting_word_solid). symmetry in Hs.
    apply app_eq_nil in Hs as [_ Hs]. by apply app_eq_nil in Hs as [? _].
  - intros (a & m & b & Hs & HW). destruct a as [|x a]; simpl in Hs.
    + destruct (match_setting_word l k1 k2 m b k1_solid k2_solid HW) as [? Hsome].
      congruence.
    + injection Hs as <- ->.
      destruct IH as (a' & b' & ->); [by exists a, m, b|]. by exists (c :: a'), b'.
  - intros _. exists (l ++ w), (w ++ k ++ rest'). by rewrite <- !app_assoc.
Qed.

End SettingAnchors.

Section GroupAnchors.

Variables (rx : RegExp) (l0 l1 l2 : jsstring).
Hypothesis rx_match : forall s, match_here rx s = match_group l0 l1 l2 s.
Hypothesis l1_solid : starts_solid l1 = true.
Hypothesis l2_solid : starts_solid l2 = true.

Lemma exec_occurs_group s :
  is_Some (exec rx s) <-> occurs (group_word l0 l1 l2) s.
Proof.
  split.
  - intros [[i [rest caps]] (Hm & _ & _)%exec_Some].
    rewrite rx_match in Hm.
    destruct (match_group_Some _ _ _ _ _ _ Hm) as (m & Hd & _ & HW).
    exists (take i s), m, rest. split; [|done]. by rewrite <- Hd, take_drop.
  - intros (a & m & b & -> & HW).
    destruct (exec rx (a ++ m ++ b)) eqn:He; [done|].
    rewrite exec_None in He. specialize (He (length a)).
    rewrite drop_app_length, rx_match in He.
    by rewrite (match_group_word l0 l1 l2 m b l1_solid l2_solid HW) in He.
Qed.

Lemma child_inserted_child child s s' :
  child_inserted rx (group_word l0 l1 l2) child s s' ->
  occurs (group_word l0 l1 l2) s -> occurs_in child s'.
Proof.
  destruct 1 as [s Hnone|before m after _ _ _].
  - intros Hocc%exec_occurs_group. apply exec_None in Hnone.
    rewrite Hnone in Hocc. by destruct Hocc.
  - intros _. exists (before ++ m), after. by rewrite <- !app_assoc.
Qed.

End GroupAnchors.

Lemma occurs_in_trans needle n s :
  occurs_in needle n -> occurs_in n s -> occurs_in needle s.
Proof.
  intros (x & y & ->) (a & b & ->). exists (a ++ x), (y ++ b).
  by rewrite <- !app_assoc.
Qed.

Lemma occurs_in_app_l needle x s : occurs_in needle s -> occurs_in needle (x ++ s).
Proof. intros (a & b & ->). exists (x ++ a), b. by rewrite <- !app_assoc. Qed.

Lemma occurs_in_app_r needle s y : occurs_in needle s -> occurs_in needle (s ++ y).
Proof. intros (a & b & ->). exists a, (b ++ y). by rewrite <- !app_assoc. Qed.

Lemma addFileReferences_lines a b s :
  plain a = true -> plain b = true ->
  occurs_in fileRefEndMarker s ->
  occurs_in (fileRefLines a b) (addFileReferences a b s).
Proof.
  intros Ha Hb Hocc.
  destruct (addFileReferences_spec a b s Ha Hb)
    as [[Hno _] | (before & after & _ & ->)].
  - by apply includes_false in Hno.
  - by exists before, (fileRefEndMarker ++ after).
Qed.

(** ** The five insertions in sequence *)

Lemma hex_plain u : forallb is_hex u = true -> plain u = true.
Proof. by apply hex_forallb. Qed.

Lemma token_hex E d : forallb is_hex (token E d) = true.
Proof. apply digits_hex. Qed.

Section Pipeline.

Variables a b : jsstring.
Hypothesis a_hex : forallb is_hex a = true.
Hypothesis b_hex : forallb is_hex b = true.

Lemma stage1_inserted s : rtc (insert1 ctx_fileRef) s (addFileReferences a b s).
Proof. apply addFileReferences_inserted; by apply hex_plain. Qed.

Lemma stage2_inserted s : rtc (insert1 ctx_appBuild) s (addAppBuildSetting s).
Proof. eapply settings_patched_inserted, addAppBuildSetting_patched. Qed.

Lemma stage3_inserted s : rtc (insert1 ctx_extBuild) s (addExtBuildSetting s).
Proof. eapply settings_patched_inserted, addExtBuildSetting_patched. Qed.

Lemma stage4_inserted s : rtc (insert1 ctx_group) s (addAppGroupChild a s).
Proof.
  eapply child_inserted_inserted, addAppGroupChild_inserted. by apply hex_plain.
Qed.

Lemma stage5_inserted s : rtc (insert1 ctx_group) s (addExtGroupChild b s).
Proof.
  eapply child_inserted_inserted, addExtGroupChild_inserted. by apply hex_plain.
Qed.

Lemma patch_sublist s : s `sublist_of` patch a b s.
Proof.
  unfold patch.
  etrans; [exact (inserted_sublist _ _ _ (stage1_inserted s))|].
  etrans; [exact (inserted_sublist _ _ _ (stage2_inserted _))|].
  etrans; [exact (inserted_sublist _ _ _ (stage3_inserted _))|].
  etrans; [exact (inserted_sublist _ _ _ (stage4_inserted _))|].
  exact (inserted_sublist _ _ _ (stage5_inserted _)).
Qed.

(** The file reference lines, once inserted, reach the output. *)
Lemma patch_keeps_lines s :
  occurs_in fileRefEndMarker s -> occurs_in (fileRefLines a b) (patch a b s).
Proof.
  intros H0. unfold patch. apply occurs_in_occurs.
  eapply occurs_inserted;
    [by apply safe_group_fileRefLines | apply stage5_inserted |].
  eapply occurs_inserted;
    [by apply safe_group_fileRefLines | apply stage4_inserted |].
  eapply occurs_inserted;
    [by apply safe_extBuild_fileRefLines | apply stage3_inserted |].
  eapply occurs_inserted;
    [by apply safe_appBuild_fileRefLines | apply stage2_inserted |].
  apply occurs_in_occurs, addFileReferences_lines; by try apply hex_plain.
Qed.

(** The build setting line of the app reaches the output. *)
Lemma patch_keeps_appBuildLine s :
  is_Some (exec appBuildPattern s) -> occurs_in appBuildLine (patch a b s).
Proof.
  intros H1. unfold patch. apply occurs_in_occurs.
  eapply occurs_inserted; [apply safe_group_appBuildLine | apply stage5_inserted |].
  eapply occurs_inserted; [apply safe_group_appBuildLine | apply stage4_inserted |].
  eapply occurs_inserted; [apply safe_extBuild_appBuildLine | apply stage3_inserted |].
  apply occurs_in_occurs.
  eapply (settings_patched_line appBundleLine (lit "PRODUCT_NAME")
            (lit "REGISTER_APP_GROUPS"));
    [by_compute | by_compute | apply addAppBuildSetting_patched |].
  eapply occurs_inserted; [apply safe_fileRef_app_setting | apply stage1_inserted |].
  apply (exec_occurs_setting appBuildPattern); [apply match_here_appBuild|done..].
Qed.


(** The child of the app group reaches the output. *)
Lemma patch_keeps_appGroupChild s :
  is_Some (exec appGroupPattern s) -> occurs_in (appGroupChild a) (patch a b s).
Proof.
  intros H3. unfold patch. apply occurs_in_occurs.
  eapply occurs_inserted;
    [by apply safe_group_appGroupChild | apply stage5_inserted |].
  apply occurs_in_occurs.
  eapply (child_inserted_child appGroupPattern);
    [apply match_here_appGroup | done | done
    | apply addAppGroupChild_inserted; by apply hex_plain |].
  eapply occurs_inserted; [apply safe_extBuild_app_group | apply stage3_inserted |].
  eapply occurs_inserted; [apply safe_appBuild_app_group | apply stage2_inserted |].
  eapply occurs_inserted; [apply safe_fileRef_app_group | apply stage1_inserted |].
  apply (exec_occurs_group appGroupPattern); [apply match_here_appGroup|done..].
Qed.


End Pipeline.

(** ** The patcher as a whole *)

Lemma updatePbxproj_patched E w content :
  files w !! PBXPROJ_PATH = Some content ->
  write_fails E PBXPROJ_PATH = None ->
  includes marker content = false ->
  (updatePbxproj E w).1 = Ret () /\
  files (updatePbxproj E w).2
  = <[PBXPROJ_PATH := patch (token E (draws w)) (token E (24 + draws w)) content]>
      (files w).
Proof.
  intros Hc Hw Hm. rewrite updatePbxproj_run, Hc, Hm. simpl. by rewrite Hw.
Qed.

Lemma updatePbxproj_configured E w content :
  files w !! PBXPROJ_PATH = Some content ->
  includes marker content = true ->
  updatePbxproj E w = (Ret (), logged (Log LAlreadyConfigured) w).
Proof. intros Hc Hm. by rewrite updatePbxproj_run, Hc, Hm. Qed.



(** ** Applying the patch twice *)

(** C1, as the specification states it, fails: on a descriptor whose only
    anchor is the header of the extension group, the output of the first
    application does not contain the marker, and the second application
    inserts a second child. *)
Lemma idempotence_fails :
  let w1 := (updatePbxproj env_cycle (world_of extension_group_only)).2 in
  let w2 := (updatePbxproj env_cycle w1).2 in
  includes marker extension_group_only = false /\
  (exists c1, files w1 !! PBXPROJ_PATH = Some c1 /\ includes marker c1 = false) /\
  files w2 !! PBXPROJ_PATH <> files w1 !! PBXPROJ_PATH.
Proof.
  split; [by vm_compute|]. split.
  - eexists. split; vm_compute; reflexivity.
  - vm_compute. intros Heq. discriminate Heq.
Qed.

Lemma marker_in_lines a b : occurs_in marker (fileRefLines a b).
Proof.
  unfold fileRefLines. apply occurs_in_app_l, occurs_in_app_l, occurs_in_app_r.
  apply includes_occurs. by vm_compute.
Qed.

Lemma marker_in_appBuildLine : occurs_in marker appBuildLine.
Proof. apply includes_occurs. by vm_compute. Qed.

Lemma marker_in_appGroupChild a : occurs_in marker (appGroupChild a).
Proof.
  unfold appGroupChild. apply occurs_in_app_l, occurs_in_app_l.
  apply includes_occurs. by vm_compute.
Qed.

(** C1, amended: a descriptor that already contains the marker is left as it
    is; and when a descriptor without the marker holds an anchor of the main
    app (the end marker of the file references, a bundle identifier context
    of the app, or the header of the app group), the output of one
    application contains the marker, so that a second application changes
    nothing and two applications give the content of one. *)
Theorem patch_once_then_unchanged (E : env) (w : world) (content : jsstring) :
  files w !! PBXPROJ_PATH = Some content ->
  write_fails E PBXPROJ_PATH = None ->
  let w1 := (updatePbxproj E w).2 in
  let w2 := (updatePbxproj E w1).2 in
  (includes marker content = true -> files w1 = files w) /\
  (includes marker content = false ->
   includes fileRefEndMarker content = true \/
   is_Some (exec appBuildPattern content) \/
   is_Some (exec appGroupPattern content) ->
   exists out,
     files w1 !! PBXPROJ_PATH = Some out /\
     includes marker out = true /\
     files w2 = files w1).
Proof.
  intros Hc Hw w1 w2. split.
  - intros Hm. unfold w1. by rewrite (updatePbxproj_configured E w content).
  - intros Hm Hanchor.
    destruct (updatePbxproj_patched E w content Hc Hw Hm) as [_ Hfiles].
    set (a := token E (draws w)) in *. set (b := token E (24 + draws w)) in *.
    pose proof (token_hex E (draws w)) as Ha.
    pose proof (token_hex E (24 + draws w)) as Hb.
    assert (includes marker (patch a b content) = true) as Hout.
    { apply includes_occurs. destruct Hanchor as [Hf | [H1 | H3]].
      - apply includes_occurs in Hf.
        eapply occurs_in_trans; [apply marker_in_lines|].
        by apply patch_keeps_lines.
      - eapply occurs_in_trans; [apply marker_in_appBuildLine|].
        by apply patch_keeps_appBuildLine.
      - eapply occurs_in_trans; [apply marker_in_appGroupChild|].
        by apply patch_keeps_appGroupChild. }
    exists (patch a b content).
    assert (files w1 !! PBXPROJ_PATH = Some (patch a b content)) as Hfile1
      by (unfold w1; by rewrite Hfiles, lookup_insert_eq).
    split; [done|]. split; [done|].
    unfold w2. by rewrite (updatePbxproj_configured E w1 (patch a b content)).
Qed.

Lemma patch_once_then_unchanged_witness :
  let w := world_of small_descriptor in
  let w1 := (updatePbxproj env_cycle w).2 in
  let w2 := (updatePbxproj env_cycle w1).2 in
  includes marker small_descriptor = false /\
  includes fileRefEndMarker small_descriptor = true /\
  exists out,
    files w1 !! PBXPROJ_PATH = Some out /\
    includes marker out = true /\
    files w2 = files w1.
Proof.
  split; [vm_compute; reflexivity|]. split; [vm_compute; reflexivity|].
  apply (patch_once_then_unchanged env_cycle (world_of small_descriptor)
           small_descriptor);
    [vm_compute; reflexivity | vm_compute; reflexivity | vm_compute; reflexivity |].
  left. vm_compute. reflexivity.
Defined.

(** ** Counting across an insertion *)

Lemma count_occ_count_at needle s : count_occ needle s = count_at (starts_with needle) s.
Proof. induction s as [|c s IH]; simpl; [done|]. by rewrite IH. Qed.

Lemma count_at_app M x t : count_at M (x ++ t) = count_in M x t + count_at M t.
Proof.
  induction x as [|c x IH]; [done|].
  change ((c :: x) ++ t) with (c :: (x ++ t)). cbn [count_at count_in].
  rewrite IH. change (c :: (x ++ t)) with ((c :: x) ++ t). lia.
Qed.

Lemma count_in_agree M a t t' :
  (forall a0 x, x <> [] -> a = a0 ++ x -> M (x ++ t) = M (x ++ t')) ->
  count_in M a t = count_in M a t'.
Proof.
  induction a as [|c a IH]; intros Hagree; [done|]. cbn [count_in].
  rewrite (Hagree [] (c :: a)) by done. f_equal.
  apply IH. intros a0 x Hx ->. by apply (Hagree (c :: a0) x).
Qed.

Lemma decides_starts_with needle : decides (starts_with needle) (eq needle).
Proof.
  intros s. rewrite starts_with_prefix. split.
  - intros [r ->]. by exists needle, r.
  - intros (m & r & -> & <-). by exists r.
Qed.

Lemma agree_insert M W x block b :
  decides M W -> x <> [] ->
  (forall m2 r, m2 <> [] -> W (x ++ m2) -> b <> m2 ++ r) ->
  (forall m2 r, m2 <> [] -> W (x ++ m2) -> block ++ b <> m2 ++ r) ->
  M (x ++ b) = M (x ++ block ++ b).
Proof.
  intros Hdec Hx Hcut Hseal.
  assert (forall t t', (forall m2 r, m2 <> [] -> W (x ++ m2) -> t <> m2 ++ r) ->
            M (x ++ t) = true -> M (x ++ t') = true) as Hmove.
  { intros t t' Ht (m & r & Heq & HW)%Hdec. apply Hdec.
    apply app_eq_app in Heq as [z [[-> ->] | [-> Hz]]].
    - exists m, (z ++ t'). by rewrite <- app_assoc.
    - destruct z as [|y z].
      + rewrite app_nil_r in *. by exists x, t'.
      + exfalso. by apply (Ht (y :: z) r). }
  destruct (M (x ++ b)) eqn:H1, (M (x ++ block ++ b)) eqn:H2; [done| | |done].
  - by rewrite (Hmove b (block ++ b) Hcut H1) in H2.
  - by rewrite (Hmove (block ++ b) b Hseal H2) in H1.
Qed.

Lemma count_insert M W Ctx Ctx2 a block b :
  decides M W ->
  safe Ctx W -> Ctx a b ->
  safe Ctx2 W -> Ctx2 a (block ++ b) ->
  count_at M (a ++ block ++ b) = count_at M (a ++ b) + count_in M block b.
Proof.
  intros Hdec Hsafe Hctx Hsafe2 Hctx2.
  rewrite !count_at_app.
  rewrite (count_in_agree M a b (block ++ b)); [lia|].
  intros a0 x Hx ->. apply (agree_insert M W); [done..| |].
  - intros m2 r Hm2 HW ->. by apply (Hsafe a0 x m2 r).
  - intros m2 r Hm2 HW Heq. rewrite Heq in Hctx2. by apply (Hsafe2 a0 x m2 r).
Qed.

Lemma count_steps M R delta n s s' :
  (forall a block b,
     R a block b -> count_at M (a ++ block ++ b) = count_at M (a ++ b) + delta) ->
  nsteps (insert3 R) n s s' ->
  count_at M s' = count_at M s + n * delta.
Proof.
  intros Hstep. induction 1 as [|n s s1 s' (a & block & b & -> & -> & HR) _ IH];
    [lia|].
  rewrite IH, (Hstep _ _ _ HR). lia.
Qed.

Lemma count_in_none M (c0 c1 : N) block b :
  (forall s, M s = true -> starts_with [c0; c1] s = true) ->
  piece_free c0 c1 block = true ->
  count_in M block b = 0.
Proof.
  intros HM. unfold piece_free.
  induction block as [|x block IH]; [done|].
  intros [Hp He]%andb_true_iff. apply negb_true_iff in Hp, He.
  cbn [count_in has_pair] in *. apply orb_false_iff in Hp as [Hx Hp].
  assert (ends_on (N.eqb c0) block = false) as He'
    by (by destruct block).
  rewrite IH by (by rewrite Hp, He').
  destruct (M ((x :: block) ++ b)) eqn:HMx; [|done].
  apply HM in HMx. simpl in HMx. destruct (c0 =? x)%N eqn:Hc0; [|done].
  destruct block as [|y block].
  - unfold ends_on in He. simpl in He. congruence.
  - simpl in *. rewrite andb_true_r in HMx. by rewrite HMx in Hx.
Qed.

Lemma compat_false_app l x r : compat l x = false -> starts_with l (x ++ r) = false.
Proof.
  unfold compat. intros [H1 H2]%orb_false_iff.
  destruct (starts_with l (x ++ r)) eqn:Hl; [|done].
  apply starts_with_prefix in Hl as [t Ht].
  apply app_eq_app in Ht as [z [[-> _] | [-> _]]].
  - by rewrite starts_with_app in H1.
  - by rewrite starts_with_app in H2.
Qed.

Lemma no_restart_drop l k j r :
  no_restart l k = true -> j < length k -> starts_with l (drop j k ++ r) = false.
Proof.
  unfold no_restart. rewrite forallb_forall. intros Hall Hj.
  apply compat_false_app, negb_true_iff, Hall, in_seq. lia.
Qed.

Lemma starts_with_head_ne (c0 x : N) l t :
  c0 <> x -> starts_with (c0 :: l) (x :: t) = false.
Proof. intros Hne. simpl. by apply N.eqb_neq in Hne as ->. Qed.

Lemma drop_head_elem (l : jsstring) d :
  d < length l -> exists x t, drop d l = x :: t /\ In x l.
Proof.
  revert d; induction l as [|y l IH]; intros d Hd; [simpl in Hd; lia|].
  destruct d as [|d]; [exists y, l; split; [done | by left]|].
  destruct (IH d) as (x & t & Heq & Hin); [simpl in Hd; lia|].
  exists x, t. split; [done | by right].
Qed.

(** A match of [(l)(\s+)(k1|k2)] leaves no room for another one to start
    inside it. *)
Lemma setting_no_overlap (c0 : N) l' k1 k2 m r d :
  is_space c0 = false ->
  no_char c0 l' = true ->
  no_restart (c0 :: l') k1 = true -> no_restart (c0 :: l') k2 = true ->
  setting_word (c0 :: l') k1 k2 m ->
  0 < d < length m ->
  starts_with (c0 :: l') (drop d (m ++ r)) = false.
Proof.
  intros Hc0 Hl' Hk1 Hk2 (w & k & -> & _ & Hw & Hk) [Hd0 Hd].
  assert (no_restart (c0 :: l') k = true) as Hrk by (by destruct Hk as [-> | ->]).
  rewrite <- !app_assoc. destruct d as [|d]; [lia|].
  change (drop (S d) ((c0 :: l') ++ ?t)) with (drop d (l' ++ t)).
  rewrite !length_app in Hd. simpl in Hd.
  destruct (decide (d < length l')) as [Hdl|Hdl].
  - rewrite drop_app_le by lia.
    destruct (drop_head_elem l' d Hdl) as (x & t & -> & Hin).
    apply starts_with_head_ne. intros <-.
    unfold no_char in Hl'. rewrite forallb_forall in Hl'.
    specialize (Hl' _ Hin). by rewrite N.eqb_refl in Hl'.
  - rewrite drop_app_ge by lia.
    destruct (decide (d - length l' < length w)) as [Hdw|Hdw].
    + rewrite drop_app_le by lia.
      destruct (drop_head_elem w (d - length l') Hdw) as (x & t & -> & Hin).
      apply starts_with_head_ne. intros <-.
      rewrite forallb_forall in Hw. specialize (Hw _ Hin). congruence.
    + rewrite drop_app_ge by lia. rewrite drop_app_le by lia.
      apply no_restart_drop; [done | lia].
Qed.

Lemma count_in_one M m rest :
  m <> [] -> M (m ++ rest) = true ->
  (forall d, 0 < d < length m -> M (drop d (m ++ rest)) = false) ->
  count_in M m rest = 1.
Proof.
  intros Hm H0 Hrest. destruct m as [|c m]; [done|]. cbn [count_in].
  rewrite H0. f_equal.
  assert (forall y p, m = p ++ y -> count_in M y rest = 0) as Hzero;
    [|by apply (Hzero m [])].
  induction y as [|x y IH]; intros p Hp; [done|]. cbn [count_in].
  rewrite (IH (p ++ [x])) by (by rewrite <- app_assoc).
  specialize (Hrest (S (length p))).
  rewrite Hp in Hrest. simpl in Hrest.
  rewrite <- app_assoc, drop_app_length in Hrest.
  rewrite Hrest; [done|]. rewrite length_app. simpl. lia.
Qed.

Section SettingCount.

Variables (c0 : N) (l' k1 k2 line : jsstring).
Hypothesis c0_solid : is_space c0 = false.
Hypothesis l'_free : no_char c0 l' = true.
Hypothesis k1_restart : no_restart (c0 :: l') k1 = true.
Hypothesis k2_restart : no_restart (c0 :: l') k2 = true.
Hypothesis k1_solid : starts_solid k1 = true.
Hypothesis k2_solid : starts_solid k2 = true.

Lemma decides_setting :
  decides (setting_matches (c0 :: l') k1 k2) (setting_word (c0 :: l') k1 k2).
Proof.
  intros s. unfold setting_matches. split.
  - destruct (match_setting (c0 :: l') k1 k2 s) as [[rest caps]|] eqn:Hm; [|done].
    intros _.
    destruct (match_setting_Some _ _ _ _ _ _ Hm) as (w & k & -> & _ & Hne & Hw & Hk).
    exists ((c0 :: l') ++ w ++ k), rest.
    split; [by rewrite <- !app_assoc|]. by exists w, k.
  - intros (m & r & -> & HW).
    by destruct (match_setting_word (c0 :: l') k1 k2 m r k1_solid k2_solid HW)
      as [? ->].
Qed.

Lemma at_setting_lift p a block b :
  at_setting (c0 :: l') k1 k2 line a block b ->
  at_setting (c0 :: l') k1 k2 line (p ++ a) block b.
Proof.
  intros (a' & w & k & r & -> & Hne & Hw & Hk & -> & ->).
  exists (p ++ a'), w, k, r. by rewrite <- !app_assoc.
Qed.

Lemma insert3_lift p n s s' :
  nsteps (insert3 (at_setting (c0 :: l') k1 k2 line)) n s s' ->
  nsteps (insert3 (at_setting (c0 :: l') k1 k2 line)) n (p ++ s) (p ++ s').
Proof.
  apply nsteps_congruence. intros x y (a & block & b & -> & -> & HR).
  exists (p ++ a), block, b. rewrite <- !app_assoc.
  split; [done|]. split; [done|]. by apply at_setting_lift.
Qed.

(** The global replacement is one insertion per position at which the
    pattern matches. *)
Lemma settings_patched_steps s s' :
  settings_patched (c0 :: l') k1 k2 line s s' ->
  nsteps (insert3 (at_setting (c0 :: l') k1 k2 line))
    (count_at (setting_matches (c0 :: l') k1 k2) s) s s'.
Proof.
  induction 1 as [|c s s' Hnone _ IH|s w k rest rest' Hm _ IH].
  - simpl. unfold setting_matches. simpl. constructor.
  - cbn [count_at]. unfold setting_matches at 1. rewrite Hnone. simpl.
    by apply (insert3_lift [c]).
  - destruct (match_setting_Some _ _ _ _ _ _ Hm)
      as (w' & k' & Hs & [= <- <-] & Hne & Hw & Hk).
    assert (setting_word (c0 :: l') k1 k2 ((c0 :: l') ++ w ++ k)) as HW
      by (by exists w, k).
    assert (s = ((c0 :: l') ++ w ++ k) ++ rest) as ->
      by (by rewrite <- !app_assoc).
    rewrite count_at_app, count_in_one.
    + change (1 + ?n) with (S n).
      eapply nsteps_r; [apply insert3_lift, IH|].
      exists ((c0 :: l') ++ w), (line ++ w), (k ++ rest'). rewrite <- !app_assoc.
      split; [done|]. split; [done|]. exists [], w, k, rest'. by auto.
    + by eapply setting_word_solid.
    + unfold setting_matches. by rewrite Hm.
    + intros d Hd. unfold setting_matches, match_setting.
      by rewrite (setting_no_overlap c0 l' k1 k2 _ rest d).
Qed.

End SettingCount.




Lemma piece_free_snoc_spaces c0 c1 x w :
  is_space c0 = false -> forallb is_space w = true ->
  piece_free c0 c1 x = true -> piece_free c0 c1 (x ++ w) = true.
Proof.
  unfold piece_free. intros Hc Hw [Hx1 Hx2]%andb_true_iff.
  apply negb_true_iff in Hx1, Hx2.
  destruct (has_pair_avoid (N.eqb c0) (N.eqb c1) w (spaces_avoid c0 w Hc Hw))
    as [H1 H2].
  rewrite has_pair_app, Hx1, H1, Hx2. simpl.
  destruct w as [|y w]; [by rewrite app_nil_r, Hx2|].
  by rewrite ends_on_app_r, H2.
Qed.

Lemma count_in_cons_none M (c0 c1 : N) x block b :
  (forall s, M s = true -> starts_with [c0; c1] s = true) ->
  M ((x :: block) ++ b) = false ->
  piece_free c0 c1 block = true ->
  count_in M (x :: block) b = 0.
Proof.
  intros HM Hx Hfree. cbn [count_in]. rewrite Hx.
  by rewrite (count_in_none M c0 c1).
Qed.


Lemma starts_with_two needle (c0 c1 : N) rest s :
  needle = c0 :: c1 :: rest ->
  starts_with needle s = true -> starts_with [c0; c1] s = true.
Proof.
  intros -> [t ->]%starts_with_prefix. simpl. by rewrite !N.eqb_refl.
Qed.




(** ** What each insertion adds to each count *)

Lemma count_at_ext M M' s : (forall t, M t = M' t) -> count_at M s = count_at M' s.
Proof. intros Heq. induction s as [|c s IH]; simpl; by rewrite Heq, ?IH. Qed.



Lemma decides_extBuildLine : decides is_extBuildLine (eq extBuildLine).
Proof. apply decides_starts_with. Qed.


Lemma decides_extContext : decides is_extContext ext_setting_word.
Proof.
  intros s. unfold is_extContext, matches_here. rewrite match_here_extBuild.
  by apply (decides_setting 80
              (lit "RODUCT_BUNDLE_IDENTIFIER = com.hankun.BewlyCat.Extension;")).
Qed.


Lemma extBuildLine_two s : is_extBuildLine s = true -> starts_with [67; 79]%N s = true.
Proof.
  apply (starts_with_two _ 67 79 (drop 2 extBuildLine)). reflexivity.
Qed.

Lemma setting_word_two l' k1 k2 m r :
  setting_word (80%N :: 82%N :: l') k1 k2 m -> starts_with [80; 82]%N (m ++ r) = true.
Proof. by intros (w & k & -> & _). Qed.


Lemma extContext_two s : is_extContext s = true -> starts_with [80; 82]%N s = true.
Proof.
  intros (m & r & -> & HW)%decides_extContext.
  by eapply (setting_word_two
               (lit "ODUCT_BUNDLE_IDENTIFIER = com.hankun.BewlyCat.Extension;")).
Qed.

(** Places and the two lines. *)




Lemma safe_appBuild_extBuildLine : safe ctx_appBuild (eq extBuildLine).
Proof.
  apply (safe_setting _ 80 82 (lit "ODUCT_NAME") 82 69 (lit "GISTER_APP_GROUPS")).
  intros m <-. split; by_compute.
Qed.


Lemma safe_two_needle (c0 c1 : N) needle :
  cut_free c0 c1 needle = true -> safe (ctx_before [c0; c1]) (eq needle).
Proof. intros Hfree. apply safe_before. by intros m <-. Qed.

Lemma safe_line_ext_setting : safe (ctx_before [67; 79]%N) ext_setting_word.
Proof.
  apply safe_before. intros m Hm.
  eapply cut_free_setting_word; [..|exact Hm]; by_compute.
Qed.



Lemma at_setting_ctx l k1 k2 line a block b :
  at_setting l k1 k2 line a block b -> ctx_setting l k1 k2 a b.
Proof.
  intros (a' & w & k & r & -> & Hne & Hw & Hk & -> & _). by exists a', w, k, r.
Qed.

Lemma at_setting_block l k1 k2 line a block b :
  at_setting l k1 k2 line a block b ->
  exists w, block = line ++ w /\ forallb is_space w = true.
Proof. intros (a' & w & k & r & _ & _ & Hw & _ & _ & ->). by exists w. Qed.

Section StepCounts.

Variables ta tb : jsstring.
Hypothesis ta_hex : forallb is_hex ta = true.
Hypothesis tb_hex : forallb is_hex tb = true.
Hypothesis ta_length : length ta = 24.

















End StepCounts.


Lemma setting_step_none M W (c0 c1 : N) line (Ctx : jsstring -> jsstring -> Prop) a w b :
  decides M W ->
  (forall s, M s = true -> starts_with [c0; c1] s = true) ->
  (exists rest, line = 67%N :: 79%N :: rest) ->
  safe Ctx W -> Ctx a b ->
  safe (ctx_before [67; 79]%N) W ->
  (forall t, M (line ++ t) = false) ->
  is_space c0 = false ->
  piece_free c0 c1 (tail line) = true ->
  forallb is_space w = true ->
  count_at M (a ++ (line ++ w) ++ b) = count_at M (a ++ b) + 0.
Proof.
  intros Hdec HM [rest Hrest] Hs Hc Hs2 Hline Hc0 Hfree Hw.
  rewrite (count_insert M W Ctx (ctx_before [67; 79]%N)); try done.
  - f_equal. subst line.
    change ((67%N :: 79%N :: rest) ++ w) with (67%N :: ((79%N :: rest) ++ w)).
    apply (count_in_cons_none M c0 c1); [done| |by apply piece_free_snoc_spaces].
    specialize (Hline (w ++ b)). simpl in *. by rewrite <- app_assoc.
  - rewrite Hrest. by exists ((rest ++ w) ++ b).
Qed.


Lemma appBuild_extBuildLine a block b :
  at_appBuild a block b ->
  count_at is_extBuildLine (a ++ block ++ b) = count_at is_extBuildLine (a ++ b) + 0.
Proof.
  intros HR. destruct (at_setting_block _ _ _ _ _ _ _ HR) as (w & -> & Hw).
  apply (setting_step_none _ (eq extBuildLine) 67 79 appBuildLine ctx_appBuild);
    [apply decides_extBuildLine | apply extBuildLine_two | by eexists
    | apply safe_appBuild_extBuildLine | by eapply at_setting_ctx
    | by apply safe_two_needle
    | intros t; by apply compat_false_app
    | by_compute | by_compute | done].
Qed.

Lemma appBuild_extContext a block b :
  at_appBuild a block b ->
  count_at is_extContext (a ++ block ++ b) = count_at is_extContext (a ++ b) + 0.
Proof.
  intros HR. destruct (at_setting_block _ _ _ _ _ _ _ HR) as (w & -> & Hw).
  apply (setting_step_none _ ext_setting_word 80 82 appBuildLine ctx_appBuild);
    [apply decides_extContext | apply extContext_two | by eexists
    | apply safe_appBuild_ext_setting | by eapply at_setting_ctx
    | apply safe_line_ext_setting
    | | by_compute | by_compute | done].
  intros t. destruct (is_extContext (appBuildLine ++ t)) eqn:Ht; [|done].
  by apply extContext_two in Ht.
Qed.



(** ** The stages as sequences of insertions *)


Lemma addAppBuildSetting_steps s :
  nsteps (insert3 at_appBuild) (count_at is_appContext s) s (addAppBuildSetting s).
Proof.
  rewrite (count_at_ext is_appContext
             (setting_matches appBundleLine (lit "PRODUCT_NAME")
                (lit "REGISTER_APP_GROUPS")))
    by (intros t; unfold is_appContext, matches_here; by rewrite match_here_appBuild).
  apply (settings_patched_steps 80
           (lit "RODUCT_BUNDLE_IDENTIFIER = com.hankun.BewlyCat;")); try by_compute.
  apply addAppBuildSetting_patched.
Qed.



(** ** Build settings *)

Section PatchCounts.

Variables ta tb : jsstring.
Hypothesis ta_hex : forallb is_hex ta = true.
Hypothesis tb_hex : forallb is_hex tb = true.
Hypothesis ta_length : length ta = 24.



End PatchCounts.



(** On that descriptor the counts are 2 for the app and 1 + 3 for the
    extension. *)
Example several_contexts_counts :
  count_at (matches_here appBuildPattern) several_contexts = 2 /\
  count_at (matches_here extBuildPattern) several_contexts = 3 /\
  count_occ extBuildLine several_contexts = 1 /\
  (exists out,
     files (updatePbxproj env_cycle (world_of several_contexts)).2 !! PBXPROJ_PATH
     = Some out /\
     count_occ appBuildLine out = 2 /\ count_occ extBuildLine out = 4).
Proof.
  split; [vm_compute; reflexivity|]. split; [vm_compute; reflexivity|].
  split; [vm_compute; reflexivity|].
  eexists. split; [vm_compute; reflexivity|]. split; vm_compute; reflexivity.
Qed.

(** * Further properties of the script *)

(** ** The orchestrator on every input *)

Lemma logged_report w :
  foldl (fun w e => logged e w) w report
  = {| files := files w; trace := trace w ++ report; draws := draws w |}.
Proof. unfold report, logged. simpl. by rewrite <- !app_assoc. Qed.

(** The runs of [main] on an existing descriptor, by what the writes do. *)
Lemma main_run_present E w content :
  files w !! PBXPROJ_PATH = Some content ->
  main E w =
  let w0 := logged (Log LAdding) w in
  match write_fails E appEntPath with
  | Some e => (Exit 1, logged (LogError (LError e)) w0)
  | None =>
    let w1 := logged (Log (LCreated appEntPath)) (stored appEntPath APP_ENTITLEMENTS w0) in
    match write_fails E extEntPath with
    | Some e => (Exit 1, logged (LogError (LError e)) w1)
    | None =>
      let w2 := logged (Log (LCreated extEntPath)) (stored extEntPath EXT_ENTITLEMENTS w1) in
      if includes marker content then
        (Ret (), foldl (fun w e => logged e w) (logged (Log LAlreadyConfigured) w2) report)
      else
        match write_fails E PBXPROJ_PATH with
        | Some e => (Exit 1, logged (LogError (LError e)) (advance 48 w2))
        | None =>
          (Ret (),
           foldl (fun w e => logged e w)
             (logged (Log (LUpdated PBXPROJ_PATH))
                (stored PBXPROJ_PATH
                   (patch (token E (draws w)) (token E (24 + draws w)) content)
                   (advance 48 w2)))
             report)
        end
    end
  end.
Proof.
  intros Hc. destruct paths_distinct as (Hae & Hap & Hep).
  rewrite main_run. cbn zeta. rewrite Hc, createEntitlementsFiles_run.
  destruct (write_fails E appEntPath) as [e|]; [done|]. cbn zeta.
  destruct (write_fails E extEntPath) as [e|]; [done|].
  rewrite updatePbxproj_run. simpl.
  rewrite !lookup_insert_ne by done. rewrite Hc.
  destruct (includes marker content); [done|].
  destruct (write_fails E PBXPROJ_PATH) as [e|]; done.
Qed.


Lemma main_files E w p :
  p ∉ script_paths -> files (main E w).2 !! p = files w !! p.
Proof.
  intros Hp.
  assert (p <> appEntPath /\ p <> extEntPath /\ p <> PBXPROJ_PATH) as (Ha & He & Hd).
  { unfold script_paths in Hp. rewrite !not_elem_of_cons in Hp. tauto. }
  destruct (files w !! PBXPROJ_PATH) as [content|] eqn:Hc.
  - rewrite (main_run_present E w content Hc). cbn zeta.
    destruct (write_fails E appEntPath) as [e1|]; [done|].
    destruct (write_fails E extEntPath) as [e2|];
      [simpl; by rewrite lookup_insert_ne|].
    destruct (includes marker content).
    { rewrite logged_report. simpl. by rewrite !lookup_insert_ne. }
    destruct (write_fails E PBXPROJ_PATH) as [e3|].
    { simpl. by rewrite !lookup_insert_ne. }
    rewrite logged_report. simpl. by rewrite !lookup_insert_ne.
  - by rewrite main_run, Hc.
Qed.

Lemma main_writes E w p data :
  Written p data ∈ trace (main E w).2 ->
  Written p data ∈ trace w \/ p ∈ script_paths.
Proof.
  assert (forall q, q = appEntPath \/ q = extEntPath \/ q = PBXPROJ_PATH ->
                    q ∈ script_paths) as Hin.
  { intros q. unfold script_paths. rewrite !elem_of_cons. tauto. }
  destruct (files w !! PBXPROJ_PATH) as [content|] eqn:Hc.
  - rewrite (main_run_present E w content Hc). cbn zeta.
    destruct (write_fails E appEntPath) as [e1|]; [written_cases|].
    destruct (write_fails E extEntPath) as [e2|]; [written_cases|].
    destruct (includes marker content);
      [rewrite logged_report; unfold report; written_cases|].
    destruct (write_fails E PBXPROJ_PATH) as [e3|]; [written_cases|].
    rewrite logged_report. unfold report. written_cases.
  - rewrite main_run, Hc. written_cases.
Qed.

(** X2: whatever happens, [main] leaves every file other than the two
    entitlements files and the descriptor as it was, writes to no other
    path, and removes no file. *)
Theorem main_frame (E : env) (w : world) (p : string) :
  p ∉ script_paths ->
  files (main E w).2 !! p = files w !! p /\
  (forall data, Written p data ∈ trace (main E w).2 -> Written p data ∈ trace w) /\
  (forall q, is_Some (files w !! q) -> is_Some (files (main E w).2 !! q)).
Proof.
  intros Hp. split; [by apply main_files|]. split.
  - intros data [H|H]%main_writes; done.
  - intros q Hq.
    destruct (files w !! PBXPROJ_PATH) as [content|] eqn:Hc.
    + rewrite (main_run_present E w content Hc). cbn zeta.
      destruct (write_fails E appEntPath) as [e1|]; [done|].
      destruct (write_fails E extEntPath) as [e2|].
      { simpl. rewrite lookup_insert_is_Some. destruct (decide (appEntPath = q)); auto. }
      destruct (includes marker content).
      { rewrite logged_report. simpl. rewrite !lookup_insert_is_Some.
        destruct (decide (extEntPath = q)); [by left|right; split; [done|]].
        destruct (decide (appEntPath = q)); auto. }
      destruct (write_fails E PBXPROJ_PATH) as [e3|].
      { simpl. rewrite !lookup_insert_is_Some.
        destruct (decide (extEntPath = q)); [by left|right; split; [done|]].
        destruct (decide (appEntPath = q)); auto. }
      rewrite logged_report. simpl. rewrite !lookup_insert_is_Some.
      destruct (decide (PBXPROJ_PATH = q)); [by left|right; split; [done|]].
      destruct (decide (extEntPath = q)); [by left|right; split; [done|]].
      destruct (decide (appEntPath = q)); auto.
    + by rewrite main_run, Hc.
Qed.

Lemma main_frame_witness :
  let w := world_of small_descriptor in
  let p := "package.json"%string in
  files (main env_cycle w).2 !! p = files w !! p /\
  (forall data, Written p data ∈ trace (main env_cycle w).2 -> Written p data ∈ trace w) /\
  (forall q, is_Some (files w !! q) -> is_Some (files (main env_cycle w).2 !! q)).
Proof.
  apply (main_frame env_cycle (world_of small_descriptor) "package.json").
  apply (bool_decide_unpack _). vm_compute. reflexivity.
Defined.

(** ** Failing writes *)







(** ** Runs that succeed *)

Lemma main_configured_run E w content :
  files w !! PBXPROJ_PATH = Some content ->
  includes marker content = true ->
  write_fails E appEntPath = None ->
  write_fails E extEntPath = None ->
  main E w =
  (Ret (),
   {| files := <[extEntPath := EXT_ENTITLEMENTS]>
                 (<[appEntPath := APP_ENTITLEMENTS]> (files w));
      trace := trace w ++ [Log LAdding] ++ entitlements_events
                 ++ [Log LAlreadyConfigured] ++ report;
      draws := draws w |}).
Proof.
  intros Hc Hm H1 H2. rewrite (main_run_present E w content Hc). cbn zeta.
  rewrite H1, H2, Hm, logged_report. simpl. by rewrite <- !app_assoc.
Qed.

Lemma main_patched_run E w content :
  files w !! PBXPROJ_PATH = Some content ->
  includes marker content = false ->
  write_fails E appEntPath = None ->
  write_fails E extEntPath = None ->
  write_fails E PBXPROJ_PATH = None ->
  main E w =
  (Ret (),
   let out := patch (token E (draws w)) (token E (24 + draws w)) content in
   {| files := <[PBXPROJ_PATH := out]>
                 (<[extEntPath := EXT_ENTITLEMENTS]>
                    (<[appEntPath := APP_ENTITLEMENTS]> (files w)));
      trace := trace w ++ [Log LAdding] ++ entitlements_events
                 ++ [Written PBXPROJ_PATH out; Log (LUpdated PBXPROJ_PATH)] ++ report;
      draws := 48 + draws w |}).
Proof.
  intros Hc Hm H1 H2 H3. rewrite (main_run_present E w content Hc). cbn zeta.
  rewrite H1, H2, Hm, H3, logged_report. simpl. by rewrite <- !app_assoc.
Qed.

(** X6: on a descriptor that already holds the marker, [main] still
    overwrites both entitlements files, then prints the warning and the
    success report and returns with status 0; the descriptor is neither
    changed nor written, no random number is drawn, and a failing write of
    the descriptor path plays no role. *)
Theorem main_already_configured (E : env) (w : world) (content : jsstring) :
  files w !! PBXPROJ_PATH = Some content ->
  includes marker content = true ->
  write_fails E appEntPath = None ->
  write_fails E extEntPath = None ->
  exists w',
    main E w = (Ret (), w') /\
    files w' = <[extEntPath := EXT_ENTITLEMENTS]>
                 (<[appEntPath := APP_ENTITLEMENTS]> (files w)) /\
    files w' !! PBXPROJ_PATH = Some content /\
    draws w' = draws w /\
    trace w' = trace w ++ [Log LAdding] ++ entitlements_events
                 ++ [Log LAlreadyConfigured] ++ report.
Proof.
  intros Hc Hm H1 H2. destruct paths_distinct as (Hae & Hap & Hep).
  eexists. split; [by apply (main_configured_run E w content)|]. simpl.
  split; [done|]. by rewrite !lookup_insert_ne by done.
Qed.

Lemma main_already_configured_witness :
  let E := env_failing PBXPROJ_PATH (EIO PBXPROJ_PATH) in
  let w := world_of configured_descriptor in
  exists w',
    main E w = (Ret (), w') /\
    files w' = <[extEntPath := EXT_ENTITLEMENTS]>
                 (<[appEntPath := APP_ENTITLEMENTS]> (files w)) /\
    files w' !! PBXPROJ_PATH = Some configured_descriptor /\
    draws w' = draws w /\
    trace w' = trace w ++ [Log LAdding] ++ entitlements_events
                 ++ [Log LAlreadyConfigured] ++ report.
Proof.
  apply (main_already_configured (env_failing PBXPROJ_PATH (EIO PBXPROJ_PATH))
           (world_of configured_descriptor) configured_descriptor);
    vm_compute; reflexivity.
Defined.

(** X7: on a descriptor without the marker, when no write fails, [main]
    returns with status 0 after writing the two entitlements files and then
    the descriptor, whose new content is the old one with the five
    replacements applied in the order of the source, for the two
    identifiers made of the next 48 random numbers; it prints one line per
    file and then the success report. *)
Theorem main_patches (E : env) (w : world) (content : jsstring) :
  files w !! PBXPROJ_PATH = Some content ->
  includes marker content = false ->
  write_fails E appEntPath = None ->
  write_fails E extEntPath = None ->
  write_fails E PBXPROJ_PATH = None ->
  let appEntFileRef := token E (draws w) in
  let extEntFileRef := token E (24 + draws w) in
  let out :=
    addExtGroupChild extEntFileRef
      (addAppGroupChild appEntFileRef
         (addExtBuildSetting
            (addAppBuildSetting
               (addFileReferences appEntFileRef extEntFileRef content)))) in
  exists w',
    main E w = (Ret (), w') /\
    files w' = <[PBXPROJ_PATH := out]>
                 (<[extEntPath := EXT_ENTITLEMENTS]>
                    (<[appEntPath := APP_ENTITLEMENTS]> (files w))) /\
    draws w' = 48 + draws w /\
    trace w' = trace w ++ [Log LAdding] ++ entitlements_events
                 ++ [Written PBXPROJ_PATH out; Log (LUpdated PBXPROJ_PATH)]
                 ++ report.
Proof.
  intros Hc Hm H1 H2 H3 a b out.
  eexists. split; [by apply (main_patched_run E w content)|]. done.
Qed.

Lemma main_patches_witness :
  let E := env_cycle in
  let w := world_of small_descriptor in
  let appEntFileRef := token E (draws w) in
  let extEntFileRef := token E (24 + draws w) in
  let out :=
    addExtGroupChild extEntFileRef
      (addAppGroupChild appEntFileRef
         (addExtBuildSetting
            (addAppBuildSetting
               (addFileReferences appEntFileRef extEntFileRef small_descriptor)))) in
  exists w',
    main E w = (Ret (), w') /\
    files w' = <[PBXPROJ_PATH := out]>
                 (<[extEntPath := EXT_ENTITLEMENTS]>
                    (<[appEntPath := APP_ENTITLEMENTS]> (files w))) /\
    draws w' = 48 + draws w /\
    trace w' = trace w ++ [Log LAdding] ++ entitlements_events
                 ++ [Written PBXPROJ_PATH out; Log (LUpdated PBXPROJ_PATH)]
                 ++ report.
Proof.
  apply (main_patches env_cycle (world_of small_descriptor) small_descriptor);
    vm_compute; reflexivity.
Defined.

(** The marker reaches the output of the five replacements as soon as the
    input holds an anchor of the main app. *)
Lemma patch_marker a b s :
  forallb is_hex a = true -> forallb is_hex b = true ->
  includes fileRefEndMarker s = true \/
  is_Some (exec appBuildPattern s) \/
  is_Some (exec appGroupPattern s) ->
  includes marker (patch a b s) = true.
Proof.
  intros Ha Hb Hanchor. apply includes_occurs.
  destruct Hanchor as [Hf | [H1 | H3]].
  - apply includes_occurs in Hf.
    eapply occurs_in_trans; [apply marker_in_lines|]. by apply patch_keeps_lines.
  - eapply occurs_in_trans; [apply marker_in_appBuildLine|].
    by apply patch_keeps_appBuildLine.
  - eapply occurs_in_trans; [apply marker_in_appGroupChild|].
    by apply patch_keeps_appGroupChild.
Qed.

(** X8: two runs of [main] in a row, on a descriptor that holds the end
    marker of the file references and when no write fails: the second run
    also returns with status 0, finds the descriptor configured and leaves
    every file as the first run left it; it only rewrites the two
    entitlements files with the same documents. *)
Theorem main_twice (E : env) (w : world) (content : jsstring) :
  files w !! PBXPROJ_PATH = Some content ->
  includes marker content = false ->
  includes fileRefEndMarker content = true ->
  write_fails E appEntPath = None ->
  write_fails E extEntPath = None ->
  write_fails E PBXPROJ_PATH = None ->
  let w1 := (main E w).2 in
  let w2 := (main E w1).2 in
  (main E w).1 = Ret () /\
  (main E w1).1 = Ret () /\
  files w2 = files w1 /\
  draws w2 = draws w1 /\
  trace w2 = trace w1 ++ [Log LAdding] ++ entitlements_events
               ++ [Log LAlreadyConfigured] ++ report.
Proof.
  intros Hc Hm Hf H1 H2 H3 w1 w2.
  pose proof (main_patched_run E w content Hc Hm H1 H2 H3) as Hrun.
  cbn zeta in Hrun. set (out := patch _ _ content) in Hrun.
  assert (includes marker out = true) as Hmo
    by (apply patch_marker; [apply token_hex | apply token_hex | by left]).
  assert (files w1 !! PBXPROJ_PATH = Some out) as Hout
    by (unfold w1; rewrite Hrun; apply lookup_insert_eq).
  pose proof (main_configured_run E w1 out Hout Hmo H1 H2) as Hrun2.
  split; [by rewrite Hrun|]. split; [by rewrite Hrun2|].
  unfold w2. rewrite Hrun2. cbn [snd files draws trace]. split; [|done].
  destruct paths_distinct as (Hae & Hap & Hep).
  unfold w1. rewrite Hrun. cbn [snd files].
  set (m := <[PBXPROJ_PATH := _]> _).
  assert (m !! appEntPath = Some APP_ENTITLEMENTS) as Happ
    by (unfold m; rewrite !lookup_insert_ne by (done || by apply not_eq_sym);
        apply lookup_insert_eq).
  assert (m !! extEntPath = Some EXT_ENTITLEMENTS) as Hext
    by (unfold m; rewrite lookup_insert_ne by (done || by apply not_eq_sym);
        apply lookup_insert_eq).
  rewrite (insert_id m appEntPath APP_ENTITLEMENTS Happ).
  by rewrite (insert_id m extEntPath EXT_ENTITLEMENTS Hext).
Qed.

Lemma main_twice_witness :
  let E := env_cycle in
  let w := world_of small_descriptor in
  let w1 := (main E w).2 in
  let w2 := (main E w1).2 in
  (main E w).1 = Ret () /\
  (main E w1).1 = Ret () /\
  files w2 = files w1 /\
  draws w2 = draws w1 /\
  trace w2 = trace w1 ++ [Log LAdding] ++ entitlements_events
               ++ [Log LAlreadyConfigured] ++ report.
Proof.
  apply (main_twice env_cycle (world_of small_descriptor) small_descriptor);
    vm_compute; reflexivity.
Defined.

(** ** The entitlements writer and the patcher on their own *)

(** X9: when both writes succeed, [createEntitlementsFiles] returns the two
    paths, what the two files held before plays no role, every other file
    is kept, and a second call leaves the files as the first call left
    them. *)
Theorem createEntitlementsFiles_overwrites (E : env) (w v : world) :
  write_fails E appEntPath = None ->
  write_fails E extEntPath = None ->
  (forall p, p <> appEntPath -> p <> extEntPath -> files w !! p = files v !! p) ->
  let w1 := (createEntitlementsFiles E w).2 in
  (createEntitlementsFiles E w).1 = Ret (appEntPath, extEntPath) /\
  files w1 = files (createEntitlementsFiles E v).2 /\
  (forall p, p <> appEntPath -> p <> extEntPath -> files w1 !! p = files w !! p) /\
  files (createEntitlementsFiles E w1).2 = files w1.
Proof.
  intros H1 H2 Hagree w1. unfold w1.
  rewrite !createEntitlementsFiles_run, H1, H2.
  cbn [fst snd files logged stored].
  split; [done|]. split; [|split].
  - apply map_eq. intros p.
    destruct (decide (p = extEntPath)) as [->|Hpe]; [by rewrite !lookup_insert_eq|].
    rewrite !(lookup_insert_ne _ extEntPath p) by done.
    destruct (decide (p = appEntPath)) as [->|Hpa]; [by rewrite !lookup_insert_eq|].
    rewrite !(lookup_insert_ne _ appEntPath p) by done. by apply Hagree.
  - intros p Hpa Hpe. by rewrite !lookup_insert_ne.
  - apply map_eq. intros p.
    destruct (decide (p = extEntPath)) as [->|Hpe]; [by rewrite !lookup_insert_eq|].
    rewrite !(lookup_insert_ne _ extEntPath p) by done.
    destruct (decide (p = appEntPath)) as [->|Hpa]; [by rewrite !lookup_insert_eq|].
    by rewrite !lookup_insert_ne by done.
Qed.

Lemma createEntitlementsFiles_overwrites_witness :
  let E := env_zero in
  let w := world_of small_descriptor in
  let v := {| files := <[appEntPath := lit "stale"]> (files w); trace := []; draws := 7 |} in
  let w1 := (createEntitlementsFiles E w).2 in
  (createEntitlementsFiles E w).1 = Ret (appEntPath, extEntPath) /\
  files w1 = files (createEntitlementsFiles E v).2 /\
  (forall p, p <> appEntPath -> p <> extEntPath -> files w1 !! p = files w !! p) /\
  files (createEntitlementsFiles E w1).2 = files w1.
Proof.
  apply (createEntitlementsFiles_overwrites env_zero (world_of small_descriptor)
           {| files := <[appEntPath := lit "stale"]> (files (world_of small_descriptor));
              trace := []; draws := 7 |}).
  - reflexivity.
  - reflexivity.
  - intros p Hpa Hpe. simpl. by rewrite lookup_insert_ne.
Defined.



(** ** The five replacements, one at a time *)

Lemma index_of_here needle s :
  starts_with needle s = true -> index_of needle s = Some 0.
Proof. intros Hs. destruct s; simpl; by rewrite Hs. Qed.

Lemma index_of_first needle before after :
  (forall i, i < length before ->
     starts_with needle (drop i (before ++ needle ++ after)) = false) ->
  index_of needle (before ++ needle ++ after) = Some (length before).
Proof.
  induction before as [|c before IH]; intros Hfirst.
  - apply index_of_here. apply (starts_with_app needle after).
  - pose proof (Hfirst 0 ltac:(simpl; lia)) as H0. rewrite drop_0 in H0.
    cbn [app index_of] in *. rewrite H0.
    rewrite IH; [done|]. intros i Hi. apply (Hfirst (S i)). simpl. lia.
Qed.

(** X11: the file reference lines go directly in front of the first
    occurrence of the end marker of the section, which itself stays; the
    text before it and everything after it, later occurrences of the end
    marker included, is unchanged.  This holds for every pair of generated
    identifiers. *)
Theorem addFileReferences_first (E : env) (d d' : nat) (before after : jsstring) :
  (forall i, i < length before ->
     starts_with fileRefEndMarker (drop i (before ++ fileRefEndMarker ++ after)) = false) ->
  addFileReferences (token E d) (token E d') (before ++ fileRefEndMarker ++ after)
  = before ++ (tab ++ tab ++ token E d ++ fileRefMiddle ++ token E d' ++ fileRefTail)
      ++ fileRefEndMarker ++ after.
Proof.
  intros Hfirst. unfold addFileReferences, replace_string.
  rewrite (index_of_first _ _ _ Hfirst).
  rewrite get_substitution_plain by (apply fileRefAddition_plain; apply token_plain).
  rewrite fileRefAddition_lines, take_app_length.
  rewrite <- drop_drop, drop_app_length, drop_app_length.
  unfold fileRefLines. by rewrite <- !app_assoc.
Qed.

Lemma addFileReferences_first_witness :
  let before := lit "/* Begin PBXFileReference section */" ++ nl in
  let after := nl ++ fileRefEndMarker in
  addFileReferences (token env_cycle 0) (token env_cycle 24)
    (before ++ fileRefEndMarker ++ after)
  = before ++ (tab ++ tab ++ token env_cycle 0 ++ fileRefMiddle
                 ++ token env_cycle 24 ++ fileRefTail)
      ++ fileRefEndMarker ++ after.
Proof.
  apply (addFileReferences_first env_cycle 0 24
           (lit "/* Begin PBXFileReference section */" ++ nl) (nl ++ fileRefEndMarker)).
  intros i Hi.
  do 37 (destruct i as [|i]; [vm_compute; reflexivity|]).
  vm_compute in Hi. lia.
Defined.

(** What the replacement of every match of [(l)(\s+)(k1|k2)] gives is
    determined by the input. *)
Lemma settings_patched_fun l k1 k2 line s s1 s2 :
  settings_patched l k1 k2 line s s1 ->
  settings_patched l k1 k2 line s s2 -> s1 = s2.
Proof.
  intros H1. revert s2.
  induction H1 as [|c s s' Hnone _ IH|s w k rest rest' Hm _ IH]; intros s2 H2.
  - inversion H2 as [| |s0 w0 k0 rest0 rest0' Hm0 _ Hs0 Hs2]; [done|].
    subst. apply match_setting_Some in Hm0 as (w' & k' & Hs & _ & Hne & _).
    symmetry in Hs. apply app_eq_nil in Hs as [_ Hs].
    by apply app_eq_nil in Hs as [? _].
  - inversion H2 as [|c0 s0 s0' Hnone0 Hrest0|s0 w0 k0 rest0 rest0' Hm0 _ Hs0 Hs2].
    + subst. f_equal. by apply IH.
    + subst. congruence.
  - inversion H2 as [|c0 s0 s0' Hnone0 Hrest0|s0 w0 k0 rest0 rest0' Hm0 Hrest0 Hs0 Hs2].
    + subst. apply match_setting_Some in Hm as (? & ? & Hs & _ & Hne & _).
      symmetry in Hs. apply app_eq_nil in Hs as [_ Hs].
      by apply app_eq_nil in Hs as [? _].
    + subst. congruence.
    + subst. rewrite Hm in Hm0. injection Hm0 as <- <- <-.
      do 5 f_equal. by apply IH.
Qed.

Lemma match_setting_exact l k1 k2 w k r :
  starts_solid k1 = true -> starts_solid k2 = true ->
  starts_with k1 (k2 ++ r) = false ->
  w <> [] -> forallb is_space w = true -> k = k1 \/ k = k2 ->
  match_setting l k1 k2 (l ++ w ++ k ++ r) = Some (r, [Some l; Some w; Some k]).
Proof.
  intros Hk1 Hk2 Hdiff Hne Hw Hk. unfold match_setting.
  rewrite starts_with_app, drop_app_length.
  assert (starts_solid k = true) as Hks by (by destruct Hk as [-> | ->]).
  destruct (span_unique is_space w (k ++ r) Hw) as [-> ->].
  { destruct k as [|c k]; [done|]. simpl in *. by apply negb_true_iff. }
  destruct w as [|y w]; [done|].
  destruct Hk as [-> | ->].
  - by rewrite starts_with_app, drop_app_length.
  - by rewrite Hdiff, starts_with_app, drop_app_length.
Qed.

Section SettingFirst.

Variables (l k1 k2 line : jsstring).
Hypothesis k1_solid : starts_solid k1 = true.
Hypothesis k2_solid : starts_solid k2 = true.
Hypothesis k1_k2 : forall r, starts_with k1 (k2 ++ r) = false.

Lemma settings_patched_first before w k rest rest' :
  (forall i, i < length before ->
     match_setting l k1 k2 (drop i (before ++ l ++ w ++ k ++ rest)) = None) ->
  w <> [] -> forallb is_space w = true -> k = k1 \/ k = k2 ->
  settings_patched l k1 k2 line rest rest' ->
  settings_patched l k1 k2 line (before ++ l ++ w ++ k ++ rest)
    (before ++ l ++ w ++ line ++ w ++ k ++ rest').
Proof.
  intros Hfirst Hne Hw Hk Hrest.
  induction before as [|c before IH].
  - simpl. apply (sp_hit _ _ _ _ _ w k rest); [|done].
    by apply match_setting_exact.
  - cbn [app]. apply sp_skip; [exact (Hfirst 0 ltac:(simpl; lia))|].
    apply IH. intros i Hi. apply (Hfirst (S i)). simpl. lia.
Qed.

End SettingFirst.

(** X12: the build setting of the app goes between the white space that
    follows the bundle identifier line and the keyword, followed by a copy
    of that white space, so that the new line gets the indentation of the
    next one; this holds for the first context of the text, and the rest of
    the text is treated in the same way, from behind the keyword on. *)
Theorem addAppBuildSetting_first (before ws k rest : jsstring) :
  (forall i, i < length before ->
     match_here appBuildPattern
       (drop i (before ++ appBundleLine ++ ws ++ k ++ rest)) = None) ->
  ws <> [] -> forallb is_space ws = true ->
  k = lit "PRODUCT_NAME" \/ k = lit "REGISTER_APP_GROUPS" ->
  addAppBuildSetting (before ++ appBundleLine ++ ws ++ k ++ rest)
  = before ++ appBundleLine ++ ws
      ++ lit "CODE_SIGN_ENTITLEMENTS = BewlyCat/BewlyCat.entitlements;" ++ ws
      ++ k ++ addAppBuildSetting rest.
Proof.
  intros Hfirst Hne Hw Hk.
  eapply settings_patched_fun; [apply addAppBuildSetting_patched|].
  apply settings_patched_first; try done; try by_compute.
  - intros i Hi. rewrite <- match_here_appBuild. by apply Hfirst.
  - apply addAppBuildSetting_patched.
Qed.

Lemma addAppBuildSetting_first_witness :
  let before := lit "buildSettings = {" ++ nl in
  let ws := nl ++ tab ++ tab in
  let k := lit "PRODUCT_NAME" in
  let rest := lit " = BewlyCat;" in
  addAppBuildSetting (before ++ appBundleLine ++ ws ++ k ++ rest)
  = before ++ appBundleLine ++ ws
      ++ lit "CODE_SIGN_ENTITLEMENTS = BewlyCat/BewlyCat.entitlements;" ++ ws
      ++ k ++ addAppBuildSetting rest.
Proof.
  apply (addAppBuildSetting_first (lit "buildSettings = {" ++ nl) (nl ++ tab ++ tab)
           (lit "PRODUCT_NAME") (lit " = BewlyCat;")).
  - intros i Hi.
    do 18 (destruct i as [|i]; [vm_compute; reflexivity|]).
    vm_compute in Hi. lia.
  - discriminate.
  - reflexivity.
  - left. reflexivity.
Defined.

(** X13: the same for the extension: its build setting, with the quoted
    path, goes between the white space behind the bundle identifier line
    of the extension and the keyword [PRODUCT_NAME] or [SKIP_INSTALL],
    followed by a copy of that white space. *)
Theorem addExtBuildSetting_first (before ws k rest : jsstring) :
  (forall i, i < length before ->
     match_here extBuildPattern
       (drop i (before ++ extBundleLine ++ ws ++ k ++ rest)) = None) ->
  ws <> [] -> forallb is_space ws = true ->
  k = lit "PRODUCT_NAME" \/ k = lit "SKIP_INSTALL" ->
  addExtBuildSetting (before ++ extBundleLine ++ ws ++ k ++ rest)
  = before ++ extBundleLine ++ ws
      ++ (lit "CODE_SIGN_ENTITLEMENTS = " ++ dq
            ++ lit "BewlyCat Extension/BewlyCat Extension.entitlements" ++ dq ++ lit ";")
      ++ ws ++ k ++ addExtBuildSetting rest.
Proof.
  intros Hfirst Hne Hw Hk.
  eapply settings_patched_fun; [apply addExtBuildSetting_patched|].
  apply settings_patched_first; try done; try by_compute.
  - intros i Hi. rewrite <- match_here_extBuild. by apply Hfirst.
  - apply addExtBuildSetting_patched.
Qed.

Lemma addExtBuildSetting_first_witness :
  let before := lit "buildSettings = {" ++ nl in
  let ws := lit "  " in
  let k := lit "SKIP_INSTALL" in
  let rest := lit " = YES;" in
  addExtBuildSetting (before ++ extBundleLine ++ ws ++ k ++ rest)
  = before ++ extBundleLine ++ ws
      ++ (lit "CODE_SIGN_ENTITLEMENTS = " ++ dq
            ++ lit "BewlyCat Extension/BewlyCat Extension.entitlements" ++ dq ++ lit ";")
      ++ ws ++ k ++ addExtBuildSetting rest.
Proof.
  apply (addExtBuildSetting_first (lit "buildSettings = {" ++ nl) (lit "  ")
           (lit "SKIP_INSTALL") (lit " = YES;")).
  - intros i Hi.
    do 18 (destruct i as [|i]; [vm_compute; reflexivity|]).
    vm_compute in Hi. lia.
  - discriminate.
  - reflexivity.
  - right. reflexivity.
Defined.

(** ** The two targets are kept apart *)

Lemma starts_with_fork p x y q1 q2 s :
  x <> y -> starts_with (p ++ x :: q1) s = true -> starts_with (p ++ y :: q2) s = false.
Proof.
  intros Hxy [t1 H1]%starts_with_prefix.
  destruct (starts_with (p ++ y :: q2) s) eqn:H2; [|done].
  apply starts_with_prefix in H2 as [t2 H2]. rewrite H1 in H2.
  rewrite <- !app_assoc in H2. apply app_inv_head in H2. by injection H2.
Qed.

(** X14: no text is matched at its start by the pattern of the app and by
    the pattern of the extension, neither for the build settings nor for
    the groups: a bundle identifier line or group header belongs to one
    target only. *)
Theorem patterns_disjoint (s : jsstring) :
  (match_here appBuildPattern s = None \/ match_here extBuildPattern s = None) /\
  (match_here appGroupPattern s = None \/ match_here extGroupPattern s = None).
Proof.
  rewrite match_here_appBuild, match_here_extBuild, match_here_appGroup,
    match_here_extGroup.
  unfold match_appBuild, match_extBuild, match_appGroup, match_extGroup,
    match_setting, match_group.
  split.
  - destruct (starts_with appBundleLine s) eqn:Happ; [|by left]. right.
    change extBundleLine
      with (lit "PRODUCT_BUNDLE_IDENTIFIER = com.hankun.BewlyCat"
              ++ 46%N :: lit "Extension;").
    rewrite (starts_with_fork (lit "PRODUCT_BUNDLE_IDENTIFIER = com.hankun.BewlyCat")
               59%N 46%N [] (lit "Extension;") s); [done|done|exact Happ].
  - destruct (starts_with appGroupHeader s) eqn:Happ; [|by left]. right.
    change extGroupHeader with (lit "/* BewlyCat " ++ 69%N :: lit "xtension */ = {").
    rewrite (starts_with_fork (lit "/* BewlyCat ") 42%N 69%N
               (lit "/ = {") (lit "xtension */ = {") s); [done|done|exact Happ].
Qed.

(** X15: the replacement for the app leaves the extension alone: it neither
    creates nor removes a position at which the pattern of the extension
    matches, and it adds no build setting line of the extension. *)
Theorem addAppBuildSetting_keeps_extension (s : jsstring) :
  count_at (matches_here extBuildPattern) (addAppBuildSetting s)
  = count_at (matches_here extBuildPattern) s /\
  count_occ extBuildLine (addAppBuildSetting s) = count_occ extBuildLine s.
Proof.
  pose proof (addAppBuildSetting_steps s) as Hsteps.
  pose proof (count_steps is_extContext _ 0 _ _ _ appBuild_extContext Hsteps) as H1.
  pose proof (count_steps is_extBuildLine _ 0 _ _ _ appBuild_extBuildLine Hsteps) as H2.
  unfold is_extContext in H1. unfold is_extBuildLine in H2.
  rewrite !count_occ_count_at. split; lia.
Qed.

(** ** Every identifier can come out *)

Lemma digit_of_draw_for c : is_hex c = true -> digit_of (draw_for c) = [c].
Proof.
  unfold is_hex. intros Hc%bool_decide_eq_true%list_elem_of_In.
  assert (forallb (fun x => bool_decide (digit_of (draw_for x) = [x])) hex_chars = true)
    as Hall by (vm_compute; reflexivity).
  rewrite forallb_forall in Hall. specialize (Hall c Hc).
  by apply bool_decide_eq_true in Hall.
Qed.

Lemma digits_env_for t d j n :
  forallb is_hex t = true -> j + n <= length t ->
  digits (env_for t d) (d + j) n = take n (drop j t).
Proof.
  intros Ht. revert j. induction n as [|n IH]; intros j Hj; [done|].
  cbn [digits random env_for]. replace (d + j - d) with j by lia.
  destruct (lookup_lt_is_Some_2 t j ltac:(lia)) as [c Hc].
  rewrite (nth_lookup_Some _ _ _ _ Hc).
  rewrite digit_of_draw_for.
  - replace (S (d + j)) with (d + S j) by lia. rewrite IH by lia.
    rewrite (drop_S _ _ _ Hc). done.
  - rewrite forallb_forall in Ht. apply Ht, list_elem_of_In.
    by eapply list_elem_of_lookup_2.
Qed.

(** X16: every string of 24 characters of the alphabet is an identifier
    that [generateUUID] can return: there are draws for which the call
    returns it, so no identifier of that form is excluded. *)
Theorem generateUUID_reaches (t : jsstring) (w : world) :
  length t = 24 ->
  forallb is_hex t = true ->
  exists E, generateUUID E w = (Ret t, advance 24 w).
Proof.
  intros Hlen Ht. exists (env_for t (draws w)).
  rewrite generateUUID_run. unfold token.
  replace (draws w) with (draws w + 0) at 2 by lia.
  rewrite digits_env_for by (done || lia). rewrite drop_0.
  by rewrite <- Hlen, firstn_all.
Qed.

Lemma generateUUID_reaches_witness :
  exists E, generateUUID E empty_world
            = (Ret (lit "FEDCBA9876543210F0E1D2C3"), advance 24 empty_world).
Proof.
  apply (generateUUID_reaches (lit "FEDCBA9876543210F0E1D2C3") empty_world);
    vm_compute; reflexivity.
Defined.

(** ** Nothing is deleted *)

Lemma sublist_same_length {A} (x y : list A) :
  x `sublist_of` y -> length y <= length x -> x = y.
Proof.
  induction 1 as [|c x y _ IH|c x y Hsub _]; intros Hlen; [done| |].
  - simpl in Hlen. f_equal. apply IH. lia.
  - apply sublist_length in Hsub. simpl in Hlen. lia.
Qed.

(** X17: whatever the descriptor holds, the five replacements only insert:
    the content read is recovered from the content written by deleting
    characters, so nothing of the original is removed or reordered; and
    when the length did not grow nothing was changed at all. *)
Theorem patch_only_inserts (E : env) (d d' : nat) (content : jsstring) :
  let out := patch (token E d) (token E d') content in
  content `sublist_of` out /\
  length content <= length out /\
  (length out = length content -> out = content).
Proof.
  intros out.
  assert (content `sublist_of` out) as Hsub
    by (apply patch_sublist; apply token_hex).
  split; [done|]. split; [by apply sublist_length|].
  intros Hlen. symmetry. apply sublist_same_length; [done|lia].
Qed.

(** ** Replacing the build settings twice *)

Lemma start_free_app l y1 y2 :
  start_free l y1 -> start_free l y2 -> start_free l (y1 ++ y2).
Proof.
  intros H1 H2 t d Hd. rewrite <- app_assoc.
  destruct (decide (d < length y1)) as [Hlt|Hge]; [by apply H1|].
  rewrite drop_app_ge by lia. apply H2. rewrite length_app in Hd. lia.
Qed.

Lemma start_free_no_char c0 l' y :
  no_char c0 y = true -> start_free (c0 :: l') y.
Proof.
  intros Hy t d Hd. rewrite drop_app_le by lia.
  destruct (drop_head_elem y d Hd) as (x & r & -> & Hin).
  apply starts_with_head_ne. intros <-.
  unfold no_char in Hy. rewrite forallb_forall in Hy.
  specialize (Hy _ Hin). by rewrite N.eqb_refl in Hy.
Qed.

Lemma start_free_spaces c0 l' w :
  is_space c0 = false -> forallb is_space w = true -> start_free (c0 :: l') w.
Proof.
  intros Hc0 Hw t d Hd. rewrite drop_app_le by lia.
  destruct (drop_head_elem w d Hd) as (x & r & -> & Hin).
  apply starts_with_head_ne. intros <-.
  rewrite forallb_forall in Hw. specialize (Hw _ Hin). congruence.
Qed.

Lemma start_free_restart l k : no_restart l k = true -> start_free l k.
Proof. intros Hk t d Hd. rewrite drop_app_le by lia. by apply no_restart_drop. Qed.

Lemma count_in_zero M y t :
  (forall d, d < length y -> M (drop d (y ++ t)) = false) -> count_in M y t = 0.
Proof.
  induction y as [|x y IH]; intros Hall; [done|]. cbn [count_in].
  pose proof (Hall 0 ltac:(simpl; lia)) as H0. rewrite drop_0 in H0.
  rewrite H0, IH; [done|].
  intros d Hd. apply (Hall (S d)). simpl. lia.
Qed.

Lemma count_at_zero M s :
  count_at M s = 0 -> forall j, M (drop j s) = false.
Proof.
  induction s as [|c s IH]; cbn [count_at]; intros Hz j.
  - rewrite drop_nil. destruct (M []); [lia|done].
  - destruct j as [|j]; [rewrite drop_0; destruct (M (c :: s)); [lia|done]|].
    apply IH. lia.
Qed.

Section SettingOnce.

Variables (c0 : N) (l' k1 k2 line : jsstring).
Hypothesis c0_solid : is_space c0 = false.
Hypothesis l'_free : no_char c0 l' = true.
Hypothesis k1_restart : no_restart (c0 :: l') k1 = true.
Hypothesis k2_restart : no_restart (c0 :: l') k2 = true.
Hypothesis k1_solid : starts_solid k1 = true.
Hypothesis k2_solid : starts_solid k2 = true.
Hypothesis line_solid : starts_solid line = true.
Hypothesis line_free : no_char c0 line = true.
Hypothesis k1_line : compat k1 line = false.
Hypothesis k2_line : compat k2 line = false.

Lemma matches_starts s :
  setting_matches (c0 :: l') k1 k2 s = true -> starts_with (c0 :: l') s = true.
Proof.
  unfold setting_matches, match_setting.
  by destruct (starts_with (c0 :: l') s).
Qed.

(** A match that starts in front of an occurrence of the literal ends in
    front of it. *)
Lemma match_before x t t' :
  x <> [] ->
  setting_matches (c0 :: l') k1 k2 (x ++ (c0 :: l') ++ t) = true ->
  setting_matches (c0 :: l') k1 k2 (x ++ t') = true.
Proof.
  intros Hx Hm.
  pose proof (decides_setting c0 l' k1 k2 k1_solid k2_solid) as Hdec.
  apply Hdec in Hm as (m & r & Heq & HW). apply Hdec.
  apply app_eq_app in Heq as [z [[-> Hr] | [-> Hz]]].
  - exists m, (z ++ t'). by rewrite <- app_assoc.
  - destruct z as [|y z].
    + rewrite app_nil_r in *. by exists x, t'.
    + exfalso.
      pose proof (setting_no_overlap c0 l' k1 k2 (x ++ y :: z) r (length x)
                    c0_solid l'_free k1_restart k2_restart HW) as Hno.
      rewrite <- app_assoc, drop_app_length, <- Hz, starts_with_app in Hno.
      assert (true = false) as Habs; [|done].
      apply Hno. rewrite length_app. destruct x; [done|]. simpl. lia.
Qed.

Lemma line_no_match w t :
  forallb is_space w = true ->
  setting_matches (c0 :: l') k1 k2 ((c0 :: l') ++ w ++ line ++ t) = false.
Proof.
  intros Hw. unfold setting_matches, match_setting.
  rewrite starts_with_app, drop_app_length.
  destruct (span_unique is_space w (line ++ t) Hw) as [-> ->].
  { destruct line as [|c r]; [done|]. simpl in *. by apply negb_true_iff. }
  destruct w; [done|].
  by rewrite (compat_false_app _ _ _ k1_line), (compat_false_app _ _ _ k2_line).
Qed.

(** An insertion of the line destroys the match it is made in and touches
    no other. *)
Lemma setting_step_less a block b :
  at_setting (c0 :: l') k1 k2 line a block b ->
  count_at (setting_matches (c0 :: l') k1 k2) (a ++ b)
  = count_at (setting_matches (c0 :: l') k1 k2) (a ++ block ++ b) + 1.
Proof.
  intros (a' & w & k & r & -> & Hne & Hw & Hk & -> & ->).
  assert (no_restart (c0 :: l') k = true) as Hrk by (by destruct Hk as [-> | ->]).
  rewrite <- !app_assoc. rewrite !(count_at_app _ a').
  rewrite (count_in_agree _ a' ((c0 :: l') ++ w ++ k ++ r)
             ((c0 :: l') ++ w ++ line ++ w ++ k ++ r)).
  2:{ intros a0 x Hx _.
      destruct (setting_matches (c0 :: l') k1 k2 (x ++ (c0 :: l') ++ w ++ k ++ r))
        eqn:H1.
      - symmetry. by eapply match_before.
      - destruct (setting_matches (c0 :: l') k1 k2
                    (x ++ (c0 :: l') ++ w ++ line ++ w ++ k ++ r)) eqn:H2; [|done].
        rewrite (match_before x _ ((c0 :: l') ++ w ++ k ++ r) Hx H2) in H1. done. }
  assert (setting_word (c0 :: l') k1 k2 ((c0 :: l') ++ w ++ k)) as HW
    by (by exists w, k).
  replace ((c0 :: l') ++ w ++ k ++ r) with (((c0 :: l') ++ w ++ k) ++ r)
    by (by rewrite <- !app_assoc).
  replace ((c0 :: l') ++ w ++ line ++ w ++ k ++ r)
    with (((c0 :: l') ++ w ++ line ++ w ++ k) ++ r) by (by rewrite <- !app_assoc).
  rewrite !(count_at_app _ _ r).
  assert (count_in (setting_matches (c0 :: l') k1 k2) ((c0 :: l') ++ w ++ k) r = 1)
    as ->.
  { apply count_in_one.
    - by eapply setting_word_solid.
    - apply (decides_setting c0 l' k1 k2 k1_solid k2_solid). by eexists _, r.
    - intros d Hd. destruct (setting_matches _ _ _ _) eqn:Hm; [|done].
      apply matches_starts in Hm.
      by rewrite (setting_no_overlap c0 l' k1 k2 _ r d) in Hm. }
  assert (count_in (setting_matches (c0 :: l') k1 k2)
            ((c0 :: l') ++ w ++ line ++ w ++ k) r = 0) as ->; [|lia].
  apply count_in_zero. intros [|d] Hd.
  - rewrite drop_0, <- !app_assoc. by apply line_no_match.
  - destruct (setting_matches _ _ _ _) eqn:Hm; [|done].
    apply matches_starts in Hm.
    change (drop (S d) (((c0 :: l') ++ ?y) ++ ?t)) with (drop d ((l' ++ y) ++ t)) in Hm.
    rewrite (start_free_app (c0 :: l') l' (w ++ line ++ w ++ k)) in Hm; [done| | |].
    + by apply start_free_no_char.
    + apply start_free_app; [by apply start_free_spaces|].
      apply start_free_app; [by apply start_free_no_char|].
      apply start_free_app; [by apply start_free_spaces|].
      by apply start_free_restart.
    + simpl in Hd. rewrite !length_app in *. simpl in *. lia.
Qed.

Lemma steps_less n s s' :
  nsteps (insert3 (at_setting (c0 :: l') k1 k2 line)) n s s' ->
  count_at (setting_matches (c0 :: l') k1 k2) s
  = count_at (setting_matches (c0 :: l') k1 k2) s' + n.
Proof.
  induction 1 as [|n s s1 s' (a & block & b & -> & -> & HR) _ IH]; [lia|].
  rewrite (setting_step_less _ _ _ HR), IH. lia.
Qed.

(** After the replacement the pattern matches nowhere. *)
Lemma settings_patched_done s s' :
  settings_patched (c0 :: l') k1 k2 line s s' ->
  forall j, match_setting (c0 :: l') k1 k2 (drop j s') = None.
Proof.
  intros Hp j.
  assert (nsteps (insert3 (at_setting (c0 :: l') k1 k2 line))
            (count_at (setting_matches (c0 :: l') k1 k2) s) s s') as Hsteps
    by (by apply settings_patched_steps).
  apply steps_less in Hsteps.
  assert (count_at (setting_matches (c0 :: l') k1 k2) s' = 0) as Hz by lia.
  pose proof (count_at_zero _ _ Hz j) as Hj. unfold setting_matches in Hj.
  by destruct (match_setting (c0 :: l') k1 k2 (drop j s')).
Qed.

End SettingOnce.

(** X18: the two replacements of the build settings can be repeated
    without harm: in what they return their pattern matches nowhere, so a
    second application returns its input; a build setting is never added
    twice by these two steps alone. *)
Theorem build_settings_twice (s : jsstring) :
  (forall j, match_here appBuildPattern (drop j (addAppBuildSetting s)) = None) /\
  addAppBuildSetting (addAppBuildSetting s) = addAppBuildSetting s /\
  (forall j, match_here extBuildPattern (drop j (addExtBuildSetting s)) = None) /\
  addExtBuildSetting (addExtBuildSetting s) = addExtBuildSetting s.
Proof.
  assert (forall j, match_here appBuildPattern (drop j (addAppBuildSetting s)) = None)
    as Happ.
  { intros j. rewrite match_here_appBuild.
    apply (settings_patched_done 80
             (lit "RODUCT_BUNDLE_IDENTIFIER = com.hankun.BewlyCat;")
             (lit "PRODUCT_NAME") (lit "REGISTER_APP_GROUPS") appBuildLine)
      with (s := s); try by_compute.
    apply addAppBuildSetting_patched. }
  assert (forall j, match_here extBuildPattern (drop j (addExtBuildSetting s)) = None)
    as Hext.
  { intros j. rewrite match_here_extBuild.
    apply (settings_patched_done 80
             (lit "RODUCT_BUNDLE_IDENTIFIER = com.hankun.BewlyCat.Extension;")
             (lit "PRODUCT_NAME") (lit "SKIP_INSTALL") extBuildLine)
      with (s := s); try by_compute.
    apply addExtBuildSetting_patched. }
  split; [done|]. split; [|split; [done|]].
  - unfold addAppBuildSetting at 1. unfold replace_regexp. cbn [global appBuildPattern].
    by apply replace_all_absent.
  - unfold addExtBuildSetting at 1. unfold replace_regexp. cbn [global extBuildPattern].
    by apply replace_all_absent.
Qed.

(** ** Replacing the first match twice *)

(** X19: the replacement of the end marker puts the marker back behind the
    two new lines, so the text it returns holds the end marker again and is
    longer by the two lines; applied to its own output it adds two more
    lines, so this step is not idempotent by itself. *)
Theorem addFileReferences_again (E : env) (d d' e e' : nat) (s : jsstring) :
  includes fileRefEndMarker s = true ->
  let s1 := addFileReferences (token E d) (token E d') s in
  let s2 := addFileReferences (token E e) (token E e') s1 in
  includes fileRefEndMarker s1 = true /\
  length s1 = length s + length (fileRefLines (token E d) (token E d')) /\
  length s2 = length s1 + length (fileRefLines (token E e) (token E e')) /\
  s2 <> s1.
Proof.
  intros Hs s1 s2.
  assert (forall a b u, plain a = true -> plain b = true ->
            includes fileRefEndMarker u = true ->
            includes fileRefEndMarker (addFileReferences a b u) = true /\
            length (addFileReferences a b u) = length u + length (fileRefLines a b))
    as Hstep.
  { intros a b u Ha Hb Hu.
    destruct (addFileReferences_spec a b u Ha Hb)
      as [[Hnone _] | (before & after & -> & ->)]; [congruence|].
    split.
    - apply includes_occurs. exists (before ++ fileRefLines a b), after.
      by rewrite <- !app_assoc.
    - rewrite !length_app. lia. }
  destruct (Hstep _ _ s (token_plain E d) (token_plain E d') Hs) as [H1 L1].
  destruct (Hstep _ _ s1 (token_plain E e) (token_plain E e') H1) as [H2 L2].
  split; [done|]. split; [done|]. split; [done|].
  intros Heq. fold s2 in L2. rewrite Heq in L2.
  unfold fileRefLines in L2. rewrite !length_app in L2. simpl in L2. lia.
Qed.

Lemma addFileReferences_again_witness :
  let E := env_cycle in
  let s := small_descriptor in
  let s1 := addFileReferences (token E 0) (token E 24) s in
  let s2 := addFileReferences (token E 48) (token E 72) s1 in
  includes fileRefEndMarker s1 = true /\
  length s1 = length s + length (fileRefLines (token E 0) (token E 24)) /\
  length s2 = length s1 + length (fileRefLines (token E 48) (token E 72)) /\
  s2 <> s1.
Proof.
  apply (addFileReferences_again env_cycle 0 24 48 72 small_descriptor).
  vm_compute. reflexivity.
Defined.

Section GroupAgain.

Variables (rx : RegExp) (l0 l1 l2 : jsstring).
Hypothesis rx_match : forall s, match_here rx s = match_group l0 l1 l2 s.
Hypothesis l1_solid : starts_solid l1 = true.
Hypothesis l2_solid : starts_solid l2 = true.

Lemma child_inserted_grows c s s' :
  child_inserted rx (group_word l0 l1 l2) c s s' ->
  is_Some (exec rx s) ->
  is_Some (exec rx s') /\ length s' = length s + length c.
Proof.
  destruct 1 as [s Hnone|before m after _ HW _].
  - intros Hsome. apply exec_None in Hnone. rewrite Hnone in Hsome.
    by destruct Hsome.
  - intros _. split.
    + apply (exec_occurs_group rx l0 l1 l2 rx_match l1_solid l2_solid).
      by exists before, m, (c ++ after).
    + rewrite !length_app. lia.
Qed.

End GroupAgain.

(** X20: the replacement for the group of the app leaves the header it
    matched in place, so its pattern matches its output again; each
    application to a text with such a header makes the text longer by one
    child entry, of 58 characters, so this step is not idempotent by
    itself. *)
Theorem addAppGroupChild_again (E : env) (d e : nat) (s : jsstring) :
  is_Some (exec appGroupPattern s) ->
  let s1 := addAppGroupChild (token E d) s in
  let s2 := addAppGroupChild (token E e) s1 in
  is_Some (exec appGroupPattern s1) /\
  length s1 = length s + 58 /\
  length s2 = length s + 116 /\
  s2 <> s1.
Proof.
  intros Hs s1 s2.
  assert (forall n, length (appGroupChild (token E n)) = 58) as Hlen.
  { intros n. unfold appGroupChild. rewrite !length_app, token_length. reflexivity. }
  destruct (child_inserted_grows appGroupPattern appGroupHeader isaGroup childrenOpen
              match_here_appGroup eq_refl eq_refl _ _ _
              (addAppGroupChild_inserted (token E d) s (token_plain E d)) Hs)
    as [H1 L1].
  destruct (child_inserted_grows appGroupPattern appGroupHeader isaGroup childrenOpen
              match_here_appGroup eq_refl eq_refl _ _ _
              (addAppGroupChild_inserted (token E e) s1 (token_plain E e)) H1)
    as [H2 L2].
  rewrite Hlen in L1, L2. fold s1 in L1. fold s2 in L2.
  split; [done|]. split; [done|]. split; [lia|]. intros Heq. rewrite Heq in L2. lia.
Qed.

Lemma addAppGroupChild_again_witness :
  let E := env_cycle in
  let s := small_descriptor in
  let s1 := addAppGroupChild (token E 0) s in
  let s2 := addAppGroupChild (token E 24) s1 in
  is_Some (exec appGroupPattern s1) /\
  length s1 = length s + 58 /\
  length s2 = length s + 116 /\
  s2 <> s1.
Proof.
  apply (addAppGroupChild_again env_cycle 0 24 small_descriptor).
  vm_compute. eexists. reflexivity.
Defined.

(** X21: the same for the group of the extension, whose child entry has 68
    characters: each application to a text with a header of the extension
    group adds one more child. *)
Theorem addExtGroupChild_again (E : env) (d e : nat) (s : jsstring) :
  is_Some (exec extGroupPattern s) ->
  let s1 := addExtGroupChild (token E d) s in
  let s2 := addExtGroupChild (token E e) s1 in
  is_Some (exec extGroupPattern s1) /\
  length s1 = length s + 68 /\
  length s2 = length s + 136 /\
  s2 <> s1.
Proof.
  intros Hs s1 s2.
  assert (forall n, length (extGroupChild (token E n)) = 68) as Hlen.
  { intros n. unfold extGroupChild. rewrite !length_app, token_length. reflexivity. }
  destruct (child_inserted_grows extGroupPattern extGroupHeader isaGroup childrenOpen
              match_here_extGroup eq_refl eq_refl _ _ _
              (addExtGroupChild_inserted (token E d) s (token_plain E d)) Hs)
    as [H1 L1].
  destruct (child_inserted_grows extGroupPattern extGroupHeader isaGroup childrenOpen
              match_here_extGroup eq_refl eq_refl _ _ _
              (addExtGroupChild_inserted (token E e) s1 (token_plain E e)) H1)
    as [H2 L2].
  rewrite Hlen in L1, L2. fold s1 in L1. fold s2 in L2.
  split; [done|]. split; [done|]. split; [lia|]. intros Heq. rewrite Heq in L2. lia.
Qed.

Lemma addExtGroupChild_again_witness :
  let E := env_cycle in
  let s := extension_group_only in
  let s1 := addExtGroupChild (token E 0) s in
  let s2 := addExtGroupChild (token E 24) s1 in
  is_Some (exec extGroupPattern s1) /\
  length s1 = length s + 68 /\
  length s2 = length s + 136 /\
  s2 <> s1.
Proof.
  apply (addExtGroupChild_again env_cycle 0 24 extension_group_only).
  vm_compute. eexists. reflexivity.
Defined.


(** ** What the four patterns match *)

Section SettingMatches.

Variables (rx : RegExp) (l k1 k2 : jsstring).
Hypothesis rx_match : forall s, match_here rx s = match_setting l k1 k2 s.
Hypothesis k1_solid : starts_solid k1 = true.
Hypothesis k2_solid : starts_solid k2 = true.
Hypothesis k1_k2 : forall r, starts_with k1 (k2 ++ r) = false.

Lemma match_here_setting_iff s rest caps :
  match_here rx s = Some (rest, caps) <->
  exists ws k,
    s = l ++ ws ++ k ++ rest /\
    caps = [Some l; Some ws; Some k] /\
    ws <> [] /\ forallb is_space ws = true /\ (k = k1 \/ k = k2).
Proof.
  rewrite rx_match. split; [apply match_setting_Some|].
  intros (ws & k & -> & -> & Hne & Hws & Hk). by apply match_setting_exact.
Qed.

End SettingMatches.

(** X22: what the two build setting patterns match, in plain terms, for the
    backtracking matcher: the pattern of the app matches at the start of a
    text exactly when the text starts with the bundle identifier line of
    the app, then one or more white space characters, then [PRODUCT_NAME]
    or [REGISTER_APP_GROUPS]; the three groups capture these three parts
    and the match ends behind the keyword.  The same holds for the
    extension with its line and [PRODUCT_NAME] or [SKIP_INSTALL]. *)
Theorem build_patterns_match (s rest : jsstring) (caps : list (option jsstring)) :
  (match_here appBuildPattern s = Some (rest, caps) <->
   exists ws k,
     s = lit "PRODUCT_BUNDLE_IDENTIFIER = com.hankun.BewlyCat;" ++ ws ++ k ++ rest /\
     caps = [Some (lit "PRODUCT_BUNDLE_IDENTIFIER = com.hankun.BewlyCat;");
             Some ws; Some k] /\
     ws <> [] /\ forallb is_space ws = true /\
     (k = lit "PRODUCT_NAME" \/ k = lit "REGISTER_APP_GROUPS")) /\
  (match_here extBuildPattern s = Some (rest, caps) <->
   exists ws k,
     s = lit "PRODUCT_BUNDLE_IDENTIFIER = com.hankun.BewlyCat.Extension;"
           ++ ws ++ k ++ rest /\
     caps = [Some (lit "PRODUCT_BUNDLE_IDENTIFIER = com.hankun.BewlyCat.Extension;");
             Some ws; Some k] /\
     ws <> [] /\ forallb is_space ws = true /\
     (k = lit "PRODUCT_NAME" \/ k = lit "SKIP_INSTALL")).
Proof.
  split.
  - apply (match_here_setting_iff appBuildPattern); try done.
    apply match_here_appBuild.
  - apply (match_here_setting_iff extBuildPattern); try done.
    apply match_here_extBuild.
Qed.

Section GroupMatches.

Variables (rx : RegExp) (l0 l1 l2 : jsstring).
Hypothesis rx_match : forall s, match_here rx s = match_group l0 l1 l2 s.
Hypothesis l1_solid : starts_solid l1 = true.
Hypothesis l2_solid : starts_solid l2 = true.

Lemma match_here_group_iff s rest caps :
  match_here rx s = Some (rest, caps) <->
  exists w1 w2,
    s = l0 ++ w1 ++ l1 ++ w2 ++ l2 ++ rest /\
    caps = [Some (l0 ++ w1 ++ l1 ++ w2 ++ l2)] /\
    forallb is_space w1 = true /\ forallb is_space w2 = true.
Proof.
  rewrite rx_match. split.
  - intros (m & -> & -> & w1 & w2 & -> & Hw1 & Hw2)%match_group_Some.
    exists w1, w2. by rewrite <- !app_assoc.
  - intros (w1 & w2 & -> & -> & Hw1 & Hw2).
    replace (l0 ++ w1 ++ l1 ++ w2 ++ l2 ++ rest)
      with ((l0 ++ w1 ++ l1 ++ w2 ++ l2) ++ rest) by (by rewrite <- !app_assoc).
    apply match_group_word; [done..|]. by exists w1, w2.
Qed.

End GroupMatches.

(** X23: what the two group patterns match: the pattern of the app group
    matches at the start of a text exactly when the text starts with the
    header [/* BewlyCat */ = {], then [isa = PBXGroup;] and then
    [children = (], with any white space, or none, between the three; the
    match ends behind the opening parenthesis and the single group
    captures all of it.  The same holds for the extension group with the
    header [/* BewlyCat Extension */ = {]. *)
Theorem group_patterns_match (s rest : jsstring) (caps : list (option jsstring)) :
  (match_here appGroupPattern s = Some (rest, caps) <->
   exists w1 w2,
     s = lit "/* BewlyCat */ = {" ++ w1 ++ lit "isa = PBXGroup;" ++ w2
           ++ lit "children = (" ++ rest /\
     caps = [Some (lit "/* BewlyCat */ = {" ++ w1 ++ lit "isa = PBXGroup;" ++ w2
                     ++ lit "children = (")] /\
     forallb is_space w1 = true /\ forallb is_space w2 = true) /\
  (match_here extGroupPattern s = Some (rest, caps) <->
   exists w1 w2,
     s = lit "/* BewlyCat Extension */ = {" ++ w1 ++ lit "isa = PBXGroup;" ++ w2
           ++ lit "children = (" ++ rest /\
     caps = [Some (lit "/* BewlyCat Extension */ = {" ++ w1 ++ lit "isa = PBXGroup;"
                     ++ w2 ++ lit "children = (")] /\
     forallb is_space w1 = true /\ forallb is_space w2 = true).
Proof.
  split.
  - apply (match_here_group_iff appGroupPattern); try done.
    apply match_here_appGroup.
  - apply (match_here_group_iff extGroupPattern); try done.
    apply match_here_extGroup.
Qed.
